(** * A shallow embedding of the RISC-V teaching kernel

    The development follows the layout of the kernel sources:

    - [Excp]   : sys/excp.c, the U-mode exception handler, with the
                 page-fault hook of sys/memory.c;
    - [Thread] : sys/thread.c, the recursive locks;
    - [Memory] : sys/memory.c, the physical page allocator and the Sv39
                 page-table walk used by [set_range_flags];
    - [Cache]  : sys/cache.c, the 64-entry block cache;
    - [Ktfs]   : sys/ktfs.c, the file system on top of the cache.

    Further modules cover more of the same files and of their callers:
    [ThreadMore] and [Sched] (lock lists, thread lists and
    [condition_broadcast] of sys/thread.c), [MemoryMore]
    ([free_phys_pages], [validate_vptr]), [CacheFlush] ([cache_flush]),
    [KtfsMore] ([ktfs_bitmap_unmark]), [Filesys] (the mount table and
    [parse_path] of sys/filesys.c) and [Pipe] (the pipes of sys/uio.c).

    C integers are modelled as [Z]; every narrowing the C code performs
    (casts to [uint32_t], [uint8_t], [unsigned int]) is written out with an
    explicit [mod]. *)

From Stdlib Require Import ZArith Lia.
From stdpp Require Import base option list gmap strings.

Local Open Scope Z_scope.

(** ** Error codes (sys/error.h) *)

Definition EINVAL : Z := 1.
Definition EBUSY : Z := 2.
Definition ENOTSUP : Z := 3.
Definition EIO : Z := 4.
Definition ENOENT : Z := 6.
Definition ENOMEM : Z := 13.

(** Narrowing conversions of C. *)
Definition u8 (x : Z) : Z := x mod 2 ^ 8.
Definition u16 (x : Z) : Z := x mod 2 ^ 16.
Definition u32 (x : Z) : Z := x mod 2 ^ 32.
Definition u64 (x : Z) : Z := x mod 2 ^ 64.

(** ** sys/excp.c : exceptions taken from U mode *)

Module Excp.

(** Exception codes of sys/riscv.h. *)
Definition RISCV_SCAUSE_INSTR_ADDR_MISALIGNED : Z := 0.
Definition RISCV_SCAUSE_INSTR_ACCESS_FAULT : Z := 1.
Definition RISCV_SCAUSE_ILLEGAL_INSTR : Z := 2.
Definition RISCV_SCAUSE_BREAKPOINT : Z := 3.
Definition RISCV_SCAUSE_LOAD_ADDR_MISALIGNED : Z := 4.
Definition RISCV_SCAUSE_LOAD_ACCESS_FAULT : Z := 5.
Definition RISCV_SCAUSE_STORE_ADDR_MISALIGNED : Z := 6.
Definition RISCV_SCAUSE_STORE_ACCESS_FAULT : Z := 7.
Definition RISCV_SCAUSE_ECALL_FROM_UMODE : Z := 8.
Definition RISCV_SCAUSE_ECALL_FROM_SMODE : Z := 9.
Definition RISCV_SCAUSE_INSTR_PAGE_FAULT : Z := 12.
Definition RISCV_SCAUSE_LOAD_PAGE_FAULT : Z := 13.
Definition RISCV_SCAUSE_STORE_PAGE_FAULT : Z := 15.

(** The part of [struct trap_frame] the handler reads. *)
Record trap_frame := { sepc : Z; a0 : Z; a7 : Z }.

(** [excp_names]: an array with designated initialisers; the slots 10, 11
    and 14 are left NULL, and the array has 16 slots. *)
Definition excp_names (cause : Z) : option string :=
  if decide (cause = 0) then Some "Misaligned instruction address"%string
  else if decide (cause = 1) then Some "Instruction access fault"%string
  else if decide (cause = 2) then Some "Illegal instruction"%string
  else if decide (cause = 3) then Some "Breakpoint"%string
  else if decide (cause = 4) then Some "Misaligned load address"%string
  else if decide (cause = 5) then Some "Load access fault"%string
  else if decide (cause = 6) then Some "Misaligned store address"%string
  else if decide (cause = 7) then Some "Store access fault"%string
  else if decide (cause = 8) then Some "Environment call from U mode"%string
  else if decide (cause = 9) then Some "Environment call from S mode"%string
  else if decide (cause = 12) then Some "Instruction page fault"%string
  else if decide (cause = 13) then Some "Load page fault"%string
  else if decide (cause = 15) then Some "Store page fault"%string
  else None.

Definition excp_names_len : Z := 16.

(** What the handler prints before it kills the process: the four
    [snprintf] formats differ in whether the cause has a name and whether
    the faulting address is shown. *)
Record message := {
  msg_name : option string;   (* None: "Exception %u ..." *)
  msg_cause : Z;
  msg_sepc : Z;
  msg_vaddr : option Z        (* Some: "... for %p ..." *)
}.

(** How one call of [handle_umode_exception] ends. *)
Inductive outcome :=
| Syscall          (* handle_syscall(tfr) was called, then return *)
| Resumed          (* plain return: the trap exit path restores the frame
                      and executes the instruction at sepc again *)
| Exited (m : message).  (* kprintf of the message, then process_exit() *)

(** sys/memory.c: the page-fault hook.  No demand paging: it ignores its
    arguments and reports the fault as not handled. *)
Definition handle_umode_page_fault (tfr : trap_frame) (vma : Z) : Z := 0.

Definition is_page_fault (cause : Z) : bool :=
  bool_decide (cause = RISCV_SCAUSE_INSTR_PAGE_FAULT)
  || bool_decide (cause = RISCV_SCAUSE_LOAD_PAGE_FAULT)
  || bool_decide (cause = RISCV_SCAUSE_STORE_PAGE_FAULT).

Definition is_address_fault (cause : Z) : bool :=
  bool_decide (cause = RISCV_SCAUSE_LOAD_ADDR_MISALIGNED)
  || bool_decide (cause = RISCV_SCAUSE_STORE_ADDR_MISALIGNED)
  || bool_decide (cause = RISCV_SCAUSE_INSTR_ADDR_MISALIGNED)
  || bool_decide (cause = RISCV_SCAUSE_LOAD_ACCESS_FAULT)
  || bool_decide (cause = RISCV_SCAUSE_STORE_ACCESS_FAULT)
  || bool_decide (cause = RISCV_SCAUSE_INSTR_ACCESS_FAULT).

(** The tail of the handler: choose the label, log, exit. *)
Definition log_and_exit (cause : Z) (tfr : trap_frame) (bad_vaddr : Z) : outcome :=
  let name := if decide (cause < excp_names_len) then excp_names cause else None in
  let addy := is_page_fault cause || is_address_fault cause in
  Exited {| msg_name := name; msg_cause := cause; msg_sepc := sepc tfr;
            msg_vaddr := if addy then Some bad_vaddr else None |}.

(** [handle_umode_exception], with the hook it calls as a parameter;
    [bad_vaddr] is the value read from stval. *)
Definition handle_umode_exception_with (hook : trap_frame -> Z -> Z)
    (cause : Z) (tfr : trap_frame) (bad_vaddr : Z) : outcome :=
  if decide (cause = RISCV_SCAUSE_ECALL_FROM_UMODE) then Syscall
  else
    let x := is_page_fault cause in
    if x && bool_decide (hook tfr bad_vaddr = 0) then Resumed
    else log_and_exit cause tfr bad_vaddr.

Definition handle_umode_exception : Z -> trap_frame -> Z -> outcome :=
  handle_umode_exception_with handle_umode_page_fault.

Definition terminates_process (o : outcome) : Prop :=
  match o with Exited _ => True | _ => False end.

End Excp.

(** ** sys/thread.c : recursive locks *)

Module Thread.

(** A thread is named by its slot in the thread table (the value [TP]
    points to); a lock by its address. *)
Definition tid := Z.
Definition lockid := Z.

(** Modelled from the spec: [struct lock] is declared in thread.h, which is
    not among the sources.  The spec gives a lock as (owner,
    recursion_count, release_condition, next_in_owner_list); the functions
    of thread.c use the fields [owner], [cnt], [next] and [release].  The
    C type of [cnt] is not known, so the count is a mathematical integer
    here.  The wait list of [release] belongs to the scheduler:
    [condition_wait] and [condition_broadcast] do not touch the three
    fields below. *)
Record lock := Lock { owner : option tid; cnt : Z; next : option lockid }.

(** The locks in memory and, per thread, the head of [lock_list]
    (absent: NULL). *)
Record state := State {
  locks : gmap lockid lock;
  lock_list : gmap tid lockid
}.

Definition init_state : state := State ∅ ∅.

Inductive outcome :=
| Done (s : state)
| Blocked      (* the caller sleeps in condition_wait *)
| Panic        (* an assert failed *)
| Stuck.       (* a pointer outside the modelled locks, or a walk that
                  never ends *)

(** [memset(lock, 0, sizeof *lock); condition_init(...)] *)
Definition lock_init (l : lockid) (s : state) : outcome :=
  Done (State (<[l := Lock None 0 None]> (locks s)) (lock_list s)).

Definition lock_acquire (tp : tid) (l : lockid) (s : state) : outcome :=
  match locks s !! l with
  | None => Stuck
  | Some lk =>
      if decide (owner lk ≠ Some tp) then
        match owner lk with
        | Some _ => Blocked   (* while (lock->owner != NULL) condition_wait *)
        | None =>
            Done (State (<[l := Lock (Some tp) 1 (lock_list s !! tp)]> (locks s))
                        (<[tp := l]> (lock_list s)))
        end
      else
        Done (State (<[l := Lock (owner lk) (cnt lk + 1) (next lk)]> (locks s))
                    (lock_list s))
  end.

(** The cursor [hptr] of [lock_release_completely]: the address of
    [TP->lock_list] or of the [next] field of a lock. *)
Inductive hptr := Head | NextOf (p : lockid).

Definition deref (tp : tid) (s : state) (h : hptr) : option (option lockid) :=
  match h with
  | Head => Some (lock_list s !! tp)
  | NextOf p => next <$> locks s !! p
  end.

Inductive walk :=
| Found (h : hptr)     (* *hptr == lock *)
| AtNull               (* *hptr == NULL *)
| Lost.                (* wild pointer or out of steps *)

(** [while ( *hptr != lock && *hptr != NULL) hptr = &( *hptr)->next;] *)
Fixpoint find_link (fuel : nat) (tp : tid) (l : lockid) (s : state)
    (h : hptr) : walk :=
  match deref tp s h with
  | None => Lost
  | Some None => AtNull
  | Some (Some q) =>
      if decide (q = l) then Found h
      else match fuel with
           | O => Lost
           | S fuel' => find_link fuel' tp l s (NextOf q)
           end
  end.

(** [*hptr = v] *)
Definition store_link (tp : tid) (h : hptr) (v : option lockid) (s : state) : state :=
  match h with
  | Head =>
      State (locks s)
            (match v with
             | Some q => <[tp := q]> (lock_list s)
             | None => delete tp (lock_list s)
             end)
  | NextOf p =>
      State (match locks s !! p with
             | Some lk => <[p := Lock (owner lk) (cnt lk) v]> (locks s)
             | None => locks s
             end)
            (lock_list s)
  end.

(** A list with more links than there are locks has a cycle, on which the
    C loop spins forever; so this many steps decide the walk. *)
Definition walk_fuel (s : state) : nat := S (size (locks s)).

Definition lock_release_completely (tp : tid) (l : lockid) (s : state) : outcome :=
  (* condition_broadcast(&lock->release): scheduler only *)
  match find_link (walk_fuel s) tp l s Head with
  | Lost => Stuck
  | AtNull => Panic                      (* assert ( *hptr != NULL) *)
  | Found h =>
      match locks s !! l with
      | None => Stuck
      | Some lk =>
          let s1 := store_link tp h (next lk) s in   (* *hptr = ( *hptr)->next *)
          match locks s1 !! l with
          | None => Stuck
          | Some lk1 =>
              (* lock->owner = NULL; lock->next = NULL *)
              Done (State (<[l := Lock None (cnt lk1) None]> (locks s1))
                          (lock_list s1))
          end
      end
  end.

Definition lock_release (tp : tid) (l : lockid) (s : state) : outcome :=
  match locks s !! l with
  | None => Stuck
  | Some lk =>
      if decide (owner lk ≠ Some tp) then Panic        (* assert (lock->owner == TP) *)
      else if decide (cnt lk = 0) then Panic           (* assert (lock->cnt != 0) *)
      else
        let s1 := State (<[l := Lock (owner lk) (cnt lk - 1) (next lk)]> (locks s))
                        (lock_list s) in
        if decide (cnt lk - 1 = 0) then lock_release_completely tp l s1
        else Done s1
  end.

(** Kernel code as a sequence of lock operations, each by the thread that
    runs at that point. *)
Inductive op :=
| Init (l : lockid)
| Acquire (tp : tid) (l : lockid)
| Release (tp : tid) (l : lockid).

Definition step (o : op) (s : state) : outcome :=
  match o with
  | Init l => lock_init l s
  | Acquire tp l => lock_acquire tp l s
  | Release tp l => lock_release tp l s
  end.

(** Run the operations in order; the run ends at the first one that does
    not complete. *)
Fixpoint run (ops : list op) (s : state) : outcome :=
  match ops with
  | [] => Done s
  | o :: ops' =>
      match step o s with
      | Done s' => run ops' s'
      | r => r
      end
  end.

(** The invariant of the data model. *)
Definition lock_ok (lk : lock) : Prop :=
  (cnt lk = 0 <-> owner lk = None) /\ 0 <= cnt lk.

Definition locks_ok (s : state) : Prop :=
  forall l lk, locks s !! l = Some lk -> lock_ok lk.

End Thread.

(** ** sys/thread.c : more on locks *)

Module ThreadMore.
Import Thread.

(** The state after thread [tp] has taken the free lock [l] of [s] and
    holds it [k] times: the lock is linked in front of what the thread
    held before. *)
Definition held (tp : tid) (l : lockid) (s : state) (k : Z) : state :=
  State (<[l := Lock (Some tp) k (lock_list s !! tp)]> (locks s))
        (<[tp := l]> (lock_list s)).

(** The locks of [q] are linked in this order through [next], the last
    one to NULL. *)
Fixpoint lock_chain (m : gmap lockid lock) (q : list lockid) : Prop :=
  match q with
  | [] => True
  | l :: q' => next <$> m !! l = Some (List.head q') /\ lock_chain m q'
  end.

(** The lock list of every thread holds the locks the thread owns, each
    one once. *)
Definition lists_ok (s : state) : Prop :=
  forall tp, exists q,
    lock_list s !! tp = List.head q /\ lock_chain (locks s) q /\ NoDup q /\
    forall l, l ∈ q <-> owner <$> locks s !! l = Some (Some tp).

End ThreadMore.

(** ** sys/thread.c : thread lists and condition variables *)

Module Sched.

(** A thread is named by the address of its [struct thread]. *)
Definition tid := Z.

Inductive thread_state :=
| THREAD_UNINITIALIZED
| THREAD_WAITING
| THREAD_SELF
| THREAD_READY
| THREAD_EXITED.

(** The fields of [struct thread] that the list functions and
    [condition_broadcast] touch; [wait_cond] is the address of the
    condition the thread waits on. *)
Record thread := Thread {
  t_state : thread_state;
  list_next : option tid;
  wait_cond : option Z
}.

(** [struct thread_list] (thread.h is not among the sources; thread.c
    uses the two fields [head] and [tail]). *)
Record thread_list := TL { head : option tid; tail : option tid }.

Inductive outcome (A : Type) :=
| Done (a : A)
| Panic          (* an assert failed *)
| Stuck.         (* a store or load through NULL or a wild pointer *)
Arguments Done {A}.
Arguments Panic {A}.
Arguments Stuck {A}.

Definition set_next (v : option tid) (th : thread) : thread :=
  Thread (t_state th) v (wait_cond th).

Definition tlclear : thread_list := TL None None.

Definition tlempty (l : thread_list) : bool := bool_decide (head l = None).

(** [tlinsert(list, thr)]: the store [thr->list_next = NULL] comes before
    the test [thr == NULL]. *)
Definition tlinsert (l : thread_list) (thr : option tid) (ts : gmap tid thread)
    : outcome (thread_list * gmap tid thread) :=
  match thr with
  | None => Stuck
  | Some t =>
      match ts !! t with
      | None => Stuck
      | Some th =>
          let ts1 := <[t := set_next None th]> ts in
          match tail l with
          | Some tl_ =>
              match head l with
              | None => Panic               (* assert (list->head != NULL) *)
              | Some _ =>
                  match ts1 !! tl_ with
                  | None => Stuck
                  | Some tlh =>
                      Done (TL (head l) (Some t),
                            <[tl_ := set_next (Some t) tlh]> ts1)
                  end
              end
          | None =>
              match head l with
              | Some _ => Panic             (* assert (list->head == NULL) *)
              | None => Done (TL (Some t) (Some t), ts1)
              end
          end
      end
  end.

(** [tlremove(list)]: the thread removed (None for NULL), the list and
    the threads afterwards. *)
Definition tlremove (l : thread_list) (ts : gmap tid thread)
    : outcome (option tid * thread_list * gmap tid thread) :=
  match head l with
  | None => Done (None, l, ts)
  | Some t =>
      match ts !! t with
      | None => Stuck
      | Some th =>
          let h := list_next th in
          let l1 := TL h (match h with Some _ => tail l | None => None end) in
          Done (Some t, l1, <[t := set_next None th]> ts)
      end
  end.

(** The loop of [condition_broadcast(cond)] on the wait list of [cond]
    and the ready list. *)
Fixpoint broadcast_loop (fuel : nat) (wait ready : thread_list)
    (ts : gmap tid thread) : outcome (thread_list * thread_list * gmap tid thread) :=
  match tlremove wait ts with
  | Done (None, wait', ts') => Done (wait', ready, ts')
  | Done (Some t, wait', ts') =>
      match fuel with
      | O => Stuck
      | S fuel' =>
          match ts' !! t with
          | None => Stuck
          | Some th =>
              (* thr->state = THREAD_READY; thr->wait_cond = NULL *)
              let ts2 := <[t := Thread THREAD_READY (list_next th) None]> ts' in
              match tlinsert ready (Some t) ts2 with
              | Done (ready', ts3) => broadcast_loop fuel' wait' ready' ts3
              | Panic => Panic
              | Stuck => Stuck
              end
          end
      end
  | Panic => Panic
  | Stuck => Stuck
  end.

(** A list with more links than there are threads has a cycle, on which
    the C loop would spin; so this many rounds decide the call. *)
Definition condition_broadcast (wait ready : thread_list)
    (ts : gmap tid thread) : outcome (thread_list * thread_list * gmap tid thread) :=
  broadcast_loop (S (size ts)) wait ready ts.

(** *** Thread lists as queues *)

(** The threads of [q] are linked in this order through [list_next],
    the last one to NULL. *)
Fixpoint chain (ts : gmap tid thread) (q : list tid) : Prop :=
  match q with
  | [] => True
  | t :: q' => list_next <$> ts !! t = Some (List.head q') /\ chain ts q'
  end.

(** The list [l] holds the threads [q], first to last. *)
Definition holds_queue (ts : gmap tid thread) (l : thread_list) (q : list tid)
    : Prop :=
  head l = List.head q /\ tail l = last q /\ chain ts q /\ NoDup q.

(** [ts'] differs from [ts] at most in the [list_next] fields of the
    threads in [q]. *)
Definition same_but_links (q : list tid) (ts ts' : gmap tid thread) : Prop :=
  forall u,
    match ts !! u, ts' !! u with
    | Some th, Some th' =>
        t_state th' = t_state th /\ wait_cond th' = wait_cond th /\
        (u ∉ q -> list_next th' = list_next th)
    | None, None => True
    | _, _ => False
    end.

End Sched.

(** ** sys/memory.c : physical pages and page tables *)

Module Memory.

Definition PAGE_ORDER : Z := 12.
Definition PAGE_SIZE : Z := 2 ^ PAGE_ORDER.

(** *** The free chunk list *)

(** A [struct page_chunk] lives in the first bytes of the free region it
    describes, so a chunk is its address together with its [pagecnt]; the
    list linked through [next] from [free_chunk_list] is the list of these
    in link order. *)
Record page_chunk := Chunk { chunk_addr : Z; pagecnt : Z }.

Inductive panic_msg :=
| NoFreeChunks        (* "no free chunks available" *)
| NotEnoughPages      (* "not enough pages for cnt" *)
| AssertFailed.       (* assert(chunk_bytes >= alloc_bytes) *)

Inductive alloc_result :=
| AllocNull                                        (* return NULL *)
| AllocPanic (m : panic_msg)
| Allocated (pp : Z) (fl : list page_chunk).       (* pointer, new list *)

(** The scan for the best chunk.  [i] is the position of the head of [l]
    in the whole list (it stands for the pointer [curr]) and [best] the
    best chunk so far with its position; the C code also keeps
    [best_prev], which is determined by the position. *)
Fixpoint find_best (cnt : Z) (l : list page_chunk) (i : nat)
    (best : option (nat * page_chunk)) : option (nat * page_chunk) :=
  match l with
  | [] => best
  | curr :: l' =>
      let best' :=
        if decide (cnt <= pagecnt curr) then
          match best with
          | None => Some (i, curr)
          | Some (_, b) =>
              if decide (pagecnt curr < pagecnt b) then Some (i, curr) else best
          end
        else best in
      find_best cnt l' (S i) best'
  end.

(** [alloc_phys_pages(cnt)] on the free list [fl]; [cnt] is an
    [unsigned int], addresses and byte counts are 64-bit. *)
Definition alloc_phys_pages (cnt : Z) (fl : list page_chunk) : alloc_result :=
  if decide (cnt = 0) then AllocNull
  else match fl with
  | [] => AllocPanic NoFreeChunks
  | _ =>
    match find_best cnt fl 0 None with
    | None => AllocPanic NotEnoughPages
    | Some (i, best) =>
        let start := chunk_addr best in
        let chunk_bytes := u64 (pagecnt best * 2 ^ PAGE_ORDER) in
        let alloc_bytes := u64 (cnt * 2 ^ PAGE_ORDER) in
        if decide (chunk_bytes < alloc_bytes) then AllocPanic AssertFailed
        else if decide (pagecnt best = cnt) then
          Allocated start (delete i fl)
        else
          Allocated (u64 (start + (chunk_bytes - alloc_bytes)))
                    (<[i := Chunk (chunk_addr best) (pagecnt best - cnt)]> fl)
    end
  end.

(** Chunks as the allocator keeps them: at least one page, at a non-NULL
    address, inside the 64-bit address space. *)
Definition chunk_wf (c : page_chunk) : Prop :=
  1 <= pagecnt c /\ 0 < chunk_addr c /\
  chunk_addr c + pagecnt c * PAGE_SIZE <= 2 ^ 64.

(** [b], at position [i], is the smallest chunk that fits [cnt] pages, the
    first such one in list order. *)
Definition smallest_fit (cnt : Z) (fl : list page_chunk) (i : nat)
    (b : page_chunk) : Prop :=
  fl !! i = Some b /\ cnt <= pagecnt b /\
  forall k c, fl !! k = Some c -> cnt <= pagecnt c ->
    pagecnt b <= pagecnt c /\ ((k < i)%nat -> pagecnt b < pagecnt c).

(** What the scan of [find_best] knows after the chunks in [pre]. *)
Definition scan_inv (cnt : Z) (pre : list page_chunk)
    (best : option (nat * page_chunk)) : Prop :=
  match best with
  | None => forall c, c ∈ pre -> pagecnt c < cnt
  | Some (j, b) => smallest_fit cnt pre j b
  end.

(** *** Sv39 page tables *)

Definition PTE_V : Z := 1.
Definition PTE_R : Z := 2.
Definition PTE_W : Z := 4.
Definition PTE_X : Z := 8.
Definition PTE_U : Z := 16.
Definition PTE_G : Z := 32.
Definition PTE_A : Z := 64.
Definition PTE_D : Z := 128.

Definition RWX : Z := Z.lor PTE_R (Z.lor PTE_W PTE_X).
Definition RWXUG : Z :=
  Z.lor PTE_R (Z.lor PTE_W (Z.lor PTE_X (Z.lor PTE_U PTE_G))).
Definition ADV : Z := Z.lor PTE_A (Z.lor PTE_D PTE_V).

(** [struct pte]: bit fields of 8, 2, 44, 7, 2 and 1 bits. *)
Record pte := Pte {
  flags : Z; rsw : Z; ppn : Z; reserved : Z; pbmt : Z; n : Z
}.

Definition null_pte : pte := Pte 0 0 0 0 0 0.

Definition pte_wf (e : pte) : Prop := 0 <= flags e < 2 ^ 8.

Definition PTE_VALID (e : pte) : bool := negb (Z.land (flags e) PTE_V =? 0).
Definition PTE_GLOBAL (e : pte) : bool := negb (Z.land (flags e) PTE_G =? 0).
Definition PTE_LEAF (e : pte) : bool := negb (Z.land (flags e) RWX =? 0).

(** The memory that holds page tables, by the address of each entry; an
    address without an entry reads as zero (an invalid PTE). *)
Definition read_pte (m : gmap Z pte) (a : Z) : pte := default null_pte (m !! a).

Definition PTE_SIZE : Z := 8.

(** [PT_INDEX(lvl, vpn)] *)
Definition PT_INDEX (lvl : nat) (vpn : Z) : Z :=
  Z.shiftr (Z.land vpn (Z.shiftl 0x1FF (Z.of_nat lvl * 9))) (Z.of_nat lvl * 9).

Definition pageptr (pn : Z) : Z := u64 (Z.shiftl pn PAGE_ORDER).
Definition pte_child (e : pte) : Z := pageptr (ppn e).

(** [mtag_to_ptab] and [active_space_ptab]: the root table named by satp. *)
Definition mtag_to_ptab (mtag : Z) : Z := Z.shiftr (u64 (Z.shiftl mtag 20)) 8.

(** [ptab_fetch]: the loop from ROOT_LEVEL down to 0, by recursion on the
    level.  The result is the address of the entry, or None for NULL. *)
Fixpoint ptab_fetch_from (lvl : nat) (m : gmap Z pte) (curr_pg vpn : Z)
    : option Z :=
  let curr_addr := curr_pg + PTE_SIZE * PT_INDEX lvl vpn in
  let e := read_pte m curr_addr in
  if negb (PTE_VALID e) then None
  else match lvl with
       | O => Some curr_addr
       | S lvl' =>
           if PTE_LEAF e then Some curr_addr
           else ptab_fetch_from lvl' m (pte_child e) vpn
       end.

Definition ROOT_LEVEL : nat := 2.

Definition ptab_fetch (m : gmap Z pte) (ptab vpn : Z) : option Z :=
  ptab_fetch_from ROOT_LEVEL m ptab vpn.

(** The new flag byte of [ptab_adjust]. *)
Definition adjust_flags (old_flags rwxug_flags : Z) : Z :=
  let non_flag_bits := u8 (Z.land (u8 old_flags) (Z.lnot RWXUG)) in
  u8 (Z.lor non_flag_bits (u8 rwxug_flags)).

(** [curr_pte->flags = f]: the other fields stay. *)
Definition with_flags (e : pte) (f : Z) : pte :=
  Pte f (rsw e) (ppn e) (reserved e) (pbmt e) (n e).

Definition ptab_adjust (ptab vpn rwxug_flags : Z) (m : gmap Z pte) : gmap Z pte :=
  match ptab_fetch m ptab vpn with
  | None => m
  | Some a =>
      let e := read_pte m a in
      if negb (PTE_LEAF e) then m
      else <[a := with_flags e (adjust_flags (flags e) rwxug_flags)]> m
  end.

(** [wellformed(vma)]: bits 63:38 all zero or all one. *)
Definition wellformed (vma : Z) : bool :=
  let sv := if decide (vma < 2 ^ 63) then vma else vma - 2 ^ 64 in
  let bits := Z.shiftr sv 38 in
  (bits =? 0) || (bits + 1 =? 0).

(** The loop of [set_range_flags] over [num_pages] pages. *)
Fixpoint adjust_pages (num_pages : nat) (root vpn rwxug_flags : Z)
    (m : gmap Z pte) : gmap Z pte :=
  match num_pages with
  | O => m
  | S k => adjust_pages k root (vpn + 1) rwxug_flags
             (ptab_adjust root vpn rwxug_flags m)
  end.

Definition range_pages (size : Z) : Z :=
  Z.shiftr (u64 (size + PAGE_SIZE - 1)) PAGE_ORDER.

(** [set_range_flags(vp, size, rwxug_flags)] in the address space named by
    [satp]; None when one of its assertions fails. *)
Definition set_range_flags (satp : Z) (vp size rwxug_flags : Z)
    (m : gmap Z pte) : option (gmap Z pte) :=
  if decide (size = 0) then Some m
  else
    let vma := vp in
    if negb (Z.land vma (PAGE_SIZE - 1) =? 0) then None
    else if negb (wellformed vma) then None
    else
      let end_vma := u64 (vma + (size - 1)) in
      if decide (end_vma < vma) then None
      else if negb (wellformed end_vma) then None
      else
        let num_pages := range_pages size in
        let starting_vpn := vma / PAGE_SIZE in
        let root_table := mtag_to_ptab satp in
        Some (adjust_pages (Z.to_nat num_pages) root_table starting_vpn
                rwxug_flags m).

(** A page of the range whose walk ends at a valid leaf entry. *)
Definition mapped_leaf (m : gmap Z pte) (root vpn a : Z) : Prop :=
  ptab_fetch m root vpn = Some a /\ PTE_LEAF (read_pte m a) = true.

(** A flag byte made of R, W, X, U and G bits only. *)
Definition is_rwxug (f : Z) : Prop := 0 <= f < 2 ^ 8 /\ Z.land f RWXUG = f.

Definition ptes_wf (m : gmap Z pte) : Prop :=
  forall a e, m !! a = Some e -> pte_wf e.

(** The check behind the bit-level facts about [adjust_flags], run over
    all flag bytes. *)
Definition adjust_flags_check (old mask : Z) : bool :=
  let new := adjust_flags old mask in
  (0 <=? new) && (new <? 2 ^ 8)
  && (adjust_flags new mask =? new)
  && (negb (Z.land mask RWXUG =? mask)
      || ((Z.land new ADV =? Z.land old ADV)
          && (Z.land new PTE_V =? Z.land old PTE_V)
          && (Z.land new PTE_A =? Z.land old PTE_A)
          && (Z.land new PTE_D =? Z.land old PTE_D)
          && (Z.land new RWXUG =? mask)
          && (Z.land new PTE_G =? Z.land mask PTE_G)
          && (Z.land new RWX =? Z.land mask RWX))).

(** [m] comes from [m0] by setting the flags of some valid leaf entries. *)
Definition adjusted (mask : Z) (m0 m : gmap Z pte) : Prop :=
  forall a,
    m !! a = m0 !! a \/
    (PTE_VALID (read_pte m0 a) = true /\ PTE_LEAF (read_pte m0 a) = true /\
     m !! a = Some (with_flags (read_pte m0 a)
                      (adjust_flags (flags (read_pte m0 a)) mask))).

(** Two memories in which every walk takes the same turns. *)
Definition walk_equiv (m m' : gmap Z pte) : Prop :=
  forall a,
    PTE_VALID (read_pte m' a) = PTE_VALID (read_pte m a) /\
    PTE_LEAF (read_pte m' a) = PTE_LEAF (read_pte m a) /\
    ppn (read_pte m' a) = ppn (read_pte m a).

Definition same_other_fields (e e' : pte) : Prop :=
  rsw e' = rsw e /\ ppn e' = ppn e /\ reserved e' = reserved e /\
  pbmt e' = pbmt e /\ n e' = n e.

(** [e'] is [e] with its R, W, X, U and G bits replaced by [mask]: the A,
    D and V bits and every other field are those of [e]. *)
Definition flags_set (mask : Z) (e e' : pte) : Prop :=
  same_other_fields e e' /\
  Z.land (flags e') PTE_A = Z.land (flags e) PTE_A /\
  Z.land (flags e') PTE_D = Z.land (flags e) PTE_D /\
  Z.land (flags e') PTE_V = Z.land (flags e) PTE_V /\
  Z.land (flags e') RWXUG = mask.

(** *** A small address space, for examples

    satp names the root table at 0x80400000; the page at 0xC0000000 is
    mapped through tables at 0x80401000 and 0x80402000 to the physical
    page 0x80500000 as a global, user, read-write page. *)
Definition ex_satp : Z := 8 * 2 ^ 60 + 0x80400.
Definition ex_leaf_addr : Z := 0x80402000.
Definition ex_ptes : gmap Z pte :=
  <[0x80400000 + 8 * 3 := Pte PTE_V 0 0x80401 0 0 0]>
  (<[0x80401000 := Pte PTE_V 0 0x80402 0 0 0]>
  (<[ex_leaf_addr := Pte 247 0 0x80500 0 0 0]> ∅)).

End Memory.
(** ** sys/memory.c : giving pages back to the free chunk list *)

Module MemoryMore.
Import Memory.

Inductive free_panic :=
| NotAligned          (* assert((start_addr & (PAGE_SIZE - 1)) == 0) *)
| BelowBase           (* assert(start_addr >= free_base_addr) *)
| AboveEnd            (* assert(end_addr <= RAM_END) *)
| Overlapping.        (* panic("free_phys_pages: overlapping pages") *)

Inductive free_result :=
| FreePanic (m : free_panic)
| Freed (fl : list page_chunk).

Section FreeList.

(** [free_base_addr] is set once by [memory_init]; [RAM_END] comes from
    conf.h, which is not among the sources. *)
Variables (free_base_addr RAM_END : Z).

(** The walk of [free_phys_pages] along the list: the position at which
    the loop breaks or runs off the end, [None] when it panics.  [i] is
    the position of the head of [l] (it stands for [curr], and [prev] is
    the chunk before it). *)
Fixpoint find_slot (start_addr end_addr : Z) (l : list page_chunk) (i : nat)
    : option nat :=
  match l with
  | [] => Some i
  | curr :: l' =>
      let curr_start := chunk_addr curr in
      let curr_end := u64 (curr_start + u64 (pagecnt curr * 2 ^ PAGE_ORDER)) in
      if decide (end_addr <= curr_start) then Some i
      else if decide (curr_end <= start_addr) then
        find_slot start_addr end_addr l' (S i)
      else None
  end.

(** [free_phys_pages(pp, cnt)] on the free list [fl].  The new chunk
    header is written at [pp] itself; a list of chunks stands for the C
    list as long as no chunk passed by the walk sits at [pp], which the
    overlap test ensures for chunks of at least one page. *)
Definition free_phys_pages (pp cnt : Z) (fl : list page_chunk) : free_result :=
  if decide (cnt = 0 \/ pp = 0) then Freed fl
  else if decide (Z.land pp (PAGE_SIZE - 1) = 0) then
    if decide (free_base_addr <= pp) then
      let end_addr := u64 (pp + u64 (cnt * 2 ^ PAGE_ORDER)) in
      if decide (end_addr <= RAM_END) then
        match find_slot pp end_addr fl 0 with
        | None => FreePanic Overlapping
        | Some i => Freed (take i fl ++ Chunk pp cnt :: drop i fl)
        end
      else FreePanic AboveEnd
    else FreePanic BelowBase
  else FreePanic NotAligned.

Definition free_phys_page (pp : Z) (fl : list page_chunk) : free_result :=
  free_phys_pages pp 1 fl.

(** The end of a chunk, as a number. *)
Definition chunk_end (c : page_chunk) : Z :=
  chunk_addr c + pagecnt c * PAGE_SIZE.

(** The free list as [memory_init] leaves it and the allocator keeps it:
    chunks of at least one page each, page aligned, in ascending address
    order without overlap, between [lo] and [RAM_END]. *)
Fixpoint free_list_from (lo : Z) (fl : list page_chunk) : Prop :=
  match fl with
  | [] => True
  | c :: l =>
      lo <= chunk_addr c /\ 1 <= pagecnt c /\
      Z.land (chunk_addr c) (PAGE_SIZE - 1) = 0 /\
      chunk_end c <= RAM_END /\
      free_list_from (chunk_end c) l
  end.

Definition free_list_wf (fl : list page_chunk) : Prop :=
  free_list_from free_base_addr fl.

(** The pages [pp .. pp + cnt) and the chunk [c] share no byte. *)
Definition apart (pp cnt : Z) (c : page_chunk) : Prop :=
  chunk_end c <= pp \/ pp + cnt * PAGE_SIZE <= chunk_addr c.

End FreeList.

(** [free_phys_page_count()]: the sum is kept in an [unsigned long]. *)
Definition free_phys_page_count (fl : list page_chunk) : Z :=
  fold_left (fun total chunk => u64 (total + pagecnt chunk)) fl 0.

(** The number of pages on the list, as a number. *)
Definition pages (fl : list page_chunk) : Z :=
  foldr (fun c s => pagecnt c + s) 0 fl.

Definition alloc_phys_page (fl : list page_chunk) : alloc_result :=
  alloc_phys_pages 1 fl.

(** *** Checking a user pointer *)

Definition EACCESS : Z := 7.

(** One round of the loop of [validate_vptr]: the walk reaches an entry,
    which is valid, a leaf, and has every flag asked for. *)
Definition page_checked (m : gmap Z pte) (root vpn rwxu_flags : Z) : bool :=
  match ptab_fetch m root vpn with
  | None => false
  | Some a =>
      let e := read_pte m a in
      PTE_VALID e && PTE_LEAF e && (Z.land (flags e) rwxu_flags =? rwxu_flags)
  end.

Fixpoint check_pages (num_pages : nat) (m : gmap Z pte)
    (root vpn rwxu_flags : Z) : Z :=
  match num_pages with
  | O => 0
  | S k =>
      if page_checked m root vpn rwxu_flags
      then check_pages k m root (vpn + 1) rwxu_flags
      else - EACCESS
  end.

(** [validate_vptr(vp, len, rwxu_flags)] in the address space named by
    [satp]. *)
Definition validate_vptr (satp : Z) (m : gmap Z pte) (vp len rwxu_flags : Z)
    : Z :=
  if decide (len = 0) then 0
  else
    let start_addr := vp in
    let end_addr := u64 (start_addr + len) in
    if decide (end_addr < start_addr) then - EINVAL
    else if negb (wellformed start_addr) || negb (wellformed (u64 (end_addr - 1)))
    then - EINVAL
    else
      let root_table := mtag_to_ptab satp in
      let vpn_start := start_addr / PAGE_SIZE in
      let vpn_end := u64 (end_addr - 1) / PAGE_SIZE in
      check_pages (Z.to_nat (vpn_end - vpn_start + 1)) m root_table vpn_start
        rwxu_flags.

End MemoryMore.

(** ** sys/cache.c : the block cache *)

Module Cache.

Definition CACHE_BLKSZ : Z := 512.

(** The storage device behind the cache (sys/device.c, [storage_fetch] and
    [storage_store] over the device's function table).  A fetch is given
    the position, the buffer as it is and the byte count, and yields the
    result (bytes transferred or a negative error), the buffer as the
    device leaves it and the device afterwards; a store likewise. *)
Class Storage (S : Type) := {
  storage_fetch : S -> Z -> list Z -> Z -> Z * list Z * S;
  storage_store : S -> Z -> list Z -> Z -> Z * S
}.

(** [struct cache_entry].  [data] is a pointer to a buffer of its own:
    [data_ptr] is the pointer and [data] the 512 bytes behind it. *)
Record cache_entry := Entry {
  block_n : Z;
  data_ptr : Z;
  data : list Z;
  dirty : bool;
  valid : bool;
  access_time : Z;
  in_use : bool;
  owner_tid : Z;
  waiters : Z
}.

(** [struct cache].  The mutex [mtx] makes every function below run
    without interleaving with another cache call; [any_cv] only carries
    sleeping threads.  Neither has a field here. *)
Record cache (S : Type) := Cache {
  stor : S;
  entries : list cache_entry;
  timer : Z;
  last_used : Z
}.
Arguments Cache {S}.
Arguments stor {S}.
Arguments entries {S}.
Arguments timer {S}.
Arguments last_used {S}.

(** Field updates. *)
Definition unpin (e : cache_entry) : cache_entry :=
  Entry (block_n e) (data_ptr e) (data e) (dirty e) (valid e)
        (access_time e) false (-1) (waiters e).
Definition pin (tp t : Z) (e : cache_entry) : cache_entry :=
  Entry (block_n e) (data_ptr e) (data e) (dirty e) (valid e)
        t true tp (waiters e).
Definition add_waiter (d : Z) (e : cache_entry) : cache_entry :=
  Entry (block_n e) (data_ptr e) (data e) (dirty e) (valid e)
        (access_time e) (in_use e) (owner_tid e) (waiters e + d).
Definition set_data (buf : list Z) (e : cache_entry) : cache_entry :=
  Entry (block_n e) (data_ptr e) buf (dirty e) (valid e)
        (access_time e) (in_use e) (owner_tid e) (waiters e).
Definition set_dirty (b : bool) (e : cache_entry) : cache_entry :=
  Entry (block_n e) (data_ptr e) (data e) b (valid e)
        (access_time e) (in_use e) (owner_tid e) (waiters e).
Definition fill (bn tp t : Z) (e : cache_entry) : cache_entry :=
  Entry bn (data_ptr e) (data e) false true t true tp (waiters e).

(** A [long] returned from a function whose type is [int]. *)
Definition to_int (x : Z) : Z := (x + 2 ^ 31) mod 2 ^ 32 - 2 ^ 31.

(** The second loop of [cache_evict_entry]: [i] is the index of the head
    of [l]. *)
Fixpoint evict_scan (l : list cache_entry) (i min ret_index : Z) : Z :=
  match l with
  | [] => ret_index
  | e :: l' =>
      if valid e && negb (in_use e) then
        if decide (ret_index = -1 \/ access_time e < min)
        then evict_scan l' (i + 1) (access_time e) i
        else evict_scan l' (i + 1) min ret_index
      else evict_scan l' (i + 1) min ret_index
  end.

Definition cache_evict_entry (es : list cache_entry) : Z :=
  match list_find (fun e => valid e = false /\ in_use e = false) es with
  | Some (i, _) => Z.of_nat i
  | None => evict_scan es 0 (2 ^ 32 - 1) (-1)
  end.

(** How a call of [cache_get_block] ends: it returns a code, with the
    block pointer stored through [pptr] on success, or the caller goes to
    sleep in [condition_wait] because another thread has the block. *)
Inductive get_result (S : Type) :=
| GetRet (code : Z) (pptr : option Z) (c : cache S)
| GetWait (i : nat) (c : cache S).
Arguments GetRet {S}.
Arguments GetWait {S}.

(** The cache as a call leaves it. *)
Definition result_cache {S} (r : get_result S) : cache S :=
  match r with GetRet _ _ c => c | GetWait _ c => c end.

Section WithStorage.
Context {S : Type} `{Storage S}.

(** The first step of [cache_get_block]: drop the caller's last pin. *)
Definition unpin_last (tp : Z) (c : cache S) : cache S :=
  if decide (0 <= last_used c) then
    match entries c !! Z.to_nat (last_used c) with
    | Some e =>
        if decide (owner_tid e = tp) then
          Cache (stor c) (<[Z.to_nat (last_used c) := unpin e]> (entries c))
                (timer c) (-1)
        else c
    | None => c
    end
  else c.

(** The hit scan: the first valid entry with the block number. *)
Definition find_hit (bn : Z) (es : list cache_entry) : option (nat * cache_entry) :=
  list_find (fun e => block_n e = bn /\ valid e = true) es.

(** Write the victim back if it is valid and dirty. *)
(** Write the victim back if it is valid and dirty; the first component
    is the code to return when the write fails. *)
Definition write_back (c : cache S) (e : cache_entry)
    : option Z * cache_entry * S :=
  if valid e && dirty e then
    let evict_pos := u64 (block_n e * CACHE_BLKSZ) in
    let '(ret, sto) := storage_store (stor c) evict_pos (data e) CACHE_BLKSZ in
    if decide (ret < 0) then (Some (to_int ret), e, sto)
    else if decide (ret ≠ CACHE_BLKSZ) then (Some (- EIO), e, sto)
    else (None, set_dirty false e, sto)
  else (None, e, stor c).

(** [cache_get_block(cache, pos, pptr)] called by thread [tp]. *)
Definition cache_get_block (tp : Z) (c : cache S) (pos : Z) : get_result S :=
  if decide (pos mod CACHE_BLKSZ ≠ 0) then GetRet (- EINVAL) None c
  else
    let position := pos / CACHE_BLKSZ in
    let c := unpin_last tp c in
    match find_hit (u32 position) (entries c) with
    | Some (i, e) =>
        if in_use e && negb (bool_decide (owner_tid e = tp)) then
          GetWait i (Cache (stor c) (<[i := add_waiter 1 e]> (entries c))
                           (timer c) (last_used c))
        else
          let t := u32 (timer c + 1) in
          GetRet 0 (Some (data_ptr e))
            (Cache (stor c) (<[i := pin tp t e]> (entries c)) t (Z.of_nat i))
    | None =>
        let index := cache_evict_entry (entries c) in
        if decide (index < 0) then GetRet (- EBUSY) None c
        else
          let i := Z.to_nat index in
          match entries c !! i with
          | None => GetRet (- EBUSY) None c
          | Some e =>
              match write_back c e with
              | (Some rc, e1, sto1) =>
                  GetRet rc None
                    (Cache sto1 (<[i := e1]> (entries c)) (timer c) (last_used c))
              | (None, e1, sto1) =>
                  let '(ret, buf, sto2) :=
                    storage_fetch sto1 pos (data e1) CACHE_BLKSZ in
                  let e2 := set_data buf e1 in
                  if decide (ret < 0) then
                    GetRet (to_int ret) None
                      (Cache sto2 (<[i := e2]> (entries c)) (timer c) (last_used c))
                  else if decide (ret ≠ CACHE_BLKSZ) then
                    GetRet (- EIO) None
                      (Cache sto2 (<[i := e2]> (entries c)) (timer c) (last_used c))
                  else
                    let t := u32 (timer c + 1) in
                    GetRet 0 (Some (data_ptr e2))
                      (Cache sto2
                         (<[i := fill (u32 position) tp t e2]> (entries c))
                         t index)
              end
          end
    end.

(** [cache_release_block(cache, pblk, dirty)] *)
Definition cache_release_block (c : cache S) (pblk : Z) (dirty_arg : Z)
    : cache S :=
  if decide (pblk = 0) then c
  else
    match list_find (fun e => valid e = true /\ data_ptr e = pblk) (entries c) with
    | Some (i, e) =>
        let e1 := if decide (dirty_arg ≠ 0) then set_dirty true e else e in
        Cache (stor c) (<[i := unpin e1]> (entries c)) (timer c) (last_used c)
    | None => c
    end.

(** Reading and writing through a block pointer. *)
Definition block_at (c : cache S) (p : Z) : option (list Z) :=
  (fun ie => data (snd ie)) <$> list_find (fun e => data_ptr e = p) (entries c).

Definition store_at (c : cache S) (p : Z) (buf : list Z) : cache S :=
  match list_find (fun e => data_ptr e = p) (entries c) with
  | Some (i, e) =>
      Cache (stor c) (<[i := set_data buf e]> (entries c)) (timer c) (last_used c)
  | None => c
  end.

(** [create_cache] when every allocation succeeds: 64 invalid, unpinned
    entries over the buffers [bufs] that [kmalloc] returned. *)
Definition create_cache (disk : S) (bufs : list (Z * list Z)) : cache S :=
  Cache disk
    (map (fun b => Entry 0 (fst b) (snd b) false false 0 false (-1) 0)
         (take 64 bufs))
    0 (-1).

(** The shape of a cache: 64 entries, each with a buffer of its own at a
    non-NULL address. *)
Definition cache_wf (c : cache S) : Prop :=
  length (entries c) = 64%nat /\
  NoDup (data_ptr <$> entries c) /\
  Forall (fun e => data_ptr e ≠ 0) (entries c).




(** *** What the file system sees through the cache

    [disk_block s bn] stands for block [bn] of the device [s].  The
    cache shows the file system, for each block number, the buffer of
    the entry that holds the block or else the block of the device. *)
Section View.
Variable disk_block : S -> Z -> list Z.

Definition view (c : cache S) (bn : Z) : list Z :=
  match find_hit bn (entries c) with
  | Some (_, e) => data e
  | None => disk_block (stor c) bn
  end.

(** A device that hands back what was stored: a full-block fetch
    reads the block and leaves the device's blocks alone; a
    full-block store writes the block and no other. *)
Record storage_laws : Prop := {
  fetch_ok : forall s pos buf buf' s',
    pos mod CACHE_BLKSZ = 0 ->
    storage_fetch s pos buf CACHE_BLKSZ = (CACHE_BLKSZ, buf', s') ->
    buf' = disk_block s (pos / CACHE_BLKSZ) /\
    forall bn, disk_block s' bn = disk_block s bn;
  store_ok : forall s pos buf s',
    pos mod CACHE_BLKSZ = 0 ->
    storage_store s pos buf CACHE_BLKSZ = (CACHE_BLKSZ, s') ->
    disk_block s' (pos / CACHE_BLKSZ) = buf /\
    forall bn, bn ≠ pos / CACHE_BLKSZ -> disk_block s' bn = disk_block s bn
}.

(** The cache agrees with the device: a clean valid entry holds the
    bytes of its block, no block is held twice, and block numbers are
    32-bit values. *)
Definition coherent (c : cache S) : Prop :=
  (forall i e, entries c !! i = Some e -> valid e = true -> dirty e = false ->
     data e = disk_block (stor c) (block_n e)) /\
  (forall i j e e', entries c !! i = Some e -> entries c !! j = Some e' ->
     valid e = true -> valid e' = true -> block_n e = block_n e' -> i = j) /\
  (forall i e, entries c !! i = Some e -> valid e = true ->
     0 <= block_n e < 2 ^ 32).

(** [d] is what the cache shows for block [bn]. *)
Definition holds (c : cache S) (bn : Z) (d : list Z) : Prop :=
  (exists i e, entries c !! i = Some e /\ valid e = true /\
     block_n e = bn /\ d = data e) \/
  ((forall i e, entries c !! i = Some e ->
      ~ (block_n e = bn /\ valid e = true)) /\
   d = disk_block (stor c) bn).

End View.

(** Two entries with the same block, flags and bytes. *)
Definition same_content (e e' : cache_entry) : Prop :=
  block_n e' = block_n e /\ valid e' = valid e /\ dirty e' = dirty e /\
  data e' = data e.

(** Entry by entry the same blocks, flags and bytes. *)
Definition same_contents (es es' : list cache_entry) : Prop :=
  (forall j x, es !! j = Some x ->
     exists x', es' !! j = Some x' /\ same_content x x') /\
  (forall j x', es' !! j = Some x' ->
     exists x, es !! j = Some x /\ same_content x x').

End WithStorage.

End Cache.

(** ** A block device for the examples

    A device of whole 512-byte blocks that answers the block-sized,
    block-aligned requests of the cache the way [ramdisk_fetch] and the
    VirtIO block driver do: a position at or past the capacity transfers
    nothing and returns 0, any other position transfers one block.  The
    wrappers of sys/device.c reject a position that is not a multiple of
    the block size with -EINVAL. *)

Module Disk.

Record disk := Disk { contents : list (list Z) }.

Definition capacity (d : disk) : Z := 512 * Z.of_nat (length (contents d)).

(** The block with number [bn]; there is none below 0 or past the end. *)
Definition block (d : disk) (bn : Z) : list Z :=
  if decide (bn < 0) then [] else default [] (contents d !! Z.to_nat bn).

Definition fetch (d : disk) (pos : Z) (buf : list Z) (bufsz : Z)
    : Z * list Z * disk :=
  if decide (pos mod 512 ≠ 0) then (- EINVAL, buf, d)
  else if decide (pos < 0 \/ capacity d <= pos) then (0, buf, d)
  else (512, block d (pos / 512), d).

Definition store (d : disk) (pos : Z) (buf : list Z) (buflen : Z) : Z * disk :=
  if decide (pos mod 512 ≠ 0) then (- EINVAL, d)
  else if decide (pos < 0 \/ capacity d <= pos) then (0, d)
  else (512, Disk (<[Z.to_nat (pos / 512) := buf]> (contents d))).

#[global] Instance disk_storage : Cache.Storage disk :=
  {| Cache.storage_fetch := fetch; Cache.storage_store := store |}.

(** 64 buffers of 512 zero bytes at the addresses 0x10000 + 512 i. *)
Definition buffers : list (Z * list Z) :=
  (fun i => (0x10000 + 512 * Z.of_nat i, replicate 512 0)) <$> seq 0 64.

(** A disk of [n] blocks, block [k] filled with the byte [k + 1]. *)
Definition numbered (n : nat) : disk :=
  Disk ((fun k => replicate 512 (Z.of_nat k + 1)) <$> seq 0 n).

(** A fresh cache over a disk of 100 blocks. *)
Definition fresh : Cache.cache disk := Cache.create_cache (numbered 100) buffers.


End Disk.

(** ** sys/cache.c : [cache_flush] *)

Module CacheFlush.
Import Cache.

Section WithStorage.
Context {S : Type} `{Storage S}.

(** One round of the loop of [cache_flush], for entry [i]: a valid dirty
    entry is stored to the device and marked clean; a failed store ends
    the call with its code.  The body is the write-back of
    [cache_get_block], on the entry in place. *)
Definition flush_entry (c : cache S) (i : nat) : option Z * cache S :=
  match entries c !! i with
  | None => (None, c)
  | Some e =>
      match write_back c e with
      | (Some rc, e1, sto1) =>
          (Some rc, Cache sto1 (entries c) (timer c) (last_used c))
      | (None, e1, sto1) =>
          (None, Cache sto1 (<[i := e1]> (entries c)) (timer c) (last_used c))
      end
  end.

(** [for (i = ...; i < 64; i++)], with [n] rounds left. *)
Fixpoint flush_loop (n : nat) (i : nat) (c : cache S) : Z * cache S :=
  match n with
  | O => (0, c)
  | Datatypes.S n' =>
      match flush_entry c i with
      | (Some rc, c') => (rc, c')
      | (None, c') => flush_loop n' (Datatypes.S i) c'
      end
  end.

(** [cache_flush(cache)]: the code returned and the cache afterwards. *)
Definition cache_flush (c : cache S) : Z * cache S := flush_loop 64 0 c.

End WithStorage.

End CacheFlush.

(** ** Caches for the examples about reading, writing and flushing *)

Module DiskExamples.
Import Cache.

(** Thread 1 has asked the fresh cache for block 5 ... *)
Definition after_get : cache Disk.disk :=
  result_cache (cache_get_block 1 Disk.fresh (512 * 5)).

(** ... and has filled it with the byte 9 and released it as dirty. *)
Definition written : cache Disk.disk :=
  cache_release_block (store_at after_get 0x10000 (replicate 512 9)) 0x10000 1.

End DiskExamples.

(** ** sys/ktfs.c : the file system *)

Module Ktfs.
Import Cache.

Definition KTFS_BLKSZ : Z := 512.
Definition KTFS_INOSZ : Z := 32.
Definition KTFS_DENSZ : Z := 16.
Definition KTFS_MAX_FILENAME_LEN : Z := KTFS_DENSZ - 2 - 1.
Definition KTFS_NUM_DIRECT_DATA_BLOCKS : Z := 4.
Definition KTFS_NUM_INDIRECT_BLOCKS : Z := 1.
Definition KTFS_NUM_DINDIRECT_BLOCKS : Z := 2.
Definition KTFS_MAX_FILE_SIZE : Z :=
  KTFS_NUM_DIRECT_DATA_BLOCKS * KTFS_BLKSZ
  + KTFS_NUM_INDIRECT_BLOCKS * (KTFS_BLKSZ / 4) * KTFS_BLKSZ
  + KTFS_NUM_DINDIRECT_BLOCKS * (KTFS_BLKSZ / 4) * (KTFS_BLKSZ / 4) * KTFS_BLKSZ.

(** sys/uio.h *)
Definition FCNTL_GETEND : Z := 0.
Definition FCNTL_SETEND : Z := 1.
Definition FCNTL_GETPOS : Z := 2.
Definition FCNTL_SETPOS : Z := 3.

(** *** Bytes of a block *)

Definition byte_at (buf : list Z) (i : Z) : Z := default 0 (buf !! Z.to_nat i).

Definition le16 (buf : list Z) (off : Z) : Z :=
  byte_at buf off + 2 ^ 8 * byte_at buf (off + 1).

Definition le32 (buf : list Z) (off : Z) : Z :=
  byte_at buf off + 2 ^ 8 * byte_at buf (off + 1)
  + 2 ^ 16 * byte_at buf (off + 2) + 2 ^ 24 * byte_at buf (off + 3).

Definition enc16 (v : Z) : list Z := [v mod 2 ^ 8; (v / 2 ^ 8) mod 2 ^ 8].

Definition enc32 (v : Z) : list Z :=
  [v mod 2 ^ 8; (v / 2 ^ 8) mod 2 ^ 8; (v / 2 ^ 16) mod 2 ^ 8;
   (v / 2 ^ 24) mod 2 ^ 8].

(** [memcpy(buf + off, bytes, length bytes)] *)
Definition splice (buf : list Z) (off : Z) (bytes : list Z) : list Z :=
  take (Z.to_nat off) buf ++ bytes
  ++ drop (Z.to_nat off + length bytes) buf.

(** [memcpy(dst, buf + off, len)] *)
Definition slice (buf : list Z) (off len : Z) : list Z :=
  take (Z.to_nat len) (drop (Z.to_nat off) buf).

(** *** On-disk structures (sys/ktfs.h), packed and little-endian *)

Record ktfs_superblock := Super {
  block_count : Z;
  inode_bitmap_block_count : Z;
  bitmap_block_count : Z;
  inode_block_count : Z;
  root_directory_inode : Z
}.

Record ktfs_inode := Inode {
  size : Z;
  block : list Z;       (* 4 direct indices *)
  indirect : Z;
  dindirect : list Z    (* 2 double-indirect indices *)
}.

Record ktfs_dir_entry := Dirent { inode : Z; name : list Z (* 14 bytes *) }.

Definition decode_super (b : list Z) : ktfs_superblock :=
  Super (le32 b 0) (le32 b 4) (le32 b 8) (le32 b 12) (le16 b 16).

Definition decode_inode (b : list Z) (off : Z) : ktfs_inode :=
  Inode (le32 b off)
        [le32 b (off + 4); le32 b (off + 8); le32 b (off + 12); le32 b (off + 16)]
        (le32 b (off + 20))
        [le32 b (off + 24); le32 b (off + 28)].

Definition idx32 (l : list Z) (i : Z) : Z := default 0 (l !! Z.to_nat i).

Definition encode_inode (ino : ktfs_inode) : list Z :=
  enc32 (size ino)
  ++ enc32 (idx32 (block ino) 0) ++ enc32 (idx32 (block ino) 1)
  ++ enc32 (idx32 (block ino) 2) ++ enc32 (idx32 (block ino) 3)
  ++ enc32 (indirect ino)
  ++ enc32 (idx32 (dindirect ino) 0) ++ enc32 (idx32 (dindirect ino) 1).

Definition decode_dirent (b : list Z) (off : Z) : ktfs_dir_entry :=
  Dirent (le16 b off) (slice b (off + 2) 14).

(** [ktfs_compute_layout]: [int] sums stored into [uint32_t] outputs. *)
Definition inode_bitmap_start (sb : ktfs_superblock) : Z := 1.
Definition block_bitmap_start (sb : ktfs_superblock) : Z :=
  u32 (1 + inode_bitmap_block_count sb).
Definition inode_table_start (sb : ktfs_superblock) : Z :=
  u32 (1 + inode_bitmap_block_count sb + bitmap_block_count sb).
Definition data_start (sb : ktfs_superblock) : Z :=
  u32 (1 + inode_bitmap_block_count sb + bitmap_block_count sb
       + inode_block_count sb).

(** *** C strings *)

(** The characters before the first NUL. *)
Fixpoint cstr (l : list Z) : list Z :=
  match l with
  | [] => []
  | b :: l' => if decide (b = 0) then [] else b :: cstr l'
  end.

(** [strncmp(a, b, n) == 0] *)
Definition strncmp_eq (a b : list Z) (n : Z) : bool :=
  bool_decide (take (Z.to_nat n) (cstr a) = take (Z.to_nat n) (cstr b)).

Fixpoint bytes_of_string (s : string) : list Z :=
  match s with
  | EmptyString => []
  | String a s' => Z.of_N (Ascii.N_of_ascii a) :: bytes_of_string s'
  end.

(** *** In-memory structures *)

(** [struct ktfs_uio] with its [struct ktfs_file]; [file_lock] serialises
    the calls on one handle and has no field here. *)
Record ktfs_uio := Uio {
  file_size : Z;
  file_position : Z;
  file_offset : Z;
  inode_number : Z
}.

Record ktfs_listing_uio := Listing {
  ls_super : ktfs_superblock;
  ls_root : ktfs_inode;
  next_index : Z;
  total_entries : Z
}.

Inductive opened :=
| OpenFile (ku : ktfs_uio)
| OpenListing (ls : ktfs_listing_uio).

(** *** Calls into the cache

    A computation runs on the cache of the mount.  It ends with a value,
    with a negative code that a callee returned, asleep inside the cache
    ([Sleep]: a block is pinned by another thread), or with an access
    through a pointer that was never set ([Fault]). *)
Inductive res (S A : Type) :=
| Ok (a : A) (c : cache S)
| Fail (code : Z) (c : cache S)
| Sleep (c : cache S)
| Fault (c : cache S).
Arguments Ok {S A}.
Arguments Fail {S A}.
Arguments Sleep {S A}.
Arguments Fault {S A}.

Definition M (S A : Type) : Type := cache S -> res S A.

Definition ret {S A} (a : A) : M S A := fun c => Ok a c.
Definition fail {S A} (code : Z) : M S A := fun c => Fail code c.
Definition fault {S A} : M S A := fun c => Fault c.

Definition bind {S A B} (m : M S A) (k : A -> M S B) : M S B :=
  fun c =>
    match m c with
    | Ok a c' => k a c'
    | Fail code c' => Fail code c'
    | Sleep c' => Sleep c'
    | Fault c' => Fault c'
    end.

(** Run [m] and hand its error code, if any, to the caller. *)
Definition attempt {S A} (m : M S A) : M S (Z + A) :=
  fun c =>
    match m c with
    | Ok a c' => Ok (inr a) c'
    | Fail code c' => Ok (inl code) c'
    | Sleep c' => Sleep c'
    | Fault c' => Fault c'
    end.

Notation "'let*' x ':=' m 'in' k" := (bind m (fun x => k))
  (at level 10, x name, m at level 100, k at level 200).

Section WithStorage.
Context {S : Type} `{Storage S}.
(** The running thread. *)
Variable tp : Z.

(** [cache_get_block] as the callers use it: [if (ret < 0) return ret;]
    and then the block pointer. *)
Definition get_block (pos : Z) : M S Z :=
  fun c =>
    match cache_get_block tp c pos with
    | GetRet code pptr c' =>
        if decide (code < 0) then Fail code c'
        else match pptr with
             | Some p => Ok p c'
             | None => Fault c'
             end
    | GetWait _ c' => Sleep c'
    end.

Definition release_block (p : Z) (dirty_arg : Z) : M S unit :=
  fun c => Ok tt (cache_release_block c p dirty_arg).

(** The bytes behind a block pointer, and a write through it. *)
Definition load (p : Z) : M S (list Z) :=
  fun c => match block_at c p with
           | Some b => Ok b c
           | None => Fault c
           end.

Definition poke (p : Z) (off : Z) (bytes : list Z) : M S unit :=
  fun c => match block_at c p with
           | Some b => Ok tt (store_at c p (splice b off bytes))
           | None => Fault c
           end.

Definition ktfs_read_super : M S ktfs_superblock :=
  let* blk := get_block 0 in
  let* b := load blk in
  let* _ := release_block blk 0 in
  ret (decode_super b).

(** The byte offset on the device of the inode-table block that holds
    inode [inode_num] ([blk_byte_off] in [ktfs_inode_grab] and
    [ktfs_write_to_ino]). *)
Definition inode_block_pos (super : ktfs_superblock) (inode_num : Z) : Z :=
  let itbl_start := inode_table_start super in
  let ino_off := u64 (inode_num * KTFS_INOSZ) in
  let blk_idx := ino_off / KTFS_BLKSZ in
  u64 (itbl_start * KTFS_BLKSZ + blk_idx * KTFS_BLKSZ).

Definition ktfs_inode_grab (inode_num : Z) (super : ktfs_superblock)
    : M S ktfs_inode :=
  let ino_off := u64 (inode_num * KTFS_INOSZ) in
  let blk_byte_off := inode_block_pos super inode_num in
  let within := ino_off mod KTFS_BLKSZ in
  let* p := get_block blk_byte_off in
  let* b := load p in
  let* _ := release_block p 0 in
  ret (decode_inode b within).

(** One table lookup of [ktfs_map_block]: entry [i] of the table in data
    block [idx]. *)
Definition table_entry (sb : ktfs_superblock) (idx i : Z) : M S Z :=
  let* p := get_block (u64 (u32 (data_start sb + idx) * KTFS_BLKSZ)) in
  let* b := load p in
  let* _ := release_block p 0 in
  ret (le32 b (4 * i)).

(** The loop of [ktfs_map_block] over the double-indirect tables. *)
Fixpoint map_dindirect (sb : ktfs_superblock) (dind : list Z) (lbn : Z)
    : M S Z :=
  match dind with
  | [] => fail (- ENOENT)
  | d :: dind' =>
      let indirect_index := KTFS_BLKSZ / 4 in
      let width := u32 (indirect_index * indirect_index) in
      if decide (lbn < width) then
        let index1 := lbn / indirect_index in
        let index2 := lbn mod indirect_index in
        let* indirect_idx := table_entry sb d index1 in
        let* idx := table_entry sb indirect_idx index2 in
        ret (u32 (data_start sb + idx))
      else map_dindirect sb dind' (u32 (lbn - width))
  end.

Definition ktfs_map_block (sb : ktfs_superblock) (ino : ktfs_inode)
    (lbn : Z) : M S Z :=
  let indirect_index := KTFS_BLKSZ / 4 in
  if decide (lbn < KTFS_NUM_DIRECT_DATA_BLOCKS) then
    let idx := idx32 (block ino) lbn in
    ret (u32 (data_start sb + idx))
  else
    let lbn := u32 (lbn - KTFS_NUM_DIRECT_DATA_BLOCKS) in
    if decide (lbn < indirect_index) then
      let* idx := table_entry sb (indirect ino) lbn in
      ret (u32 (data_start sb + idx))
    else
      map_dindirect sb (take 2 (dindirect ino)) (u32 (lbn - indirect_index)).


Definition ktfs_dir_get_entry (sb : ktfs_superblock) (dir_ino : ktfs_inode)
    (idx : Z) : M S ktfs_dir_entry :=
  let entry_size := KTFS_DENSZ in
  if decide (size dir_ino mod entry_size ≠ 0) then fail (- EIO)
  else
    let nents := size dir_ino / entry_size in
    if decide (nents <= idx) then fail (- ENOENT)
    else
      let index_byte_offset := to_int (u32 (entry_size * idx)) in
      let lbn := u32 (Z.quot index_byte_offset KTFS_BLKSZ) in
      let off_in_block := u32 (Z.rem index_byte_offset KTFS_BLKSZ) in
      let* absblk := ktfs_map_block sb dir_ino lbn in
      let* blk := get_block (u64 (absblk * KTFS_BLKSZ)) in
      let* b := load blk in
      (* [*out = *entry]: a negative byte offset puts the entry outside
         the block *)
      if decide (KTFS_BLKSZ < off_in_block + entry_size) then fault
      else
        let out := decode_dirent b off_in_block in
        let* _ := release_block blk 0 in
        ret (Dirent (inode out) (splice (name out) KTFS_MAX_FILENAME_LEN [0])).

(** The copy loop of [ktfs_fetch]; [acc] is what has been copied into
    the caller's buffer.  Every round copies at least one byte, so
    [read_size] rounds are enough. *)
Fixpoint fetch_loop (fuel : nat) (sb : ktfs_superblock) (ino : ktfs_inode)
    (pos read_size : Z) (acc : list Z) : M S (Z * list Z) :=
  let copied := Z.of_nat (length acc) in
  if decide (read_size <= copied) then ret (0, acc)
  else
    match fuel with
    | O => fault
    | Datatypes.S fuel' =>
        let lbn := (copied + pos) / KTFS_BLKSZ in
        let within_block_off := (copied + pos) mod KTFS_BLKSZ in
        let width := Z.min (read_size - copied) (KTFS_BLKSZ - within_block_off) in
        let* r := attempt (ktfs_map_block sb ino (u32 lbn)) in
        match r with
        | inl code =>
            if decide (code = - ENOENT) then
              fetch_loop fuel' sb ino pos read_size
                (acc ++ replicate (Z.to_nat width) 0)
            else ret (code, acc)
        | inr absblk =>
            let* g := attempt (get_block (u64 (absblk * KTFS_BLKSZ))) in
            match g with
            | inl code => ret (code, acc)
            | inr blk =>
                let* b := load blk in
                let* _ := release_block blk 0 in
                fetch_loop fuel' sb ino pos read_size
                  (acc ++ slice b within_block_off width)
            end
        end
    end.

(** [ktfs_fetch(uio, buf, len)]: the value returned, the handle
    afterwards and the bytes put into [buf]. *)
Definition ktfs_fetch (kuio : ktfs_uio) (buf_null : bool) (len : Z)
    : M S (Z * ktfs_uio * list Z) :=
  if decide (len = 0) then ret (0, kuio, [])
  else if buf_null then ret (- EINVAL, kuio, [])
  else
    let pos := file_position kuio in
    let* s := attempt ktfs_read_super in
    match s with
    | inl code => ret (code, kuio, [])
    | inr superb =>
        let* i := attempt (ktfs_inode_grab (inode_number kuio) superb) in
        match i with
        | inl code => ret (code, kuio, [])
        | inr ino =>
            let fsize := size ino in
            let kuio1 := Uio fsize (file_position kuio) (file_offset kuio)
                             (inode_number kuio) in
            if decide (fsize <= pos) then ret (0, kuio1, [])
            else
              let read_size := Z.min len (fsize - pos) in
              let* r :=
                fetch_loop (Z.to_nat read_size) superb ino pos read_size [] in
              let code := fst r in
              let acc := snd r in
              if decide (code < 0) then ret (code, kuio1, acc)
              else
                let copied := Z.of_nat (length acc) in
                ret (copied,
                     Uio fsize (u64 (file_position kuio + copied))
                         (file_offset kuio) (inode_number kuio),
                     acc)
        end
    end.


(** *** Bitmaps *)

(** [ktfs_bitmap_indices_fetch]: first block, block count and number of
    bits of the inode bitmap (kind 0) or of the data bitmap. *)
Definition ktfs_bitmap_indices_fetch (sb : ktfs_superblock) (kind : Z)
    : Z * Z * Z :=
  if decide (kind = 0) then
    (inode_bitmap_start sb, inode_bitmap_block_count sb,
     u32 (inode_block_count sb * (KTFS_BLKSZ / KTFS_INOSZ)))
  else
    (block_bitmap_start sb, bitmap_block_count sb, block_count sb).

Inductive scan :=
| Found (i : Z)      (* a free bit *)
| NoEnt              (* the scan ends with -ENOENT *)
| Next.              (* go on with the next byte or block *)

(** The loop over the bits of one bitmap byte. *)
Fixpoint scan_bits (bits : list Z) (window_mask cur byte_base_bit
    first_allowed total_bits : Z) : scan :=
  match bits with
  | [] => Next
  | bitp :: bits' =>
      let bit_sel := u8 (Z.shiftl 1 bitp) in
      if decide (Z.land window_mask bit_sel = 0) then
        scan_bits bits' window_mask cur byte_base_bit first_allowed total_bits
      else if decide (Z.land cur bit_sel ≠ 0) then
        scan_bits bits' window_mask cur byte_base_bit first_allowed total_bits
      else
        let found := u32 (byte_base_bit + bitp) in
        if decide (found < first_allowed) then
          scan_bits bits' window_mask cur byte_base_bit first_allowed total_bits
        else if decide (total_bits <= found) then NoEnt
        else Found found
  end.

(** The loop over the bytes [by], [by + 1], ... of one bitmap block;
    [first] says whether [by] is the byte the whole scan starts in. *)
Fixpoint scan_bytes (n : nat) (by_ : Z) (first : bool) (bytes : list Z)
    (base_bit bit_in_byte0 first_allowed total_bits : Z) : scan :=
  match n with
  | O => Next
  | Datatypes.S n' =>
      let byte_base_bit := u32 (base_bit + by_ * 8) in
      if decide (total_bits <= byte_base_bit) then NoEnt
      else
        let window_mask0 :=
          if first
          then u8 (Z.land 0xFF (Z.lnot (u32 (Z.shiftl 1 bit_in_byte0) - 1)))
          else 0xFF in
        let remaining_bits := u32 (total_bits - byte_base_bit) in
        let window_mask :=
          if decide (remaining_bits < 8)
          then Z.land window_mask0 (u8 (u32 (Z.shiftl 1 remaining_bits) - 1))
          else window_mask0 in
        let rest :=
          scan_bytes n' (by_ + 1) false bytes base_bit bit_in_byte0
            first_allowed total_bits in
        if decide (window_mask = 0) then rest
        else
          match scan_bits [0; 1; 2; 3; 4; 5; 6; 7] window_mask
                  (byte_at bytes by_) byte_base_bit first_allowed total_bits with
          | Next => rest
          | r => r
          end
  end.

(** The loop over the bitmap blocks [b], [b + 1], ... *)
Fixpoint scan_blocks (n : nat) (b blk0 byte0 bit_in_byte0 bitmap_start_index
    first_allowed total_bits : Z) : M S Z :=
  match n with
  | O => fail (- ENOENT)
  | Datatypes.S n' =>
      let* raw := get_block (u64 (u32 (bitmap_start_index + b) * KTFS_BLKSZ)) in
      let* bytes := load raw in
      let max_bits_per_bitmap := KTFS_BLKSZ * 8 in
      let base_bit := u32 (b * max_bits_per_bitmap) in
      let first_byte := if decide (b = blk0) then byte0 else 0 in
      let* _ := release_block raw 0 in
      match scan_bytes (Z.to_nat (KTFS_BLKSZ - first_byte)) first_byte
              (bool_decide (b = blk0)) bytes base_bit bit_in_byte0
              first_allowed total_bits with
      | Found i => ret i
      | NoEnt => fail (- ENOENT)
      | Next =>
          scan_blocks n' (b + 1) blk0 byte0 bit_in_byte0 bitmap_start_index
            first_allowed total_bits
      end
  end.

Definition ktfs_bitmap_free_bit_detect (sb : ktfs_superblock) (kind : Z)
    : M S Z :=
  let '(bitmap_start_index, bitmap_blocks, total_bits) :=
    ktfs_bitmap_indices_fetch sb kind in
  let data0 := data_start sb in
  let first_allowed := if decide (kind ≠ 0) then data0 else 0 in
  if decide (kind ≠ 0 /\ total_bits <= first_allowed) then fail (- EINVAL)
  else
    let max_bits_per_bitmap := KTFS_BLKSZ * 8 in
    let start_bit := first_allowed in
    let blk0 := start_bit / max_bits_per_bitmap in
    if decide (bitmap_blocks <= blk0) then fail (- ENOENT)
    else
      let bit_in_blk0 := start_bit mod max_bits_per_bitmap in
      let byte0 := bit_in_blk0 / 8 in
      let bit_in_byte0 := bit_in_blk0 mod 8 in
      scan_blocks (Z.to_nat (bitmap_blocks - blk0)) blk0 blk0 byte0
        bit_in_byte0 bitmap_start_index first_allowed total_bits.

Definition ktfs_bitmap_mark (sb : ktfs_superblock) (kind index : Z)
    : M S unit :=
  let '(bitmap_start_index, bitmap_count, max_bits) :=
    ktfs_bitmap_indices_fetch sb kind in
  if decide (max_bits <= index) then fail (- EINVAL)
  else
    let bits_per_bitmap := KTFS_BLKSZ * 8 in
    let blk_idx := index / bits_per_bitmap in
    let bit_off := index mod bits_per_bitmap in
    let byte_off := bit_off / 8 in
    let bit_in_byte := bit_off mod 8 in
    if decide (bitmap_count <= blk_idx \/ KTFS_BLKSZ <= byte_off)
    then fail (- EINVAL)
    else
      let dev_off := u64 (u32 (bitmap_start_index + blk_idx) * KTFS_BLKSZ) in
      let* blk_ptr := get_block dev_off in
      let* b := load blk_ptr in
      let* _ := poke blk_ptr byte_off
                  [Z.lor (byte_at b byte_off) (u8 (Z.shiftl 1 bit_in_byte))] in
      release_block blk_ptr 1.

Definition ktfs_write_to_ino (inode_num : Z) (sb : ktfs_superblock)
    (src : ktfs_inode) : M S unit :=
  let ino_off := u64 (inode_num * KTFS_INOSZ) in
  let within := ino_off mod KTFS_BLKSZ in
  let blk_byte_off := inode_block_pos sb inode_num in
  let* p := get_block blk_byte_off in
  let* _ := poke p within (encode_inode src) in
  release_block p 1.

(** [ktfs_alloc_zero_block]: the result of its [cache_get_block] is not
    looked at, so when that call fails the [memset] goes through the
    NULL pointer. *)
Definition ktfs_alloc_zero_block (sb : ktfs_superblock) : M S Z :=
  let* calc_abs_no := ktfs_bitmap_free_bit_detect sb 1 in
  let* _ := ktfs_bitmap_mark sb 1 calc_abs_no in
  let* g := attempt (get_block (u64 (calc_abs_no * KTFS_BLKSZ))) in
  match g with
  | inl _ => fault
  | inr blk =>
      let* _ := poke blk 0 (replicate 512 0) in
      let* _ := release_block blk 1 in
      ret calc_abs_no
  end.

(** The entry [i] of the table block behind [p]: read it, and when it is
    zero allocate a block, store its relative index through [p] and
    release [p] dirty.  The result is the relative index. *)
Definition entry_or_allocate (sb : ktfs_superblock) (p i : Z) : M S Z :=
  let* tbl := load p in
  let idx := le32 tbl (4 * i) in
  if decide (idx = 0) then
    let* a := attempt (ktfs_alloc_zero_block sb) in
    match a with
    | inl rc => let* _ := release_block p 0 in fail rc
    | inr calc_abs_no =>
        let rel := u32 (calc_abs_no - data_start sb) in
        let* _ := poke p (4 * i) (enc32 rel) in
        let* _ := release_block p 1 in
        ret rel
    end
  else
    let* _ := release_block p 0 in
    ret idx.

(** The loop of [ktfs_map_block_and_or_allocate] over the
    double-indirect tables; [di] is the index of the head of [dind]. *)
Fixpoint alloc_dindirect (sb : ktfs_superblock) (ino : ktfs_inode)
    (dind : list Z) (di : Z) (lbn : Z) : M S (ktfs_inode * Z) :=
  match dind with
  | [] => fail (- ENOENT)
  | d :: dind' =>
      let ents_per := KTFS_BLKSZ / 4 in
      let width := u32 (ents_per * ents_per) in
      if decide (width <= lbn) then
        alloc_dindirect sb ino dind' (di + 1) (u32 (lbn - width))
      else
        (* a failure of this allocation is not seen: its code is kept
           in an unsigned variable and tested for being negative *)
        let* d1 :=
          if decide (d = 0) then
            let* a := attempt (ktfs_alloc_zero_block sb) in
            match a with
            | inl _ => ret (u32 (0 - data_start sb))
            | inr calc_abs_no => ret (u32 (calc_abs_no - data_start sb))
            end
          else ret d in
        let ino1 := Inode (size ino) (block ino) (indirect ino)
                          (<[Z.to_nat di := d1]> (dindirect ino)) in
        let i1 := lbn / ents_per in
        let i2 := lbn mod ents_per in
        let* p1 := get_block (u64 (u32 (data_start sb + d1) * KTFS_BLKSZ)) in
        let* lvl1 := load p1 in
        let* indirect_number :=
          if decide (le32 lvl1 (4 * i1) = 0) then
            let* a := attempt (ktfs_alloc_zero_block sb) in
            match a with
            | inl rc => let* _ := release_block p1 0 in fail rc
            | inr calc_abs_no =>
                let rel := u32 (calc_abs_no - data_start sb) in
                let* _ := poke p1 (4 * i1) (enc32 rel) in
                let* _ := release_block p1 1 in
                ret rel
            end
          else
            let* _ := release_block p1 0 in
            ret (le32 lvl1 (4 * i1)) in
        let* p2 :=
          get_block (u64 (u32 (data_start sb + indirect_number) * KTFS_BLKSZ)) in
        let* data_idx := entry_or_allocate sb p2 i2 in
        ret (ino1, u32 (data_start sb + data_idx))
  end.

Definition ktfs_map_block_and_or_allocate (sb : ktfs_superblock)
    (ino : ktfs_inode) (lbn : Z) (allocE : Z) : M S (ktfs_inode * Z) :=
  if decide (allocE = 0) then
    let* absblk := ktfs_map_block sb ino lbn in ret (ino, absblk)
  else
    let ents_per := KTFS_BLKSZ / 4 in
    if decide (lbn < KTFS_NUM_DIRECT_DATA_BLOCKS) then
      let idx := idx32 (block ino) lbn in
      if decide (idx = 0) then
        let* calc_abs_no := ktfs_alloc_zero_block sb in
        ret (Inode (size ino)
                   (<[Z.to_nat lbn := u32 (calc_abs_no - data_start sb)]> (block ino))
                   (indirect ino) (dindirect ino),
             calc_abs_no)
      else ret (ino, u32 (data_start sb + idx))
    else
      let lbn := u32 (lbn - KTFS_NUM_DIRECT_DATA_BLOCKS) in
      if decide (lbn < ents_per) then
        let* ind :=
          if decide (indirect ino = 0) then
            let* calc_abs_no := ktfs_alloc_zero_block sb in
            ret (u32 (calc_abs_no - data_start sb))
          else ret (indirect ino) in
        let ino1 := Inode (size ino) (block ino) ind (dindirect ino) in
        let* p := get_block (u64 (u32 (data_start sb + ind) * KTFS_BLKSZ)) in
        let* idx := entry_or_allocate sb p lbn in
        ret (ino1, u32 (data_start sb + idx))
      else
        alloc_dindirect sb ino (take 2 (dindirect ino)) 0 (u32 (lbn - ents_per)).

(** [for (x = first; x < last; x++) map_block_and_or_allocate(.., x, .., 1)] *)
Fixpoint allocate_blocks (n : nat) (sb : ktfs_superblock) (ino : ktfs_inode)
    (x : Z) : M S ktfs_inode :=
  match n with
  | O => ret ino
  | Datatypes.S n' =>
      let* r := ktfs_map_block_and_or_allocate sb ino x 1 in
      allocate_blocks n' sb (fst r) (u32 (x + 1))
  end.

(** [ceil(size / BLKSZ)], zero for an empty file. *)
Definition blocks_of (sz : Z) : Z :=
  if decide (sz = 0) then 0 else u64 (sz + KTFS_BLKSZ - 1) / KTFS_BLKSZ.


(** *** Writing *)

(** The copy loop of [ktfs_store]: the inode (allocation may fill in
    indices) and the final offset.  Every round writes at least one
    byte. *)
Fixpoint store_loop (fuel : nat) (sb : ktfs_superblock) (ino : ktfs_inode)
    (pos write_end fOffset : Z) (buf : list Z) : M S (ktfs_inode * Z) :=
  if decide (write_end <= fOffset) then ret (ino, fOffset)
  else
    match fuel with
    | O => fault
    | Datatypes.S fuel' =>
        let lbn := u32 (fOffset / KTFS_BLKSZ) in
        let off_in_block := u32 (fOffset mod KTFS_BLKSZ) in
        let what_remains := write_end - fOffset in
        let chunk := u32 (Z.min what_remains (KTFS_BLKSZ - off_in_block)) in
        let* r := ktfs_map_block_and_or_allocate sb ino lbn 1 in
        let* blk := get_block (u64 (snd r * KTFS_BLKSZ)) in
        let* _ := poke blk off_in_block (slice buf (fOffset - pos) chunk) in
        let* _ := release_block blk 1 in
        store_loop fuel' sb (fst r) pos write_end (fOffset + chunk) buf
    end.

(** Everything in [ktfs_store] after the two reads; a negative code from
    a callee ends it. *)
Definition store_body (kuio : ktfs_uio) (superb : ktfs_superblock)
    (ino : ktfs_inode) (buf : list Z) (len : Z) : M S (Z * ktfs_uio) :=
  let pos := file_position kuio in
  let fsize := size ino in
  if decide (KTFS_MAX_FILE_SIZE <= pos) then ret (- EINVAL, kuio)
  else
    let max_writable := KTFS_MAX_FILE_SIZE - pos in
    let size_of_write := if decide (max_writable < len) then max_writable else len in
    if decide (size_of_write = 0) then ret (0, kuio)
    else
      let write_end := pos + size_of_write in
      let* ino1 :=
        if decide (fsize < write_end) then
          let olderBlks := blocks_of fsize in
          let new_blocks := u64 (write_end + KTFS_BLKSZ - 1) / KTFS_BLKSZ in
          allocate_blocks (Z.to_nat (u32 new_blocks - u32 olderBlks))
            superb ino (u32 olderBlks)
        else ret ino in
      let* r := store_loop (Z.to_nat size_of_write) superb ino1 pos write_end
                  pos buf in
      let ino2 := fst r in
      let new_end := snd r in
      let ino3 :=
        if decide (fsize < new_end)
        then Inode (u32 new_end) (block ino2) (indirect ino2) (dindirect ino2)
        else ino2 in
      let* _ := ktfs_write_to_ino (inode_number kuio) superb ino3 in
      ret (new_end - pos,
           Uio (size ino3) new_end (file_offset kuio) (inode_number kuio)).

(** [ktfs_store(uio, buf, len)]; [buf] is None for NULL.  The locks
    [mount_lock] and [file_lock] are taken on entry and dropped on
    every return. *)
Definition ktfs_store (kuio : ktfs_uio) (buf : option (list Z)) (len : Z)
    : M S (Z * ktfs_uio) :=
  if decide (len = 0) then ret (0, kuio)
  else
    match buf with
    | None => ret (- EINVAL, kuio)
    | Some data =>
        let* r :=
          attempt (let* superb := ktfs_read_super in
                   let* ino := ktfs_inode_grab (inode_number kuio) superb in
                   store_body kuio superb ino data len) in
        match r with
        | inl code => ret (code, kuio)
        | inr v => ret v
        end
    end.

(** *** Control *)

Definition clamp_position (kuio : ktfs_uio) (fsize : Z) : ktfs_uio :=
  Uio fsize
      (if decide (fsize < file_position kuio) then fsize else file_position kuio)
      (file_offset kuio) (inode_number kuio).

(** FCNTL_SETEND after the two reads. *)
Definition setend_body (kuio : ktfs_uio) (superb : ktfs_superblock)
    (ino : ktfs_inode) (newend : Z) : M S (Z * ktfs_uio) :=
  if decide (KTFS_MAX_FILE_SIZE < newend) then ret (- EINVAL, kuio)
  else
    let old_size := size ino in
    if decide (newend < old_size) then ret (- EINVAL, kuio)
    else if decide (newend = old_size) then
      ret (0, clamp_position kuio (size ino))
    else
      let startingBlock := blocks_of old_size in
      let endingBlocks := u64 (newend + KTFS_BLKSZ - 1) / KTFS_BLKSZ in
      let* ino1 :=
        allocate_blocks (Z.to_nat (u32 endingBlocks - u32 startingBlock))
          superb ino (u32 startingBlock) in
      let ino2 := Inode (u32 newend) (block ino1) (indirect ino1) (dindirect ino1) in
      let* _ := ktfs_write_to_ino (inode_number kuio) superb ino2 in
      ret (0, clamp_position kuio (size ino2)).

(** [ktfs_cntl(uio, cmd, arg)]; [arg] is None for NULL and otherwise the
    [unsigned long long] it points to.  The result is the value
    returned, the handle, and the value stored through [arg], if any. *)
Definition ktfs_cntl (kuio : ktfs_uio) (cmd : Z) (arg : option Z)
    : M S (Z * ktfs_uio * option Z) :=
  if decide (cmd = FCNTL_GETEND) then
    match arg with
    | None => ret (- EINVAL, kuio, None)
    | Some _ => ret (0, kuio, Some (file_size kuio))
    end
  else if decide (cmd = FCNTL_SETEND) then
    match arg with
    | None => ret (- EINVAL, kuio, None)
    | Some newend =>
        let* r :=
          attempt (let* superb := ktfs_read_super in
                   let* ino := ktfs_inode_grab (inode_number kuio) superb in
                   setend_body kuio superb ino newend) in
        match r with
        | inl code => ret (code, kuio, None)
        | inr v => ret (fst v, snd v, None)
        end
    end
  else if decide (cmd = FCNTL_GETPOS) then
    match arg with
    | None => ret (- EINVAL, kuio, None)
    | Some _ => ret (0, kuio, Some (file_position kuio))
    end
  else if decide (cmd = FCNTL_SETPOS) then
    match arg with
    | None => ret (- EINVAL, kuio, None)
    | Some newpos =>
        if decide (KTFS_MAX_FILE_SIZE < newpos) then ret (- EINVAL, kuio, None)
        else ret (0, Uio (file_size kuio) newpos (file_offset kuio)
                         (inode_number kuio), None)
    end
  else ret (- ENOTSUP, kuio, None).

(** *** Opening *)

(** The listing branch of [ktfs_open]; [alloc_ok] tells whether
    [kcalloc] finds memory. *)
Definition open_listing (alloc_ok : bool) : M S (Z * option opened) :=
  if negb alloc_ok then ret (- ENOMEM, None)
  else
    let* r :=
      attempt (let* super := ktfs_read_super in
               let* root := ktfs_inode_grab (root_directory_inode super) super in
               ret (super, root)) in
    match r with
    | inl code => ret (code, None)
    | inr (super, root) =>
        let entry_sz := KTFS_DENSZ in
        if decide (size root mod entry_sz ≠ 0) then ret (- EIO, None)
        else ret (0, Some (OpenListing
                             (Listing super root 0 (size root / entry_sz))))
    end.

(** The directory scan of [ktfs_open]: the superblock is read through
    the pointer [superb] at every use. *)
Fixpoint open_scan (n : nat) (superb : Z) (root_inode : ktfs_inode)
    (fname : list Z) (i : Z) : M S (option Z) :=
  match n with
  | O => ret None
  | Datatypes.S n' =>
      let* sbuf := load superb in
      let* r := attempt (ktfs_dir_get_entry (decode_super sbuf) root_inode i) in
      match r with
      | inl rt =>
          if decide (rt = - ENOENT)
          then open_scan n' superb root_inode fname (i + 1)
          else let* _ := release_block superb 0 in fail rt
      | inr entry =>
          if strncmp_eq (splice (name entry) KTFS_MAX_FILENAME_LEN [0]) fname
               KTFS_MAX_FILENAME_LEN
          then ret (Some (inode entry))
          else open_scan n' superb root_inode fname (i + 1)
      end
  end.

Definition open_file (alloc_ok : bool) (fname : list Z)
    : M S (Z * option opened) :=
  let* r :=
    attempt
      (let* superb := get_block 0 in
       let* sbuf := load superb in
       let super := decode_super sbuf in
       let* g := attempt (ktfs_inode_grab (root_directory_inode super) super) in
       match g with
       | inl code => let* _ := release_block superb 0 in fail code
       | inr root_inode =>
           let total_entries := to_int (size root_inode / KTFS_DENSZ) in
           let* found :=
             open_scan (Z.to_nat total_entries) superb root_inode fname 0 in
           match found with
           | None => let* _ := release_block superb 0 in fail (- ENOENT)
           | Some file_inode =>
               let* sbuf2 := load superb in
               let* t := attempt (ktfs_inode_grab file_inode (decode_super sbuf2)) in
               let* _ := release_block superb 0 in
               match t with
               | inl code => fail code
               | inr target_inode =>
                   if negb alloc_ok then fail (- ENOMEM)
                   else ret (Uio (size target_inode) 0 0 file_inode)
               end
           end
       end) in
  match r with
  | inl code => ret (code, None)
  | inr ku => ret (0, Some (OpenFile ku))
  end.

(** The test [ktfs_open] makes to tell a listing from a file: the name
    is empty, or a slash followed by nothing. *)
Definition is_listing_name (n : list Z) : bool :=
  match n with
  | [] => true
  | ch :: n' => bool_decide (ch = 47) && bool_decide (n' = [])
  end.

(** After a leading slash is skipped. *)
Definition skip_slash (n : list Z) : list Z :=
  match n with
  | ch :: n' => if decide (ch = 47) then n' else n
  | [] => n
  end.

(** [ktfs_open(fs, name, uioptr)]; [name] is None for NULL, and
    otherwise the C string made of the characters of the name. *)
Definition ktfs_open (fname : option string) (alloc_ok : bool)
    : M S (Z * option opened) :=
  match fname with
  | None => ret (- EINVAL, None)
  | Some s =>
      let n := cstr (bytes_of_string s) in
      if decide (n = []) then ret (- EINVAL, None)       (* !*name *)
      else if is_listing_name n then open_listing alloc_ok
      else open_file alloc_ok (skip_slash n)
  end.

End WithStorage.

End Ktfs.

(** ** sys/ktfs.c : more of the file system *)

Module KtfsMore.
Import Cache Ktfs.

(** An inode as [struct ktfs_inode] can hold it: 32-bit fields, four
    direct and two double-indirect indices. *)
Definition is_u32 (x : Z) : Prop := 0 <= x < 2 ^ 32.

Definition inode_wf (ino : ktfs_inode) : Prop :=
  is_u32 (size ino) /\ is_u32 (indirect ino) /\
  length (block ino) = 4%nat /\ Forall is_u32 (block ino) /\
  length (dindirect ino) = 2%nat /\ Forall is_u32 (dindirect ino).

(** A buffer of bytes. *)
Definition bytes_ok (b : list Z) : Prop := Forall (fun x => 0 <= x < 2 ^ 8) b.

(** The byte of a bitmap block and the mask in it that stand for bit
    [i]: what [ktfs_bitmap_mark] ors together. *)
Definition bit_byte (i : Z) : Z := (i mod (KTFS_BLKSZ * 8)) / 8.
Definition bit_mask (i : Z) : Z := u8 (Z.shiftl 1 ((i mod (KTFS_BLKSZ * 8)) mod 8)).

(** The block of the bitmap of kind [kind] that holds bit [i]. *)
Definition bit_block (sb : ktfs_superblock) (kind i : Z) : Z :=
  u32 (fst (fst (ktfs_bitmap_indices_fetch sb kind)) + i / (KTFS_BLKSZ * 8)).

(** Bit [i] is clear in the block [blk]. *)
Definition bit_clear (blk : list Z) (i : Z) : Prop :=
  Z.land (byte_at blk (bit_byte i)) (bit_mask i) = 0.

(** The bytes a call of [ktfs_fetch] put into the buffer. *)
Definition fetched {S} (r : res S (Z * ktfs_uio * list Z)) : list Z :=
  match r with
  | Ok (_, _, out) _ => out
  | _ => []
  end.

Section WithStorage.
Context {S : Type} `{Storage S}.
(** The running thread. *)
Variable tp : Z.

(** [ktfs_bitmap_unmark]: the three bounds are tested together, and the
    value returned on success is the code of [cache_get_block]. *)
Definition ktfs_bitmap_unmark (sb : ktfs_superblock) (kind index : Z)
    : M S unit :=
  let '(start_block, numberBlocks, max_bits) :=
    ktfs_bitmap_indices_fetch sb kind in
  let bits_per_bitmap := KTFS_BLKSZ * 8 in
  let blk_idx := index / bits_per_bitmap in
  let within_b := index mod bits_per_bitmap in
  let byte_off := within_b / 8 in
  let bit := within_b mod 8 in
  if decide (max_bits <= index \/ numberBlocks <= blk_idx \/
             KTFS_BLKSZ <= byte_off)
  then fail (- EINVAL)
  else
    let off := u64 (u32 (start_block + blk_idx) * KTFS_BLKSZ) in
    let* p := get_block tp off in
    let* b := load p in
    let mask := u8 (Z.shiftl 1 bit) in
    let* _ := poke p byte_off
                [Z.land (byte_at b byte_off) (u8 (Z.lnot mask))] in
    release_block p 1.

End WithStorage.

End KtfsMore.

(** ** A small file system image, for examples

    16 blocks: the superblock, one inode-bitmap block, one data-bitmap
    block, one inode-table block, and data blocks from block 4 on.  Inode 0
    is the root directory, whose one entry names inode 1 "hello"; the
    directory lives in data block 0 (absolute block 4).  The file "hello"
    has 1024 bytes: its first block is data block 1 (absolute block 5, all
    'A'), and the stored index of its second block is zero. *)

Module Image.
Import Cache Ktfs.

Definition pad (l : list Z) : list Z := take 512 (l ++ replicate 512 0).

Definition superblock : list Z :=
  pad (enc32 16 ++ enc32 1 ++ enc32 1 ++ enc32 1 ++ enc16 0).

Definition inode_bitmap : list Z := pad [3].
Definition data_bitmap : list Z := pad [63].

Definition root_inode : ktfs_inode := Inode 16 [0; 0; 0; 0] 0 [0; 0].
Definition hello_inode : ktfs_inode := Inode 1024 [1; 0; 0; 0] 0 [0; 0].

Definition inode_table : list Z :=
  pad (encode_inode root_inode ++ encode_inode hello_inode).

Definition root_dir : list Z :=
  pad (enc16 1 ++ bytes_of_string "hello").

Definition hello_data : list Z := replicate 512 65.

Definition image : Disk.disk :=
  Disk.Disk ([superblock; inode_bitmap; data_bitmap; inode_table;
              root_dir; hello_data] ++ replicate 10 (replicate 512 0)).

(** The superblock of the image, decoded. *)
Definition image_super : ktfs_superblock := Super 16 1 1 1 0.

(** The cache of the mount, as [create_cache] leaves it. *)
Definition mounted : cache Disk.disk := create_cache image Disk.buffers.

(** The handle [ktfs_open] gives for "hello". *)
Definition hello : ktfs_uio := Uio 1024 0 0 1.

Definition at_position (pos : Z) (ku : ktfs_uio) : ktfs_uio :=
  Uio (file_size ku) pos (file_offset ku) (inode_number ku).

(** Projections of a result, for stating what a run gave. *)
Definition value {S A} (r : res S A) : option A :=
  match r with Ok a _ => Some a | _ => None end.

Definition final {S A} (r : res S A) : cache S :=
  match r with Ok _ c | Fail _ c | Sleep c | Fault c => c end.

End Image.

(** ** sys/filesys.c : mount points and paths *)

Module Filesys.

Definition EEXIST : Z := 15.

(** A name is the C string it points to: the bytes before the
    terminator, none of them zero.  [strcmp(a, b) == 0] is equality of
    such strings. *)
Definition cname := list Z.

(** [struct mountpoint]; the filesystem is named by its address. *)
Record mountpoint := Mountpoint { mp_name : cname; mp_fs : Z }.

(** [attach_filesystem(mpname, fs)] on the list [mplist]: the walk along
    the [next] pointers, and the new mount point linked in behind the
    last one.  ([kmalloc] is taken to find memory; its result is not
    tested.) *)
Fixpoint attach_filesystem (mpname : cname) (fs : Z) (mplist : list mountpoint)
    : Z * list mountpoint :=
  match mplist with
  | [] => (0, [Mountpoint mpname fs])
  | mp :: rest =>
      if decide (mp_name mp = mpname) then (- EEXIST, mplist)
      else
        let '(code, rest') := attach_filesystem mpname fs rest in
        (code, mp :: rest')
  end.

(** [getfs(mpname)]: None for NULL. *)
Fixpoint getfs (mpname : cname) (mplist : list mountpoint) : option Z :=
  match mplist with
  | [] => None
  | mp :: rest =>
      if decide (mp_name mp = mpname) then Some (mp_fs mp)
      else getfs mpname rest
  end.

(** *** parse_path *)

Definition SLASH : Z := 47.

(** [while ( *path == '/') path++;] *)
Fixpoint skip_slashes (path : cname) : cname :=
  match path with
  | ch :: rest => if decide (ch = SLASH) then skip_slashes rest else path
  | [] => []
  end.

(** [strchr(path, '/')]: the string before the first slash and the one
    behind it, None when there is no slash. *)
Fixpoint split_slash (path : cname) : option (cname * cname) :=
  match path with
  | [] => None
  | ch :: rest =>
      if decide (ch = SLASH) then Some ([], rest)
      else match split_slash rest with
           | Some (mp, fl) => Some (ch :: mp, fl)
           | None => None
           end
  end.

Inductive parsed :=
| PathErr (code : Z)
| PathOk (mp fl : cname).

(** [parse_path(path, mpnameptr, flnameptr)] with non-NULL result
    pointers; [path] is None for NULL. *)
Definition parse_path (path : option cname) : parsed :=
  match path with
  | None => PathErr (- EINVAL)
  | Some p =>
      let p1 := skip_slashes p in
      if decide (p1 = []) then PathErr (- EINVAL)
      else match split_slash p1 with
           | None => PathErr (- EINVAL)
           | Some (mp, fl) =>
               if decide (mp = [] \/ fl = []) then PathErr (- EINVAL)
               else PathOk mp fl
           end
  end.

End Filesys.

(** ** sys/uio.c : pipes *)

Module Pipe.
Import Ktfs.

Definition EPIPE : Z := 14.

(** uio.c includes heap.h, which includes memory.h before its own
    fallback of 4000: the value in force is that of memory.h. *)
Definition HEAP_ALLOC_MAX : Z := Memory.PAGE_SIZE - 64.

(** [struct pipe_chan] without the two uio ends and the two conditions,
    which belong to the scheduler; [storage] is the buffer behind the
    pointer of that name. *)
Record pipe_chan := Chan {
  storage : list Z;
  capacity : Z;
  read_pos : Z;
  write_pos : Z;
  used_bytes : Z;
  reader_alive : Z;
  writer_alive : Z
}.

(** What a call comes to: it returns, or it sleeps in [condition_wait]
    (the loop goes on when the thread is woken), or it faults (a copy
    outside the storage, a division by zero); [Spin] stands for a loop
    that has used up its rounds. *)
Inductive outcome (A : Type) :=
| Ret (v : Z) (a : A) (ch : pipe_chan)
| Waiting (v : Z) (a : A) (ch : pipe_chan)
| Fault
| Spin.
Arguments Ret {A}.
Arguments Waiting {A}.
Arguments Fault {A}.
Arguments Spin {A}.

Definition to_long (x : Z) : Z :=
  if decide (x mod 2 ^ 64 < 2 ^ 63) then x mod 2 ^ 64 else x mod 2 ^ 64 - 2 ^ 64.

(** [chunk = remaining; if (chunk > a) chunk = a; if (chunk > b) chunk = b;] *)
Definition clip (remaining a b : Z) : Z :=
  let chunk := remaining in
  let chunk := if decide (a < chunk) then a else chunk in
  if decide (b < chunk) then b else chunk.

(** [create_pipe]: [buf] is what [kmalloc(cap)] returns (None for NULL,
    otherwise [cap] bytes of any content) and [chan_ok] tells whether
    [kcalloc] finds memory.  None: both result pointers stay NULL. *)
Definition create_pipe (buf : option (list Z)) (chan_ok : bool)
    : option pipe_chan :=
  let cap := Memory.PAGE_SIZE in
  let cap := if decide (HEAP_ALLOC_MAX < cap) then HEAP_ALLOC_MAX else cap in
  match buf with
  | None => None
  | Some b => if chan_ok then Some (Chan b cap 0 0 0 1 1) else None
  end.

(** The loop of [pipe_read_endpoint]; [copied] bytes are in the caller's
    buffer, [out]. *)
Fixpoint read_loop (fuel : nat) (ch : pipe_chan) (bufsz copied : Z)
    (out : list Z) : outcome (list Z) :=
  match fuel with
  | O => Spin
  | S fuel' =>
      if decide (used_bytes ch = 0) then
        if decide (writer_alive ch = 0) then Ret (to_long copied) out ch
        else Waiting copied out ch
      else
        let remaining := u64 (bufsz - copied) in
        let available := used_bytes ch in
        let until_end := u64 (capacity ch - read_pos ch) in
        let chunk := clip remaining available until_end in
        if decide (0 < chunk /\ Z.of_nat (length (storage ch)) < read_pos ch + chunk)
        then Fault
        else if decide (capacity ch = 0) then Fault
        else
          let out' := out ++ slice (storage ch) (read_pos ch) chunk in
          let ch' := Chan (storage ch) (capacity ch)
                       (u64 (read_pos ch + chunk) mod capacity ch)
                       (write_pos ch) (u64 (used_bytes ch - chunk))
                       (reader_alive ch) (writer_alive ch) in
          let copied' := u64 (copied + chunk) in
          if decide (copied' ≠ 0 \/ copied' = bufsz)
          then Ret (to_long copied') out' ch'
          else read_loop fuel' ch' bufsz copied' out'
  end.

(** [pipe_read_endpoint(uio, buf, bufsz)].  A round that copies nothing
    leaves [read_pos] at 0, and the next one copies: two rounds decide
    the call. *)
Definition pipe_read_endpoint (ch : pipe_chan) (bufsz : Z)
    : outcome (list Z) :=
  if decide (bufsz = 0) then Ret 0 [] ch
  else read_loop 2 ch bufsz 0 [].

(** The loop of [pipe_write_endpoint]; [buf] holds the [buflen] bytes of
    the caller. *)
Fixpoint write_loop (fuel : nat) (ch : pipe_chan) (buf : list Z)
    (buflen transferred : Z) : outcome unit :=
  match fuel with
  | O => Spin
  | S fuel' =>
      if decide (transferred < buflen) then
        if decide (reader_alive ch = 0) then
          Ret (if decide (0 < transferred) then to_long transferred else - EPIPE)
              tt ch
        else if decide (used_bytes ch = capacity ch) then
          Waiting transferred tt ch
        else
          let remaining := u64 (buflen - transferred) in
          let free_bytes := u64 (capacity ch - used_bytes ch) in
          let until_end := u64 (capacity ch - write_pos ch) in
          let chunk := clip remaining free_bytes until_end in
          if decide (0 < chunk /\
                     Z.of_nat (length (storage ch)) < write_pos ch + chunk)
          then Fault
          else if decide (capacity ch = 0) then Fault
          else
            let ch' := Chan (splice (storage ch) (write_pos ch)
                               (slice buf transferred chunk))
                         (capacity ch) (read_pos ch)
                         (u64 (write_pos ch + chunk) mod capacity ch)
                         (u64 (used_bytes ch + chunk))
                         (reader_alive ch) (writer_alive ch) in
            write_loop fuel' ch' buf buflen (u64 (transferred + chunk))
      else Ret (to_long transferred) tt ch
  end.

(** [pipe_write_endpoint(uio, buf, buflen)].  At most one round copies
    nothing (it leaves [write_pos] at 0), every other one copies at
    least a byte. *)
Definition pipe_write_endpoint (ch : pipe_chan) (buf : list Z) (buflen : Z)
    : outcome unit :=
  if decide (buflen = 0) then Ret 0 tt ch
  else write_loop (S (S (Z.to_nat buflen))) ch buf buflen 0.

(** [pipe_close_writer] and [pipe_close_reader]: the channel and whether
    it is freed. *)
Definition pipe_close_writer (ch : pipe_chan) : pipe_chan * bool :=
  (Chan (storage ch) (capacity ch) (read_pos ch) (write_pos ch) (used_bytes ch)
     (reader_alive ch) 0,
   bool_decide (reader_alive ch = 0)).

Definition pipe_close_reader (ch : pipe_chan) : pipe_chan * bool :=
  (Chan (storage ch) (capacity ch) (read_pos ch) (write_pos ch) (used_bytes ch)
     0 (writer_alive ch),
   bool_decide (writer_alive ch = 0)).

(** *** The pipe as a queue of bytes *)

(** The bytes in the pipe, oldest first. *)
Definition contents (ch : pipe_chan) : list Z :=
  (fun i => byte_at (storage ch) ((read_pos ch + i) mod capacity ch))
    <$> seqZ 0 (used_bytes ch).

(** The shape [create_pipe] sets up and the two ends keep. *)
Definition pipe_wf (ch : pipe_chan) : Prop :=
  0 < capacity ch < 2 ^ 63 /\
  Z.of_nat (length (storage ch)) = capacity ch /\
  0 <= read_pos ch < capacity ch /\
  0 <= used_bytes ch <= capacity ch /\
  write_pos ch = (read_pos ch + used_bytes ch) mod capacity ch.

End Pipe.

(** * Part II: theorems *)

(** ** sys/excp.c *)

Section ExcpFacts.
Import Excp.

Lemma page_fault_hook_never_handles tfr vma :
  handle_umode_page_fault tfr vma = 0.
Proof. reflexivity. Qed.

Lemma is_page_fault_cases cause :
  is_page_fault cause = true <->
  cause = RISCV_SCAUSE_INSTR_PAGE_FAULT \/
  cause = RISCV_SCAUSE_LOAD_PAGE_FAULT \/
  cause = RISCV_SCAUSE_STORE_PAGE_FAULT.
Proof.
  unfold is_page_fault.
  rewrite !orb_true_iff, !bool_decide_eq_true. tauto.
Qed.

Lemma page_fault_is_not_ecall cause :
  is_page_fault cause = true -> cause <> RISCV_SCAUSE_ECALL_FROM_UMODE.
Proof.
  rewrite is_page_fault_cases.
  unfold RISCV_SCAUSE_INSTR_PAGE_FAULT, RISCV_SCAUSE_LOAD_PAGE_FAULT,
    RISCV_SCAUSE_STORE_PAGE_FAULT, RISCV_SCAUSE_ECALL_FROM_UMODE. lia.
Qed.

(** The handler tests the hook's result the wrong way round: a hook that
    reports "handled" (non-zero) sends a page fault to the log-and-exit
    tail, a hook that reports "not handled" (zero) makes it return. *)
Lemma handler_exits_when_hook_handles hook cause tfr stval :
  is_page_fault cause = true ->
  hook tfr stval <> 0 ->
  terminates_process (handle_umode_exception_with hook cause tfr stval).
Proof.
  intros Hpf Hh. unfold handle_umode_exception_with.
  destruct (decide _) as [He|_]; [by apply page_fault_is_not_ecall in Hpf|].
  rewrite Hpf, bool_decide_eq_false_2 by done. simpl. exact I.
Qed.

Lemma handler_resumes_when_hook_declines hook cause tfr stval :
  is_page_fault cause = true ->
  hook tfr stval = 0 ->
  handle_umode_exception_with hook cause tfr stval = Resumed.
Proof.
  intros Hpf Hh. unfold handle_umode_exception_with.
  destruct (decide _) as [He|_]; [by apply page_fault_is_not_ecall in Hpf|].
  by rewrite Hpf, bool_decide_eq_true_2.
Qed.

(** C1 (what the code does): for a U-mode trap whose cause is an
    instruction, load or store page fault, the hook
    [handle_umode_page_fault] returns 0 and [handle_umode_exception] then
    returns to the trap exit path ([Resumed]); it does not reach the
    log-and-[process_exit] tail, so the faulting process is not
    terminated. *)
Theorem umode_page_fault_not_terminated cause tfr stval :
  is_page_fault cause = true ->
  handle_umode_page_fault tfr stval = 0 /\
  handle_umode_exception cause tfr stval = Resumed /\
  ~ terminates_process (handle_umode_exception cause tfr stval).
Proof.
  intros Hpf. split; [reflexivity|].
  assert (handle_umode_exception cause tfr stval = Resumed) as ->.
  { by apply handler_resumes_when_hook_declines. }
  split; [reflexivity | simpl; tauto].
Qed.

Lemma umode_page_fault_not_terminated_witness :
  is_page_fault 13 = true /\
  handle_umode_exception 13 {| sepc := 0x80100000; a0 := 0; a7 := 0 |} 0x10
    = Resumed.
Proof.
  split; [reflexivity|].
  apply (umode_page_fault_not_terminated 13
           {| sepc := 0x80100000; a0 := 0; a7 := 0 |} 0x10).
  reflexivity.
Defined.

(** Every other non-ECALL cause does reach the exit tail. *)
Lemma umode_other_exception_exits cause tfr stval :
  cause <> RISCV_SCAUSE_ECALL_FROM_UMODE ->
  is_page_fault cause = false ->
  terminates_process (handle_umode_exception cause tfr stval).
Proof.
  intros He Hpf. unfold handle_umode_exception, handle_umode_exception_with.
  rewrite decide_False by done. rewrite Hpf. simpl. exact I.
Qed.

End ExcpFacts.

(** ** sys/thread.c *)

Section LockFacts.
Import Thread.

Lemma lock_ok_fresh : lock_ok (Lock None 0 None).
Proof. by split. Qed.

Lemma locks_ok_insert l lk s ll :
  locks_ok s -> lock_ok lk ->
  locks_ok (State (<[l := lk]> (locks s)) ll).
Proof.
  intros Hs Hlk l' lk'. simpl. rewrite lookup_insert.
  case_decide; [|by apply Hs]. by intros [= <-].
Qed.

(** Relinking changes [next] fields and list heads only. *)
Lemma locks_ok_store_link tp h v s :
  locks_ok s -> locks_ok (store_link tp h v s).
Proof.
  intros Hs. destruct h as [|p]; simpl.
  - intros l lk. simpl. apply Hs.
  - destruct (locks s !! p) as [lk|] eqn:Hp; [|by destruct s].
    apply locks_ok_insert; [done|]. apply (Hs p lk Hp).
Qed.

Lemma store_link_owner_cnt tp h v s l lk1 :
  locks (store_link tp h v s) !! l = Some lk1 ->
  exists lk, locks s !! l = Some lk /\ owner lk1 = owner lk /\ cnt lk1 = cnt lk.
Proof.
  destruct h as [|p]; simpl; [by eauto|].
  destruct (locks s !! p) as [lkp|] eqn:Hp; [|by eauto].
  rewrite lookup_insert. case_decide as Heq; [|by eauto].
  subst p. intros [= <-]. eauto.
Qed.

Lemma lock_init_ok l s s' :
  lock_init l s = Done s' -> locks_ok s -> locks_ok s'.
Proof.
  intros [= <-] Hs. apply locks_ok_insert; [done | apply lock_ok_fresh].
Qed.

Lemma lock_acquire_ok tp l s s' :
  lock_acquire tp l s = Done s' -> locks_ok s -> locks_ok s'.
Proof.
  unfold lock_acquire. intros H Hs.
  destruct (locks s !! l) as [lk|] eqn:Hl; [|done].
  destruct (Hs l lk Hl) as [Hiff Hge].
  case_decide as Hown.
  - destruct (owner lk) eqn:Ho; [done|]. injection H as <-.
    apply locks_ok_insert; [done|]. split; simpl; [|lia].
    split; [lia | done].
  - injection H as <-.
    apply locks_ok_insert; [done|]. split; simpl; [|lia].
    rewrite Hown. split; [|done].
    intros Hz. assert (cnt lk <> 0) by (rewrite Hiff, Hown; done). lia.
Qed.

Lemma lock_release_completely_ok tp l s s' :
  lock_release_completely tp l s = Done s' ->
  (forall l' lk, l' <> l -> locks s !! l' = Some lk -> lock_ok lk) ->
  (forall lk, locks s !! l = Some lk -> cnt lk = 0) ->
  locks_ok s'.
Proof.
  unfold lock_release_completely. intros H Hothers Hl.
  destruct (find_link _ _ _ _ _) as [h| |]; [|done|done].
  destruct (locks s !! l) as [lk|] eqn:Hlk; [|done].
  specialize (Hl lk eq_refl).
  destruct (locks (store_link tp h (next lk) s) !! l) as [lk1|] eqn:Hlk1; [|done].
  injection H as <-. intros l' lk'. simpl. rewrite lookup_insert.
  case_decide as Heq.
  - intros [= <-]. apply store_link_owner_cnt in Hlk1 as (lk0 & H0 & _ & Hc).
    assert (lk0 = lk) as -> by congruence.
    split; simpl; rewrite Hc, Hl; done.
  - intros Hl'. apply store_link_owner_cnt in Hl' as (lk0 & H0 & Ho & Hc).
    assert (l' <> l) as Hne by done.
    destruct (Hothers _ _ Hne H0) as [Hiff Hge].
    split; rewrite ?Ho, ?Hc; done.
Qed.

Lemma lock_release_ok tp l s s' :
  lock_release tp l s = Done s' -> locks_ok s -> locks_ok s'.
Proof.
  unfold lock_release. intros H Hs.
  destruct (locks s !! l) as [lk|] eqn:Hl; [|done].
  destruct (Hs l lk Hl) as [Hiff Hge].
  case_decide as Hown; [done|].
  case_decide as Hz; [done|].
  case_decide as Hlast.
  - apply lock_release_completely_ok in H; [done| |]; simpl.
    + intros l' lk' Hne. rewrite lookup_insert_ne by done. apply Hs.
    + intros lk'. rewrite lookup_insert_eq. by intros [= <-].
  - injection H as <-. apply locks_ok_insert; [done|].
    split; simpl; [|lia]. rewrite Hown. split; [lia | done].
Qed.

Lemma step_ok o s s' : step o s = Done s' -> locks_ok s -> locks_ok s'.
Proof.
  destruct o; simpl;
    [apply lock_init_ok | apply lock_acquire_ok | apply lock_release_ok].
Qed.

Lemma run_ok ops : forall s s', run ops s = Done s' -> locks_ok s -> locks_ok s'.
Proof.
  induction ops as [|o ops IH]; simpl; intros s s' H Hs.
  - by injection H as <-.
  - destruct (step o s) as [s1| | |] eqn:Hstep; try done.
    eapply IH; [done|]. by eapply step_ok.
Qed.

Lemma init_state_ok : locks_ok init_state.
Proof. intros l lk. simpl. by rewrite lookup_empty. Qed.

(** C9: after [lock_init] and after every completed [lock_acquire] or
    [lock_release] (any sequence of them, by any threads, starting from a
    kernel without locks), every lock has [cnt = 0] exactly when its
    owner is NULL; in particular a lock with [cnt > 0] has an owner. *)
Theorem lock_count_zero_iff_no_owner ops s :
  run ops init_state = Done s ->
  forall l lk, locks s !! l = Some lk ->
    (cnt lk = 0 <-> owner lk = None) /\ (0 < cnt lk -> owner lk <> None).
Proof.
  intros Hrun l lk Hl.
  destruct (run_ok ops _ _ Hrun init_state_ok l lk Hl) as [Hiff Hge].
  split; [done|]. intros Hpos Hnone. apply Hiff in Hnone. lia.
Qed.

Lemma lock_count_zero_iff_no_owner_witness :
  exists s,
    run [Init 64; Init 72; Acquire 1 64; Acquire 1 72; Acquire 1 64;
         Release 1 64; Release 1 72] init_state = Done s /\
    locks s !! 64 = Some (Lock (Some 1) 1 None) /\
    locks s !! 72 = Some (Lock None 0 None) /\
    forall l lk, locks s !! l = Some lk ->
      (cnt lk = 0 <-> owner lk = None) /\ (0 < cnt lk -> owner lk <> None).
Proof.
  eexists. split; [vm_compute; reflexivity|].
  split; [vm_compute; reflexivity|].
  split; [vm_compute; reflexivity|].
  apply (lock_count_zero_iff_no_owner
           [Init 64; Init 72; Acquire 1 64; Acquire 1 72; Acquire 1 64;
            Release 1 64; Release 1 72]).
  vm_compute; reflexivity.
Defined.

(** The operations do not always complete: a second thread blocks, and
    releasing a lock one does not hold trips the assertion. *)
Example acquire_held_lock_blocks :
  run [Init 64; Acquire 1 64; Acquire 2 64] init_state = Blocked.
Proof. vm_compute. reflexivity. Qed.

Example release_by_other_thread_panics :
  run [Init 64; Acquire 1 64; Release 2 64] init_state = Panic.
Proof. vm_compute. reflexivity. Qed.

End LockFacts.

(** ** sys/memory.c : the physical page allocator *)

Section PhysAllocFacts.
Import Memory.

Lemma lookup_snoc_inv (pre : list page_chunk) curr k c :
  (pre ++ [curr]) !! k = Some c ->
  ((k < length pre)%nat /\ pre !! k = Some c) \/ (k = length pre /\ c = curr).
Proof.
  intros H. destruct (decide (k < length pre)%nat) as [Hlt|Hge].
  - left. split; [done|]. by rewrite lookup_app_l in H.
  - right. rewrite lookup_app_r in H by lia.
    destruct (k - length pre)%nat as [|n] eqn:Hk; simpl in H; [|done].
    split; [lia | congruence].
Qed.

Lemma scan_inv_step cnt pre curr best :
  scan_inv cnt pre best ->
  scan_inv cnt (pre ++ [curr])
    (if decide (cnt <= pagecnt curr) then
       match best with
       | None => Some (length pre, curr)
       | Some (_, b) =>
           if decide (pagecnt curr < pagecnt b) then Some (length pre, curr)
           else best
       end
     else best).
Proof.
  intros Hinv. case_decide as Hfit.
  - destruct best as [[j b]|]; simpl in Hinv.
    + destruct Hinv as (Hj & Hb & Hmin). case_decide as Hlt; simpl.
      * split; [by rewrite list_lookup_middle|]. split; [done|].
        intros k c Hk Hc. apply lookup_snoc_inv in Hk as [[Hk1 Hk2]|[-> ->]].
        -- destruct (Hmin k c Hk2 Hc). lia.
        -- lia.
      * pose proof (lookup_lt_Some _ _ _ Hj) as Hjlt.
        split; [by rewrite lookup_app_l|]. split; [done|].
        intros k c Hk Hc. apply lookup_snoc_inv in Hk as [[Hk1 Hk2]|[-> ->]].
        -- by apply Hmin.
        -- lia.
    + simpl. split; [by rewrite list_lookup_middle|]. split; [done|].
      intros k c Hk Hc. apply lookup_snoc_inv in Hk as [[Hk1 Hk2]|[-> ->]].
      * apply list_elem_of_lookup_2, Hinv in Hk2. lia.
      * lia.
  - destruct best as [[j b]|]; simpl in *.
    + destruct Hinv as (Hj & Hb & Hmin).
      pose proof (lookup_lt_Some _ _ _ Hj) as Hjlt.
      split; [by rewrite lookup_app_l|]. split; [done|].
      intros k c Hk Hc. apply lookup_snoc_inv in Hk as [[Hk1 Hk2]|[-> ->]].
      * by apply Hmin.
      * lia.
    + intros c [Hc|Hc]%elem_of_app; [by apply Hinv|].
      apply list_elem_of_singleton in Hc as ->. lia.
Qed.

Lemma find_best_spec cnt l : forall pre best,
  scan_inv cnt pre best ->
  scan_inv cnt (pre ++ l) (find_best cnt l (length pre) best).
Proof.
  induction l as [|curr l IH]; intros pre best Hinv; simpl.
  - by rewrite app_nil_r.
  - rewrite cons_middle, app_assoc.
    replace (S (length pre)) with (length (pre ++ [curr]))
      by (rewrite length_app; simpl; lia).
    apply IH. by apply scan_inv_step.
Qed.

Lemma find_best_whole cnt fl : scan_inv cnt fl (find_best cnt fl 0 None).
Proof.
  apply (find_best_spec cnt fl [] None). simpl. intros c Hc.
  by apply elem_of_nil in Hc.
Qed.

Lemma chunk_bytes_no_wrap c :
  chunk_wf c -> u64 (pagecnt c * 2 ^ PAGE_ORDER) = pagecnt c * PAGE_SIZE.
Proof.
  intros (H1 & H2 & H3). unfold u64, PAGE_SIZE in *.
  apply Z.mod_small. unfold PAGE_ORDER in *. lia.
Qed.

(** C7: [alloc_phys_pages(0)] returns NULL.  For [n >= 1]: if no chunk of
    the free list has [n] pages the call panics; otherwise the chunk
    chosen is the one with the smallest page count that is at least [n]
    (the first such one in list order), and on an exact fit it is unlinked
    and its base address returned, while otherwise the last [n] pages of
    the chunk are returned and its [pagecnt] drops by [n] in place. *)
Theorem alloc_phys_pages_smallest_fit cnt fl :
  0 <= cnt < 2 ^ 32 ->
  Forall chunk_wf fl ->
  (cnt = 0 -> alloc_phys_pages cnt fl = AllocNull) /\
  (1 <= cnt -> (forall c, c ∈ fl -> pagecnt c < cnt) ->
     exists m, alloc_phys_pages cnt fl = AllocPanic m) /\
  (1 <= cnt -> (exists c, c ∈ fl /\ cnt <= pagecnt c) ->
     exists i best, smallest_fit cnt fl i best /\
       alloc_phys_pages cnt fl =
         if decide (pagecnt best = cnt) then
           Allocated (chunk_addr best) (delete i fl)
         else
           Allocated (chunk_addr best + (pagecnt best - cnt) * PAGE_SIZE)
                     (<[i := Chunk (chunk_addr best) (pagecnt best - cnt)]> fl)).
Proof.
  intros Hcnt Hwf. split; [|split].
  - intros ->. reflexivity.
  - intros Hpos Hnone. unfold alloc_phys_pages.
    rewrite decide_False by lia. destruct fl as [|c0 fl0]; [by eexists|].
    pose proof (find_best_whole cnt (c0 :: fl0)) as Hscan.
    destruct (find_best cnt (c0 :: fl0) 0 None) as [[i b]|]; [|by eexists].
    destruct Hscan as (Hi & Hb & _).
    apply list_elem_of_lookup_2, Hnone in Hi. lia.
  - intros Hpos (c & Hc & Hfit). unfold alloc_phys_pages.
    rewrite decide_False by lia.
    pose proof (find_best_whole cnt fl) as Hscan.
    destruct fl as [|c0 fl0]; [by apply elem_of_nil in Hc|].
    destruct (find_best cnt (c0 :: fl0) 0 None) as [[i b]|].
    2:{ simpl in Hscan. apply Hscan in Hc. lia. }
    exists i, b. split; [done|].
    destruct Hscan as (Hi & Hb & _).
    assert (chunk_wf b) as Hbwf.
    { rewrite Forall_forall in Hwf. eapply Hwf, list_elem_of_lookup_2, Hi. }
    rewrite (chunk_bytes_no_wrap b Hbwf).
    assert (u64 (cnt * 2 ^ PAGE_ORDER) = cnt * PAGE_SIZE) as ->.
    { unfold u64, PAGE_SIZE, PAGE_ORDER. apply Z.mod_small. lia. }
    destruct Hbwf as (Hb1 & Hb2 & Hb3).
    assert (0 < PAGE_SIZE) as Hps by (unfold PAGE_SIZE, PAGE_ORDER; lia).
    rewrite decide_False by nia.
    case_decide; [done|]. f_equal. unfold u64.
    rewrite Z.mod_small by nia. lia.
Qed.

Lemma alloc_phys_pages_smallest_fit_witness :
  let fl := [Chunk 0x80200000 8; Chunk 0x80300000 3; Chunk 0x80400000 3;
             Chunk 0x80500000 2] in
  alloc_phys_pages 0 fl = AllocNull /\
  alloc_phys_pages 3 fl =
    Allocated 0x80300000
      [Chunk 0x80200000 8; Chunk 0x80400000 3; Chunk 0x80500000 2] /\
  alloc_phys_pages 5 fl =
    Allocated 0x80203000
      [Chunk 0x80200000 3; Chunk 0x80300000 3; Chunk 0x80400000 3;
       Chunk 0x80500000 2] /\
  exists m, alloc_phys_pages 9 fl = AllocPanic m.
Proof.
  intros fl.
  assert (Forall chunk_wf fl) as Hwf.
  { repeat constructor; vm_compute; congruence. }
  split; [|split; [reflexivity|split; [reflexivity|]]].
  - apply (alloc_phys_pages_smallest_fit 0 fl); [lia | exact Hwf | reflexivity].
  - apply (alloc_phys_pages_smallest_fit 9 fl); [lia | exact Hwf | lia |].
    intros c Hc. repeat (apply elem_of_cons in Hc as [->|Hc]; [simpl; lia|]).
    by apply elem_of_nil in Hc.
Defined.

End PhysAllocFacts.

(** ** sys/memory.c : [set_range_flags] *)

Section PageTableFacts.
Import Memory.

Lemma forallb_seqZ (P : Z -> bool) lo len x :
  forallb P (seqZ lo len) = true -> lo <= x < lo + len -> P x = true.
Proof.
  intros H Hx. rewrite forallb_forall in H. apply H.
  apply list_elem_of_In, elem_of_seqZ. lia.
Qed.

Lemma adjust_flags_check_all :
  forallb (fun old => forallb (adjust_flags_check old) (seqZ 0 256)) (seqZ 0 256)
  = true.
Proof. vm_compute. reflexivity. Qed.

Lemma adjust_flags_checked old mask :
  0 <= old < 2 ^ 8 -> 0 <= mask < 2 ^ 8 -> adjust_flags_check old mask = true.
Proof.
  intros Hold Hmask.
  apply (forallb_seqZ (adjust_flags_check old) 0 256); [|lia].
  apply (forallb_seqZ
           (fun old => forallb (adjust_flags_check old) (seqZ 0 256)) 0 256);
    [apply adjust_flags_check_all | lia].
Qed.

(** The bits of the new flag byte. *)
Lemma adjust_flags_spec old mask :
  0 <= old < 2 ^ 8 -> is_rwxug mask ->
  let new := adjust_flags old mask in
  0 <= new < 2 ^ 8 /\
  adjust_flags new mask = new /\
  Z.land new PTE_V = Z.land old PTE_V /\
  Z.land new ADV = Z.land old ADV /\
  Z.land new PTE_A = Z.land old PTE_A /\
  Z.land new PTE_D = Z.land old PTE_D /\
  Z.land new RWXUG = mask /\
  Z.land new PTE_G = Z.land mask PTE_G /\
  Z.land new RWX = Z.land mask RWX.
Proof.
  intros Hold [Hm1 Hm2] new.
  pose proof (adjust_flags_checked old mask Hold Hm1) as H.
  unfold adjust_flags_check in H. fold new in H.
  rewrite !andb_true_iff in H.
  destruct H as (((H1 & H2) & H3) & H5).
  apply orb_true_iff in H5 as [H5|H5].
  { apply negb_true_iff, Z.eqb_neq in H5. done. }
  rewrite !andb_true_iff in H5.
  destruct H5 as ((((((H5 & H4) & H6) & H7) & H8) & H9) & H10).
  repeat split; try (apply Z.eqb_eq; assumption); lia.
Qed.

Lemma read_pte_wf m a : ptes_wf m -> pte_wf (read_pte m a).
Proof.
  intros Hwf. unfold read_pte. destruct (m !! a) as [e|] eqn:He; simpl.
  - by eapply Hwf.
  - unfold pte_wf; simpl; lia.
Qed.

Lemma read_pte_insert m a b e :
  read_pte (<[a := e]> m) b = if decide (a = b) then e else read_pte m b.
Proof. unfold read_pte. rewrite lookup_insert. by case_decide. Qed.

Lemma ptab_fetch_from_valid lvl : forall m pg vpn a,
  ptab_fetch_from lvl m pg vpn = Some a -> PTE_VALID (read_pte m a) = true.
Proof.
  induction lvl as [|lvl IH]; intros m pg vpn a; simpl.
  - destruct (PTE_VALID _) eqn:Hv; simpl; [|done]. by intros [= <-].
  - destruct (PTE_VALID _) eqn:Hv; simpl; [|done].
    destruct (PTE_LEAF _); [by intros [= <-] | apply IH].
Qed.

Lemma ptab_fetch_from_equiv lvl : forall m m' pg vpn,
  walk_equiv m m' ->
  ptab_fetch_from lvl m' pg vpn = ptab_fetch_from lvl m pg vpn.
Proof.
  induction lvl as [|lvl IH]; intros m m' pg vpn Heq; simpl.
  - by destruct (Heq (pg + PTE_SIZE * PT_INDEX 0 vpn)) as (-> & _ & _).
  - destruct (Heq (pg + PTE_SIZE * PT_INDEX (S lvl) vpn)) as (-> & -> & Hp).
    unfold pte_child. rewrite Hp.
    destruct (PTE_VALID _); simpl; [|done].
    destruct (PTE_LEAF _); [done | by apply IH].
Qed.

(** One [ptab_adjust] either leaves an entry alone or rewrites the flags
    of the valid leaf entry that maps the page. *)
Lemma ptab_adjust_cases root vpn mask m a :
  ptab_adjust root vpn mask m !! a = m !! a \/
  (mapped_leaf m root vpn a /\
   PTE_VALID (read_pte m a) = true /\
   ptab_adjust root vpn mask m !! a =
     Some (with_flags (read_pte m a) (adjust_flags (flags (read_pte m a)) mask))).
Proof.
  unfold ptab_adjust, mapped_leaf.
  destruct (ptab_fetch m root vpn) as [b|] eqn:Hf; [|by left].
  destruct (PTE_LEAF (read_pte m b)) eqn:Hl; simpl; [|by left].
  destruct (decide (b = a)) as [->|Hne].
  - right. rewrite lookup_insert_eq. split; [done|]. split; [|done].
    by eapply ptab_fetch_from_valid.
  - left. by rewrite lookup_insert_ne.
Qed.

Lemma ptab_adjust_wf root vpn mask m :
  ptes_wf m -> ptes_wf (ptab_adjust root vpn mask m).
Proof.
  intros Hwf a e He.
  destruct (ptab_adjust_cases root vpn mask m a) as [Hsame|(_ & _ & Hnew)].
  - rewrite Hsame in He. by eapply Hwf.
  - rewrite Hnew in He. injection He as <-. unfold pte_wf; simpl.
    unfold adjust_flags, u8. apply Z.mod_pos_bound. lia.
Qed.

Lemma adjust_flags_idem old mask :
  0 <= old < 2 ^ 8 -> 0 <= mask < 2 ^ 8 ->
  adjust_flags (adjust_flags old mask) mask = adjust_flags old mask.
Proof.
  intros Hold Hmask. pose proof (adjust_flags_checked old mask Hold Hmask) as H.
  unfold adjust_flags_check in H. rewrite !andb_true_iff in H.
  destruct H as ((_ & H) & _). by apply Z.eqb_eq in H.
Qed.

Lemma adjusted_refl mask m : adjusted mask m m.
Proof. intros a. by left. Qed.

Lemma adjusted_step root vpn mask m0 m :
  ptes_wf m0 -> 0 <= mask < 2 ^ 8 ->
  adjusted mask m0 m -> adjusted mask m0 (ptab_adjust root vpn mask m).
Proof.
  intros Hwf Hmask Hadj a.
  destruct (ptab_adjust_cases root vpn mask m a)
    as [Hsame|((_ & Hleaf) & Hvalid & Hnew)].
  { rewrite Hsame. apply Hadj. }
  destruct (Hadj a) as [Ha|(Hv0 & Hl0 & Ha)].
  - assert (read_pte m a = read_pte m0 a) as Heq by (unfold read_pte; by rewrite Ha).
    right. rewrite Heq in *. done.
  - right. split; [done|]. split; [done|]. rewrite Hnew.
    assert (read_pte m a = with_flags (read_pte m0 a)
              (adjust_flags (flags (read_pte m0 a)) mask)) as ->
      by (unfold read_pte at 1; by rewrite Ha).
    unfold with_flags; simpl.
    rewrite adjust_flags_idem; [done | apply (read_pte_wf m0 a Hwf) | done].
Qed.

Lemma adjust_pages_adjusted k : forall root vpn mask m0 m,
  ptes_wf m0 -> 0 <= mask < 2 ^ 8 ->
  adjusted mask m0 m -> adjusted mask m0 (adjust_pages k root vpn mask m).
Proof.
  induction k as [|k IH]; intros root vpn mask m0 m Hwf Hmask Hadj; simpl.
  - done.
  - apply IH; [done..|]. by apply adjusted_step.
Qed.

Lemma with_flags_same e : with_flags e (flags e) = e.
Proof. by destruct e. Qed.

(** With a mask that keeps a leaf a leaf, an adjustment does not change
    any walk. *)
Lemma walk_equiv_step root vpn mask m :
  ptes_wf m -> is_rwxug mask -> Z.land mask RWX <> 0 ->
  walk_equiv m (ptab_adjust root vpn mask m).
Proof.
  intros Hwf Hmask Hrwx a.
  destruct (ptab_adjust_cases root vpn mask m a)
    as [Hsame|((_ & Hleaf) & Hvalid & Hnew)].
  { unfold read_pte. by rewrite Hsame. }
  assert (read_pte (ptab_adjust root vpn mask m) a =
          with_flags (read_pte m a) (adjust_flags (flags (read_pte m a)) mask))
    as -> by (unfold read_pte at 1; by rewrite Hnew).
  destruct (adjust_flags_spec (flags (read_pte m a)) mask
              (read_pte_wf m a Hwf) Hmask)
    as (_ & _ & HV & _ & _ & _ & _ & _ & HRWX).
  unfold PTE_VALID, PTE_LEAF in *; simpl. rewrite HV, HRWX.
  split; [done|]. split; [|done].
  rewrite Hleaf. by apply negb_true_iff, Z.eqb_neq.
Qed.

Lemma ptab_adjust_keeps root vpn mask m a e :
  m !! a = Some e -> adjust_flags (flags e) mask = flags e ->
  ptab_adjust root vpn mask m !! a = Some e.
Proof.
  intros Ha Hfix.
  destruct (ptab_adjust_cases root vpn mask m a) as [Hsame|(_ & _ & Hnew)].
  - by rewrite Hsame.
  - rewrite Hnew. unfold read_pte. rewrite Ha; simpl.
    by rewrite Hfix, with_flags_same.
Qed.

Lemma adjust_pages_keeps k : forall root vpn mask m a e,
  m !! a = Some e -> adjust_flags (flags e) mask = flags e ->
  adjust_pages k root vpn mask m !! a = Some e.
Proof.
  induction k as [|k IH]; intros root vpn mask m a e Ha Hfix; simpl; [done|].
  apply IH; [|done]. by apply ptab_adjust_keeps.
Qed.

(** The walk of a page that is mapped by a leaf entry is not disturbed by
    adjustments made so far: they rewrite leaf entries only, and the
    entries the walk passes are not leaves.  So either the leaf entry has
    been rewritten already, or the walk still ends at it and finds it as
    it was. *)
Lemma ptab_fetch_from_adjusted mask m0 m vpn a lvl : forall pg,
  adjusted mask m0 m ->
  ptab_fetch_from lvl m0 pg vpn = Some a ->
  PTE_LEAF (read_pte m0 a) = true ->
  m !! a = Some (with_flags (read_pte m0 a)
                   (adjust_flags (flags (read_pte m0 a)) mask)) \/
  (ptab_fetch_from lvl m pg vpn = Some a /\ read_pte m a = read_pte m0 a).
Proof.
  induction lvl as [|lvl IH]; intros pg Hadj Hf Hleaf.
  - cbn [ptab_fetch_from] in *. cbv zeta in *.
    set (ca := pg + PTE_SIZE * PT_INDEX 0 vpn) in *.
    destruct (PTE_VALID (read_pte m0 ca)) eqn:Hv; simpl in Hf; [|done].
    injection Hf as <-.
    destruct (Hadj ca) as [Hsame|(_ & _ & Hnew)]; [|by left].
    right. assert (read_pte m ca = read_pte m0 ca) as Heq
      by (unfold read_pte; by rewrite Hsame).
    rewrite Heq, Hv. done.
  - cbn [ptab_fetch_from] in *. cbv zeta in *.
    set (ca := pg + PTE_SIZE * PT_INDEX (S lvl) vpn) in *.
    destruct (PTE_VALID (read_pte m0 ca)) eqn:Hv; simpl in Hf; [|done].
    destruct (PTE_LEAF (read_pte m0 ca)) eqn:Hl.
    + injection Hf as <-.
      destruct (Hadj ca) as [Hsame|(_ & _ & Hnew)]; [|by left].
      right. assert (read_pte m ca = read_pte m0 ca) as Heq
        by (unfold read_pte; by rewrite Hsame).
      rewrite Heq, Hv, Hl. done.
    + destruct (Hadj ca) as [Hsame|(_ & Hl' & _)]; [|congruence].
      assert (read_pte m ca = read_pte m0 ca) as Heq
        by (unfold read_pte; by rewrite Hsame).
      rewrite Heq, Hv, Hl. simpl. by apply IH.
Qed.

(** Every mapped leaf page of the range ends with the flags set, whatever
    the mask: also one without R, W and X, after which the entry is no
    leaf any more. *)
Lemma adjust_pages_hits k : forall root v mask m0 m vpn a,
  ptes_wf m0 -> is_rwxug mask -> adjusted mask m0 m ->
  v <= vpn < v + Z.of_nat k ->
  mapped_leaf m0 root vpn a ->
  adjust_pages k root v mask m !! a =
    Some (with_flags (read_pte m0 a) (adjust_flags (flags (read_pte m0 a)) mask)).
Proof.
  induction k as [|k IH]; intros root v mask m0 m vpn a Hwf Hmask Hadj Hin Hmap;
    simpl; [lia|].
  pose proof Hmask as [Hmask1 _].
  pose proof (read_pte_wf m0 a Hwf) as Hewf.
  destruct (decide (vpn = v)) as [->|Hne].
  - destruct Hmap as [Hf Hl].
    apply adjust_pages_keeps; [|simpl; by apply adjust_flags_idem].
    destruct (ptab_fetch_from_adjusted mask m0 m v a ROOT_LEVEL root Hadj Hf Hl)
      as [Hdone|[Hf' Heq]].
    + apply ptab_adjust_keeps; [done|]. simpl. by apply adjust_flags_idem.
    + unfold ptab_adjust, ptab_fetch. rewrite Hf'. cbv zeta.
      rewrite Heq, Hl. simpl. by rewrite lookup_insert_eq.
  - apply (IH root (v + 1) mask m0 _ vpn a); [done|done| |lia|done].
    by apply adjusted_step.
Qed.

Lemma adjusted_flags_set mask e :
  pte_wf e -> is_rwxug mask ->
  flags_set mask e (with_flags e (adjust_flags (flags e) mask)).
Proof.
  intros He Hmask.
  destruct (adjust_flags_spec (flags e) mask He Hmask)
    as (_ & _ & HV & _ & HA & HD & HM & _ & _).
  by repeat split.
Qed.

(** C5 (amended): [set_range_flags] with a mask of R, W, X, U and G bits
    changes nothing but the flag bytes of valid leaf entries, and in such
    an entry it keeps the A, D and V bits and replaces the R, W, X, U and
    G bits (G included) by the mask, leaving the PPN and the other fields
    alone; entries that are invalid or not leaves are unchanged; and the
    entry of every mapped leaf page of the range ends up so rewritten. *)
Theorem set_range_flags_overwrites_rwxug satp vp size mask m m' :
  ptes_wf m -> is_rwxug mask ->
  set_range_flags satp vp size mask m = Some m' ->
  (forall a, m' !! a = m !! a \/
     (PTE_VALID (read_pte m a) = true /\ PTE_LEAF (read_pte m a) = true /\
      exists e', m' !! a = Some e' /\ flags_set mask (read_pte m a) e')) /\
  (forall a, PTE_VALID (read_pte m a) && PTE_LEAF (read_pte m a) = false ->
     m' !! a = m !! a) /\
  (forall vpn a,
     vp / PAGE_SIZE <= vpn < vp / PAGE_SIZE + range_pages size ->
     mapped_leaf m (mtag_to_ptab satp) vpn a ->
     exists e', m' !! a = Some e' /\ flags_set mask (read_pte m a) e').
Proof.
  intros Hwf Hmask Hrun.
  assert (adjusted mask m m' /\
          (size <> 0 ->
           m' = adjust_pages (Z.to_nat (range_pages size)) (mtag_to_ptab satp)
                  (vp / PAGE_SIZE) mask m)) as [Hadj Hm'].
  { unfold set_range_flags in Hrun. case_decide as Hsz.
    - injection Hrun as <-. split; [apply adjusted_refl | done].
    - repeat (match type of Hrun with
              | (if ?c then _ else _) = _ => destruct c; [done|]
              end).
      injection Hrun as <-. split; [|done].
      apply adjust_pages_adjusted; [done | apply Hmask | apply adjusted_refl]. }
  assert (forall a, m' !! a = m !! a \/
     (PTE_VALID (read_pte m a) = true /\ PTE_LEAF (read_pte m a) = true /\
      exists e', m' !! a = Some e' /\ flags_set mask (read_pte m a) e')) as H1.
  { intros a. destruct (Hadj a) as [Ha|(Hv & Hl & Ha)]; [by left|].
    right. split; [done|]. split; [done|]. eexists. split; [done|].
    apply adjusted_flags_set; [by apply read_pte_wf | done]. }
  split; [done|]. split.
  - intros a Hnl. destruct (H1 a) as [Ha|(Hv & Hl & _)]; [done|].
    by rewrite Hv, Hl in Hnl.
  - intros vpn a Hin Hmap.
    assert (size <> 0) as Hsz.
    { intros ->. change (range_pages 0) with 0 in Hin. lia. }
    eexists. split.
    + rewrite (Hm' Hsz).
      apply (adjust_pages_hits _ (mtag_to_ptab satp) (vp / PAGE_SIZE) mask m m vpn a);
        [done|done|apply adjusted_refl| |done].
      assert (0 <= range_pages size).
      { unfold range_pages. apply Z.shiftr_nonneg, Z.mod_pos_bound. lia. }
      lia.
    + apply adjusted_flags_set; [by apply read_pte_wf | done].
Qed.

Lemma ex_ptes_wf : ptes_wf ex_ptes.
Proof.
  intros a e H. unfold ex_ptes in H.
  repeat (rewrite lookup_insert in H; case_decide;
          [injection H as <-; vm_compute; split; congruence|]).
  by rewrite lookup_empty in H.
Qed.

Lemma set_range_flags_overwrites_rwxug_witness :
  exists m',
    set_range_flags ex_satp 0xC0000000 4096 (Z.lor PTE_R PTE_U) ex_ptes = Some m' /\
    m' !! ex_leaf_addr = Some (Pte 211 0 0x80500 0 0 0) /\
    forall a, PTE_VALID (read_pte ex_ptes a) && PTE_LEAF (read_pte ex_ptes a) = false ->
      m' !! a = ex_ptes !! a.
Proof.
  eexists. split; [vm_compute; reflexivity|].
  split; [vm_compute; reflexivity|].
  apply (set_range_flags_overwrites_rwxug ex_satp 0xC0000000 4096
           (Z.lor PTE_R PTE_U) ex_ptes).
  - apply ex_ptes_wf.
  - vm_compute. repeat split; congruence.
  - vm_compute. reflexivity.
Defined.

(** A mask without R, W and X is written like any other: the page of
    the example set to U alone keeps A, D and V and its PPN. *)
Example set_range_flags_user_only :
  exists m',
    set_range_flags ex_satp 0xC0000000 4096 PTE_U ex_ptes = Some m' /\
    m' !! ex_leaf_addr = Some (Pte 209 0 0x80500 0 0 0).
Proof. eexists. split; vm_compute; reflexivity. Qed.

(** C5 as stated fails for the G bit: the global, user, read-write page of
    the example loses G when its range is set to R|U. *)
Lemma set_range_flags_clears_G :
  exists m',
    set_range_flags ex_satp 0xC0000000 4096 (Z.lor PTE_R PTE_U) ex_ptes = Some m' /\
    mapped_leaf ex_ptes (mtag_to_ptab ex_satp) (0xC0000000 / PAGE_SIZE) ex_leaf_addr /\
    Z.land (flags (read_pte ex_ptes ex_leaf_addr)) PTE_G = PTE_G /\
    Z.land (flags (read_pte m' ex_leaf_addr)) PTE_G = 0 /\
    Z.land (flags (read_pte m' ex_leaf_addr)) PTE_G
      <> Z.land (flags (read_pte ex_ptes ex_leaf_addr)) PTE_G.
Proof.
  eexists. split; [vm_compute; reflexivity|].
  repeat split; vm_compute; congruence.
Qed.

End PageTableFacts.

(** ** sys/cache.c *)

Section CacheFacts.
Import Cache.
Context {S : Type} `{Storage S}.








Lemma find_hit_None_inv bn (es : list cache_entry) j e :
  find_hit bn es = None -> es !! j = Some e ->
  ~ (block_n e = bn /\ valid e = true).
Proof.
  unfold find_hit. rewrite list_find_None, Forall_lookup. eauto.
Qed.



(** *** get, release, get *)

Lemma ptrs_insert (es : list cache_entry) i e e' :
  es !! i = Some e -> data_ptr e' = data_ptr e ->
  data_ptr <$> <[i := e']> es = data_ptr <$> es.
Proof.
  intros Hi Hp. rewrite list_fmap_insert, Hp.
  apply list_insert_id. by rewrite list_lookup_fmap, Hi.
Qed.

Lemma ptrs_unpin_last tp (c : cache S) :
  data_ptr <$> entries (unpin_last tp c) = data_ptr <$> entries c.
Proof.
  unfold unpin_last. case_decide; [|done].
  destruct (entries c !! _) as [e|] eqn:He; [|done].
  case_decide; [|done]. simpl. by apply (ptrs_insert _ _ e).
Qed.

Lemma ptr_index_unique (es : list cache_entry) i j e e' :
  NoDup (data_ptr <$> es) ->
  es !! i = Some e -> es !! j = Some e' -> data_ptr e = data_ptr e' -> i = j.
Proof.
  intros Hnd Hi Hj Hp.
  apply (NoDup_lookup _ i j (data_ptr e) Hnd); rewrite list_lookup_fmap.
  - by rewrite Hi.
  - by rewrite Hj, Hp.
Qed.

Lemma list_find_by_ptr (P : cache_entry -> Prop) `{!forall e, Decision (P e)}
    (es : list cache_entry) i e :
  NoDup (data_ptr <$> es) ->
  es !! i = Some e -> P e ->
  (forall x, P x -> data_ptr x = data_ptr e) ->
  list_find P es = Some (i, e).
Proof.
  intros Hnd Hi HP Hptr. apply list_find_Some. split; [done|]. split; [done|].
  intros j y Hj Hlt HPy.
  assert (j = i) by (eapply ptr_index_unique; eauto). lia.
Qed.

(** What a successful [cache_get_block] leaves behind. *)
Lemma cache_get_block_success tp (c : cache S) pos p c1 :
  cache_get_block tp c pos = GetRet 0 (Some p) c1 ->
  pos mod CACHE_BLKSZ = 0 /\
  data_ptr <$> entries c1 = data_ptr <$> entries c /\
  exists i e1,
    entries c1 !! i = Some e1 /\ last_used c1 = Z.of_nat i /\
    data_ptr e1 = p /\ block_n e1 = u32 (pos / CACHE_BLKSZ) /\
    valid e1 = true /\ in_use e1 = true /\ owner_tid e1 = tp /\
    forall j e', (j < i)%nat -> entries c1 !! j = Some e' ->
      ~ (block_n e' = u32 (pos / CACHE_BLKSZ) /\ valid e' = true).
Proof.
  unfold cache_get_block. case_decide as Hal; [done|].
  rewrite <- (ptrs_unpin_last tp c).
  set (c' := unpin_last tp c). set (bn := u32 (pos / CACHE_BLKSZ)).
  destruct (find_hit bn (entries c')) as [[i e]|] eqn:Hhit.
  - apply list_find_Some in Hhit as (Hi & [Hbn Hv] & Hfirst).
    pose proof (lookup_lt_Some _ _ _ Hi) as Hlt.
    destruct (in_use e && _); [done|]. intros [= <- <-]. simpl.
    split; [done|]. split; [by apply (ptrs_insert _ _ e)|].
    exists i, (pin tp (u32 (timer c' + 1)) e).
    rewrite list_lookup_insert_eq by done.
    repeat split; try done.
    intros j e' Hj. rewrite list_lookup_insert_ne by lia. intros He'.
    by eapply Hfirst.
  - case_decide as Hidx; [done|].
    destruct (entries c' !! Z.to_nat _) as [e|] eqn:Hi; [|done].
    pose proof (lookup_lt_Some _ _ _ Hi) as Hlt.
    destruct (write_back c' e) as [[[rc|] e1] sto1] eqn:Hwb; [done|].
    assert (data_ptr e1 = data_ptr e) as Hp1.
    { unfold write_back in Hwb. destruct (valid e && dirty e).
      - destruct (storage_store _ _ _ _) as [ret sto].
        repeat case_decide; by simplify_eq.
      - by simplify_eq. }
    destruct (storage_fetch sto1 pos (data e1) CACHE_BLKSZ) as [[ret buf] sto2].
    case_decide; [done|]. case_decide; [done|].
    intros [= <- <-]. simpl. split; [done|].
    split; [by apply (ptrs_insert _ _ e)|].
    eexists _, _. rewrite list_lookup_insert_eq by done.
    split; [done|]. split; [lia|]. repeat split; try done.
    intros j e' Hj. rewrite list_lookup_insert_ne by lia. intros He'.
    by eapply find_hit_None_inv.
Qed.

(** C8: when [cache_get_block(x)] has succeeded for a thread, releasing
    the block clean and asking for [x] again succeeds and returns the same
    non-NULL pointer, behind which the bytes are those seen after the
    first call. *)
Theorem cache_get_release_get tp (c : cache S) pos p c1 :
  cache_wf c -> 0 <= tp ->
  cache_get_block tp c pos = GetRet 0 (Some p) c1 ->
  exists c3 buf,
    cache_get_block tp (cache_release_block c1 p 0) pos = GetRet 0 (Some p) c3 /\
    p ≠ 0 /\
    block_at c1 p = Some buf /\
    block_at c3 p = Some buf.
Proof.
  intros (Hlen & Hnd & Hnz) Htp Hget.
  apply cache_get_block_success in Hget
    as (Hal & Hptrs & i & e1 & Hi & Hlast & Hp & Hbn & Hv & Hu & Ho & Hfirst).
  rewrite <- Hptrs in Hnd.
  pose proof (lookup_lt_Some _ _ _ Hi) as Hlt.
  assert (p ≠ 0) as Hpnz.
  { rewrite Forall_forall in Hnz. subst p.
    assert (data_ptr e1 ∈ data_ptr <$> entries c) as Hin.
    { rewrite <- Hptrs. apply list_elem_of_fmap. exists e1. split; [done|].
      by eapply list_elem_of_lookup_2. }
    apply list_elem_of_fmap in Hin as (e0 & -> & Hin). by apply Hnz. }
  (* the release finds the entry that was handed out *)
  assert (cache_release_block c1 p 0 =
          Cache (stor c1) (<[i := unpin e1]> (entries c1)) (timer c1) (last_used c1))
    as Hrel.
  { unfold cache_release_block. rewrite decide_False by done.
    rewrite (list_find_by_ptr _ _ i e1); [done..| |];
      [done | intros x [_ Hx]; congruence]. }
  rewrite Hrel. set (es2 := <[i := unpin e1]> (entries c1)).
  assert (es2 !! i = Some (unpin e1)) as Hi2
    by (unfold es2; by rewrite list_lookup_insert_eq).
  (* the second call keeps the state and hits the same entry *)
  unfold cache_get_block. rewrite decide_False by (intros Hne; by apply Hne).
  assert (unpin_last tp (Cache (stor c1) es2 (timer c1) (last_used c1)) =
          Cache (stor c1) es2 (timer c1) (last_used c1)) as ->.
  { unfold unpin_last; simpl. rewrite Hlast, decide_True by lia.
    rewrite Nat2Z.id, Hi2. simpl. by rewrite decide_False by lia. }
  simpl.
  assert (find_hit (u32 (pos / CACHE_BLKSZ)) es2 = Some (i, unpin e1)) as ->.
  { apply list_find_Some. split; [done|]. split; [done|].
    intros j y Hj Hjlt. unfold es2 in Hj.
    rewrite list_lookup_insert_ne in Hj by lia. by eapply Hfirst. }
  simpl. rewrite Hp. eexists _, (data e1). split; [reflexivity|]. split; [done|].
  unfold block_at. split.
  - rewrite (list_find_by_ptr _ _ i e1); [done..|]. intros x Hx. congruence.
  - simpl. set (e3 := pin tp (u32 (timer c1 + 1)) (unpin e1)).
    rewrite (list_find_by_ptr _ _ i e3); [done| | |done|].
    + rewrite (ptrs_insert _ _ (unpin e1)); [|done..].
      unfold es2. by rewrite (ptrs_insert _ _ e1).
    + apply list_lookup_insert_eq. unfold es2. by rewrite length_insert.
    + intros x Hx. simpl. congruence.
Qed.

End CacheFacts.

(** *** The cache on the example disk *)

Section CacheExamples.
Import Cache Disk.

Lemma fresh_wf : cache_wf fresh.
Proof.
  split; [reflexivity|]. split.
  - apply (bool_decide_unpack _). vm_compute. exact I.
  - apply (bool_decide_unpack _). vm_compute. exact I.
Qed.


Example fresh_miss_takes_slot_0 :
  cache_evict_entry (entries (unpin_last 1 fresh)) = 0 /\
  last_used (result_cache (cache_get_block 1 fresh (512 * 80))) = 0.
Proof. split; vm_compute; reflexivity. Qed.

Lemma cache_get_release_get_witness :
  let c1 := result_cache (cache_get_block 1 fresh (512 * 5)) in
  exists c3 buf,
    cache_get_block 1 (cache_release_block c1 0x10000 0) (512 * 5)
      = GetRet 0 (Some 0x10000) c3 /\
    0x10000 ≠ 0 /\
    block_at c1 0x10000 = Some buf /\ block_at c3 0x10000 = Some buf.
Proof.
  intros c1.
  apply (cache_get_release_get 1 fresh (512 * 5) 0x10000 c1 fresh_wf);
    [lia | vm_compute; reflexivity].
Defined.

Example fresh_get_reads_block_5 :
  block_at (result_cache (cache_get_block 1 fresh (512 * 5))) 0x10000
    = Some (replicate 512 6).
Proof. vm_compute. reflexivity. Qed.

End CacheExamples.

(** ** sys/ktfs.c *)

Section KtfsExamples.
Import Cache Ktfs Image.

Example open_hello :
  value (ktfs_open 1 (Some "hello"%string) true mounted)
    = Some (0, Some (OpenFile hello)).
Proof. vm_compute. reflexivity. Qed.

Example open_slash_lists :
  value (ktfs_open 1 (Some "/"%string) true mounted)
    = Some (0, Some (OpenListing (Listing (Super 16 1 1 1 0) root_inode 0 1))).
Proof. vm_compute. reflexivity. Qed.

Example open_missing :
  value (ktfs_open 1 (Some "nope"%string) true mounted) = Some (- ENOENT, None).
Proof. vm_compute. reflexivity. Qed.

Example read_hello_first_block :
  value (ktfs_fetch 1 hello false 4 mounted)
    = Some (4, at_position 4 hello, [65; 65; 65; 65]).
Proof. vm_compute. reflexivity. Qed.

Example write_hello :
  fst <$> value (ktfs_store 1 hello (Some [1; 2; 3]) 3 mounted) = Some 3.
Proof. vm_compute. reflexivity. Qed.

End KtfsExamples.

Section KtfsFacts.
Import Cache Ktfs.
Context {S : Type} `{Storage S}.
Variable tp : Z.


Lemma bind_Fail {A B} (m : M S A) (k : A -> M S B) c code c' :
  m c = Fail code c' -> bind m k c = Fail code c'.
Proof. unfold bind. by intros ->. Qed.

Lemma attempt_Ok {A} (m : M S A) c a c' :
  m c = Ok a c' -> attempt m c = Ok (inr a) c'.
Proof. unfold attempt. by intros ->. Qed.

Lemma attempt_Fail {A} (m : M S A) c code c' :
  m c = Fail code c' -> attempt m c = Ok (inl code) c'.
Proof. unfold attempt. by intros ->. Qed.

(** *** Opening *)

(** The test for a listing accepts the empty name... *)
Lemma empty_name_is_listing_name : is_listing_name (cstr (bytes_of_string EmptyString)) = true.
Proof. reflexivity. Qed.

(** C4 (what the code does): [ktfs_open] called with the empty name returns
    -EINVAL at its argument check and opens nothing, whether or not memory
    is available; the cache is not touched. *)
Theorem ktfs_open_empty_name_is_invalid alloc_ok (c : cache S) :
  ktfs_open tp (Some EmptyString) alloc_ok c = Ok (- EINVAL, None) c.
Proof. reflexivity. Qed.

(** ... while the name "/" does reach the listing branch, which succeeds
    when memory is available, the superblock and the root inode can be
    read and the directory size is a multiple of the entry size. *)
Lemma ktfs_open_slash_is_listing alloc_ok (c : cache S) :
  ktfs_open tp (Some "/"%string) alloc_ok c = open_listing tp alloc_ok c.
Proof. reflexivity. Qed.

Lemma open_listing_snapshot (c c1 c2 : cache S) sb root :
  ktfs_read_super tp c = Ok sb c1 ->
  ktfs_inode_grab tp (root_directory_inode sb) sb c1 = Ok root c2 ->
  size root mod KTFS_DENSZ = 0 ->
  ktfs_open tp (Some "/"%string) true c =
    Ok (0, Some (OpenListing (Listing sb root 0 (size root / KTFS_DENSZ)))) c2.
Proof.
  intros Hsb Hroot Hsz. rewrite ktfs_open_slash_is_listing.
  unfold open_listing; simpl. unfold bind, attempt. rewrite Hsb, Hroot.
  unfold ret. by rewrite decide_False by (intros Hne; by apply Hne).
Qed.

(** *** Writing at the size limit *)

(** C3 (what the code does): a write of [len > 0] bytes that starts at
    [pos = KTFS_MAX_FILE_SIZE] (or beyond) returns -EINVAL, not 0; the
    handle is unchanged and nothing but the superblock and the inode has
    been read. *)
Theorem ktfs_store_at_max_file_size kuio data len (c c1 c2 : cache S) sb ino :
  len ≠ 0 ->
  ktfs_read_super tp c = Ok sb c1 ->
  ktfs_inode_grab tp (inode_number kuio) sb c1 = Ok ino c2 ->
  KTFS_MAX_FILE_SIZE <= file_position kuio ->
  ktfs_store tp kuio (Some data) len c = Ok (- EINVAL, kuio) c2.
Proof.
  intros Hlen Hsb Hino Hpos. unfold ktfs_store.
  rewrite decide_False by done. unfold bind, attempt. rewrite Hsb, Hino.
  unfold store_body. by rewrite decide_True.
Qed.

(** The branch that returns 0 after the clamp cannot be reached: below the
    limit a non-empty request is never clamped to nothing. *)
Lemma clamped_write_is_not_empty pos len :
  pos < KTFS_MAX_FILE_SIZE -> 0 < len ->
  (if decide (KTFS_MAX_FILE_SIZE - pos < len)
   then KTFS_MAX_FILE_SIZE - pos else len) ≠ 0.
Proof. intros. case_decide; lia. Qed.

(** *** Reading *)

Lemma fetch_loop_done fuel sb ino pos read_size acc (c : cache S) :
  read_size <= Z.of_nat (length acc) ->
  fetch_loop tp fuel sb ino pos read_size acc c = Ok (0, acc) c.
Proof. intros Hdone. destruct fuel; simpl; by rewrite decide_True. Qed.

(** One round of the copy loop on a block that [ktfs_map_block] maps. *)
Lemma fetch_loop_step fuel sb ino pos read_size acc (c c3 c4 : cache S)
    absblk blk b :
  Z.of_nat (length acc) < read_size ->
  ktfs_map_block tp sb ino
    (u32 ((Z.of_nat (length acc) + pos) / KTFS_BLKSZ)) c = Ok absblk c3 ->
  get_block tp (u64 (absblk * KTFS_BLKSZ)) c3 = Ok blk c4 ->
  load blk c4 = Ok b c4 ->
  fetch_loop tp (Datatypes.S fuel) sb ino pos read_size acc c =
    fetch_loop tp fuel sb ino pos read_size
      (acc ++ slice b ((Z.of_nat (length acc) + pos) mod KTFS_BLKSZ)
               (Z.min (read_size - Z.of_nat (length acc))
                  (KTFS_BLKSZ - (Z.of_nat (length acc) + pos) mod KTFS_BLKSZ)))
      (cache_release_block c4 blk 0).
Proof.
  intros Hlt Hmap Hget Hload. cbn [fetch_loop].
  rewrite decide_False by lia.
  unfold bind at 1. rewrite (attempt_Ok _ _ _ _ Hmap).
  unfold bind at 1. rewrite (attempt_Ok _ _ _ _ Hget).
  unfold bind at 1. rewrite Hload.
  unfold bind at 1. unfold release_block at 1. reflexivity.
Qed.

(** The only zero fill: [ktfs_map_block] answered -ENOENT. *)
Lemma fetch_loop_enoent_step fuel sb ino pos read_size acc (c c3 : cache S) :
  Z.of_nat (length acc) < read_size ->
  ktfs_map_block tp sb ino
    (u32 ((Z.of_nat (length acc) + pos) / KTFS_BLKSZ)) c = Fail (- ENOENT) c3 ->
  fetch_loop tp (Datatypes.S fuel) sb ino pos read_size acc c =
    fetch_loop tp fuel sb ino pos read_size
      (acc ++ replicate
                (Z.to_nat (Z.min (read_size - Z.of_nat (length acc))
                   (KTFS_BLKSZ - (Z.of_nat (length acc) + pos) mod KTFS_BLKSZ))) 0)
      c3.
Proof.
  intros Hlt Hmap. cbn [fetch_loop].
  rewrite decide_False by lia.
  unfold bind at 1. rewrite (attempt_Fail _ _ _ _ Hmap).
  by rewrite decide_True.
Qed.

Lemma length_slice b off len :
  0 <= off -> 0 <= len -> off + len <= Z.of_nat (length b) ->
  Z.of_nat (length (slice b off len)) = len.
Proof.
  intros. unfold slice. rewrite length_take, length_drop.
  rewrite Nat.min_l by lia. lia.
Qed.







(** A read inside one block, from the handle's point of view. *)
Lemma ktfs_fetch_one_block kuio len sb ino (c c1 c2 c3 c4 : cache S)
    absblk blk b :
  let pos := file_position kuio in
  ktfs_read_super tp c = Ok sb c1 ->
  ktfs_inode_grab tp (inode_number kuio) sb c1 = Ok ino c2 ->
  0 < len -> 0 <= pos -> pos + len <= size ino ->
  pos mod KTFS_BLKSZ + len <= KTFS_BLKSZ ->
  ktfs_map_block tp sb ino (u32 (pos / KTFS_BLKSZ)) c2 = Ok absblk c3 ->
  get_block tp (u64 (absblk * KTFS_BLKSZ)) c3 = Ok blk c4 ->
  load blk c4 = Ok b c4 ->
  length b = 512%nat ->
  ktfs_fetch tp kuio false len c =
    Ok (len,
        Uio (size ino) (u64 (pos + len)) (file_offset kuio) (inode_number kuio),
        slice b (pos mod KTFS_BLKSZ) len)
       (cache_release_block c4 blk 0).
Proof.
  intros pos Hsb Hino Hlen Hpos Hend Hin Hmap Hget Hload Hb.
  unfold ktfs_fetch. rewrite decide_False by lia. fold pos.
  unfold bind at 1. rewrite (attempt_Ok _ _ _ _ Hsb). cbv beta iota.
  unfold bind at 1. rewrite (attempt_Ok _ _ _ _ Hino). cbv beta iota.
  rewrite decide_False by lia.
  rewrite Z.min_l by lia.
  destruct (Z.to_nat len) as [|fuel] eqn:Hfuel; [lia|].
  unfold bind at 1.
  rewrite (fetch_loop_step fuel sb ino pos len [] c2 c3 c4 absblk blk b);
    simpl length; rewrite ?Z.add_0_l; try done.
  rewrite Z.sub_0_r, Z.min_l by lia. simpl app.
  pose proof (Z.mod_pos_bound pos KTFS_BLKSZ ltac:(done)) as Hm.
  assert (Z.of_nat (length (slice b (pos mod KTFS_BLKSZ) len)) = len) as Hl.
  { apply length_slice; [lia | lia |]. rewrite Hb. unfold KTFS_BLKSZ in *. lia. }
  rewrite fetch_loop_done by lia. cbv beta iota. cbn [fst snd].
  rewrite decide_False by lia. unfold ret. by rewrite Hl.
Qed.

End KtfsFacts.

(** *** The file system of the example image *)

Section KtfsOnImage.
Import Cache Ktfs Image.

Example image_reads :
  value (ktfs_read_super 1 mounted) = Some image_super /\
  value (ktfs_inode_grab 1 1 image_super mounted) = Some hello_inode /\
  data_start image_super = 4.
Proof. repeat split; vm_compute; reflexivity. Qed.



Lemma ktfs_store_at_max_file_size_witness :
  ktfs_store 1 (at_position KTFS_MAX_FILE_SIZE hello) (Some [1; 2; 3]) 3 mounted
    = Ok (- EINVAL, at_position KTFS_MAX_FILE_SIZE hello)
         (final (ktfs_inode_grab 1 1 image_super
                   (final (ktfs_read_super 1 mounted)))).
Proof.
  apply (ktfs_store_at_max_file_size 1 (at_position KTFS_MAX_FILE_SIZE hello)
           [1; 2; 3] 3 mounted (final (ktfs_read_super 1 mounted)) _
           image_super hello_inode).
  - intros Hc. discriminate Hc.
  - vm_compute. reflexivity.
  - vm_compute. reflexivity.
  - vm_compute. intros Hc. discriminate Hc.
Defined.

End KtfsOnImage.

(** ** The cache does not change what the file system sees *)

Section CacheView.
Import Cache.
Context {S : Type} `{Storage S}.
Variable disk_block : S -> Z -> list Z.
Hypothesis laws : storage_laws disk_block.

Lemma view_holds (c : cache S) bn : holds disk_block c bn (view disk_block c bn).
Proof.
  unfold view, find_hit.
  destruct (list_find _ (entries c)) as [[i e]|] eqn:Hf.
  - apply list_find_Some in Hf as (Hi & [Hbn Hv] & _). left. by exists i, e.
  - right. split; [|done]. intros i e Hi.
    rewrite list_find_None, Forall_lookup in Hf. by eapply Hf.
Qed.

Lemma holds_view (c : cache S) bn d :
  coherent disk_block c -> holds disk_block c bn d -> view disk_block c bn = d.
Proof.
  intros (_ & Hnodup & _) Hh. unfold view, find_hit.
  destruct (list_find _ (entries c)) as [[i' e']|] eqn:Hf.
  - apply list_find_Some in Hf as (Hi' & [Hbn' Hv'] & _).
    destruct Hh as [(i & e & Hi & Hv & Hbn & ->)|[Hnone _]].
    + assert (i = i') by (eapply Hnodup; eauto; congruence). subst i'.
      congruence.
    + by destruct (Hnone i' e' Hi').
  - rewrite list_find_None, Forall_lookup in Hf.
    destruct Hh as [(i & e & Hi & Hv & Hbn & ->)|[_ ->]]; [|done].
    by destruct (Hf i e Hi).
Qed.

Lemma same_contents_insert (es : list cache_entry) i e e' :
  es !! i = Some e -> same_content e e' -> same_contents es (<[i := e']> es).
Proof.
  intros Hi Hc. pose proof (lookup_lt_Some _ _ _ Hi) as Hlt. split.
  - intros j x Hj. destruct (decide (i = j)) as [->|Hne].
    + exists e'. rewrite list_lookup_insert_eq by done.
      split; [done|]. congruence.
    + exists x. rewrite list_lookup_insert_ne by done.
      split; [done|]. by repeat split.
  - intros j x' Hj. destruct (decide (i = j)) as [->|Hne].
    + rewrite list_lookup_insert_eq in Hj by done. injection Hj as <-.
      by exists e.
    + rewrite list_lookup_insert_ne in Hj by done. exists x'.
      split; [done|]. by repeat split.
Qed.

Lemma same_contents_refl es : same_contents es es.
Proof. split; intros j x Hj; exists x; by repeat split. Qed.

Lemma same_contents_coherent (c c' : cache S) :
  stor c' = stor c -> same_contents (entries c) (entries c') ->
  coherent disk_block c -> coherent disk_block c'.
Proof.
  intros Hs [_ Hback] (Hclean & Hnodup & Hrange). split; [|split].
  - intros i e' Hi Hv Hd. destruct (Hback i e' Hi) as (e & He & Hbn & Hv' & Hd' & Hdata).
    rewrite Hs, Hdata, Hbn. apply (Hclean i); [done|congruence..].
  - intros i j e1' e2' Hi Hj Hv1 Hv2 Hbn.
    destruct (Hback i e1' Hi) as (e1 & He1 & Hb1 & Hv1' & _).
    destruct (Hback j e2' Hj) as (e2 & He2 & Hb2 & Hv2' & _).
    apply (Hnodup i j e1 e2); congruence.
  - intros i e' Hi Hv. destruct (Hback i e' Hi) as (e & He & Hbn & Hv' & _).
    rewrite Hbn. apply (Hrange i); [done|congruence].
Qed.

Lemma same_contents_holds (c c' : cache S) bn d :
  stor c' = stor c -> same_contents (entries c) (entries c') ->
  holds disk_block c bn d -> holds disk_block c' bn d.
Proof.
  intros Hs [Hfwd Hback] [(i & e & Hi & Hv & Hbn & ->)|[Hnone ->]].
  - left. destruct (Hfwd i e Hi) as (e' & He' & Hbn' & Hv' & _ & Hdata).
    exists i, e'. repeat split; congruence.
  - right. split; [|by rewrite Hs]. intros i e' Hi [Hbn Hv].
    destruct (Hback i e' Hi) as (e & He & Hbn' & Hv' & _).
    apply (Hnone i e He). split; congruence.
Qed.

Lemma unpin_last_same tp (c : cache S) :
  stor (unpin_last tp c) = stor c /\
  same_contents (entries c) (entries (unpin_last tp c)).
Proof.
  unfold unpin_last. case_decide; [|split; [done | apply same_contents_refl]].
  destruct (entries c !! _) as [e|] eqn:He;
    [|split; [done | apply same_contents_refl]].
  case_decide; [|split; [done | apply same_contents_refl]].
  split; [done|]. simpl. by apply (same_contents_insert _ _ e).
Qed.

Lemma release_clean_same (c : cache S) p :
  stor (cache_release_block c p 0) = stor c /\
  same_contents (entries c) (entries (cache_release_block c p 0)).
Proof.
  unfold cache_release_block.
  case_decide; [split; [done | apply same_contents_refl]|].
  destruct (list_find _ (entries c)) as [[i e]|] eqn:Hf;
    [|split; [done | apply same_contents_refl]].
  apply list_find_Some in Hf as (Hi & _). split; [done|].
  rewrite decide_False by (intros Hne; by apply Hne). simpl.
  by apply (same_contents_insert _ _ e).
Qed.

(** After a successful write-back the device holds the victim's bytes,
    and every other block is as before. *)
Lemma write_back_spec (c : cache S) i e e1 sto1 :
  coherent disk_block c -> entries c !! i = Some e ->
  write_back c e = (None, e1, sto1) ->
  data e1 = data e /\
  (valid e = true -> disk_block sto1 (block_n e) = data e) /\
  (forall bn, (valid e = true -> bn ≠ block_n e) ->
     disk_block sto1 bn = disk_block (stor c) bn).
Proof.
  intros (Hclean & _ & Hrange) Hi. unfold write_back.
  destruct (valid e) eqn:Hv, (dirty e) eqn:Hd; simpl.
  2: { intros [= <- <-]. split; [done|]. split; [|done]. intros _.
       symmetry. by eapply Hclean. }
  2, 3: intros [= <- <-]; split; [done|]; split; [|done]; intros Hc; done.
  destruct (Hrange i e Hi Hv) as [Hlo Hhi].
  assert (u64 (block_n e * CACHE_BLKSZ) = block_n e * CACHE_BLKSZ) as Hpos.
  { unfold u64, CACHE_BLKSZ. apply Z.mod_small. lia. }
  rewrite Hpos.
  destruct (storage_store _ _ _ _) as [r sto] eqn:Hst.
  case_decide; [done|]. case_decide as Hr; [done|].
  subst r. intros [= <- <-].
  destruct (store_ok _ laws _ _ _ _ (Z_mod_mult _ _) Hst) as [Hw Hother].
  rewrite Z.div_mul in Hw, Hother by done.
  split; [done|]. split; [done|]. intros bn Hne. apply Hother. by apply Hne.
Qed.

(** The cache after a miss has been served. *)
Lemma miss_coherent (c : cache S) i e e1 sto1 buf sto2 pos tp t lu :
  coherent disk_block c ->
  pos mod CACHE_BLKSZ = 0 -> 0 <= pos / CACHE_BLKSZ < 2 ^ 32 ->
  find_hit (pos / CACHE_BLKSZ) (entries c) = None ->
  entries c !! i = Some e ->
  write_back c e = (None, e1, sto1) ->
  storage_fetch sto1 pos (data e1) CACHE_BLKSZ = (CACHE_BLKSZ, buf, sto2) ->
  let c' := Cache sto2
              (<[i := fill (pos / CACHE_BLKSZ) tp t (set_data buf e1)]> (entries c))
              t lu in
  coherent disk_block c' /\
  forall bn d, holds disk_block c bn d -> holds disk_block c' bn d.
Proof.
  intros Hcoh Hal Hrange Hmiss Hi Hwb Hfetch c'.
  pose proof Hcoh as (Hclean & Hnodup & Hblk).
  destruct (write_back_spec c i e e1 sto1 Hcoh Hi Hwb) as (_ & Hw2 & Hw1).
  destruct (fetch_ok _ laws _ _ _ _ _ Hal Hfetch) as [Hbuf Hsame].
  pose proof (lookup_lt_Some _ _ _ Hi) as Hlt.
  set (bn0 := pos / CACHE_BLKSZ) in *.
  assert (Hnomatch : forall k ek, entries c !! k = Some ek ->
            valid ek = true -> block_n ek ≠ bn0).
  { intros k ek Hk Hv Hbn. by apply (find_hit_None_inv _ _ _ _ Hmiss Hk). }
  assert (Hlook : forall k x, entries c' !! k = Some x ->
            (k = i /\ x = fill bn0 tp t (set_data buf e1)) \/
            (k ≠ i /\ entries c !! k = Some x)).
  { intros k x. simpl. rewrite list_lookup_insert_Some.
    intros [(-> & <- & _)|[Hne Hk]]; [by left | right; by split]. }
  assert (Hnew : entries c' !! i = Some (fill bn0 tp t (set_data buf e1))).
  { simpl. by rewrite list_lookup_insert_eq. }
  assert (Hdisk : forall k ek, k ≠ i -> entries c !! k = Some ek ->
            valid ek = true ->
            disk_block sto2 (block_n ek) = disk_block (stor c) (block_n ek)).
  { intros k ek Hne Hk Hv. rewrite Hsame. apply Hw1. intros Hve Hbn.
    apply Hne. by apply (Hnodup k i ek e). }
  split.
  - split; [|split].
    + intros k x Hk Hv Hd. simpl stor.
      destruct (Hlook k x Hk) as [[-> ->]|[Hne Hk0]]; simpl.
      * rewrite Hbuf, Hsame. done.
      * rewrite (Hdisk k x Hne Hk0 Hv). by apply (Hclean k).
    + intros k1 k2 x1 x2 Hk1 Hk2 Hv1 Hv2 Hbn.
      destruct (Hlook k1 x1 Hk1) as [[-> ->]|[Hne1 Hk10]],
               (Hlook k2 x2 Hk2) as [[-> ->]|[Hne2 Hk20]]; simpl in *.
      * done.
      * by destruct (Hnomatch k2 x2 Hk20 Hv2).
      * by destruct (Hnomatch k1 x1 Hk10 Hv1).
      * by apply (Hnodup k1 k2 x1 x2).
    + intros k x Hk Hv. destruct (Hlook k x Hk) as [[-> ->]|[Hne Hk0]]; simpl.
      * done.
      * by apply (Hblk k).
  - intros bn d [(j & ej & Hj & Hv & Hbn & ->)|[Hnone ->]].
    + destruct (decide (j = i)) as [->|Hne].
      * assert (ej = e) as -> by congruence.
        right. split.
        -- intros k x Hk [Hbnk Hvk].
           destruct (Hlook k x Hk) as [[-> ->]|[Hnek Hk0]]; simpl in *.
           ++ apply (Hnomatch i e Hi Hv). congruence.
           ++ apply Hnek. apply (Hnodup k i x e); congruence.
        -- simpl stor. rewrite Hsame, <- Hbn. symmetry. by apply Hw2.
      * left. exists j, ej. simpl. rewrite list_lookup_insert_ne by done. done.
    + destruct (decide (bn = bn0)) as [->|Hne].
      * left. exists i, (fill bn0 tp t (set_data buf e1)).
        split; [done|]. split; [done|]. split; [done|]. simpl.
        rewrite Hbuf. symmetry. apply Hw1. intros Hve Hbn.
        by apply (Hnomatch i e Hi Hve).
      * right. split.
        -- intros k x Hk [Hbnk Hvk].
           destruct (Hlook k x Hk) as [[-> ->]|[Hnek Hk0]]; simpl in *.
           ++ done.
           ++ by apply (Hnone k x Hk0).
        -- simpl stor. rewrite Hsame. symmetry. apply Hw1.
           intros Hve Hbn. by apply (Hnone i e Hi).
Qed.

Lemma u32_small x : 0 <= x < 2 ^ 32 -> u32 x = x.
Proof. intros. unfold u32. by apply Z.mod_small. Qed.

(** A successful [cache_get_block] keeps the cache coherent and shows the
    same bytes for every block. *)
Lemma cache_get_block_view tp (c : cache S) pos p c' :
  coherent disk_block c ->
  0 <= pos / CACHE_BLKSZ < 2 ^ 32 ->
  cache_get_block tp c pos = GetRet 0 (Some p) c' ->
  coherent disk_block c' /\
  forall bn, view disk_block c' bn = view disk_block c bn.
Proof.
  intros Hcoh Hrange Hget.
  assert (coherent disk_block c' /\
          forall bn d, holds disk_block c bn d -> holds disk_block c' bn d)
    as [Hcoh' Hholds].
  2:{ split; [done|]. intros bn. apply holds_view; [done|].
      apply Hholds, view_holds. }
  destruct (unpin_last_same tp c) as [Hs0 Hc0].
  unfold cache_get_block in Hget. case_decide as Hal; [done|].
  rewrite (u32_small _ Hrange) in Hget.
  set (c0 := unpin_last tp c) in *.
  pose proof (same_contents_coherent c c0 Hs0 Hc0 Hcoh) as Hcoh0.
  assert (forall bn d, holds disk_block c bn d -> holds disk_block c0 bn d) as H0
    by (intros bn d; by apply same_contents_holds).
  destruct (find_hit _ (entries c0)) as [[i e]|] eqn:Hhit.
  - apply list_find_Some in Hhit as (Hi & _).
    destruct (in_use e && _); [done|]. injection Hget as <- <-.
    assert (same_contents (entries c0)
              (<[i := pin tp (u32 (timer c0 + 1)) e]> (entries c0))) as Hsc
      by (by apply (same_contents_insert _ _ e)).
    split.
    + by apply (same_contents_coherent c0).
    + intros bn d Hd. by apply (same_contents_holds c0), H0.
  - case_decide as Hidx; [done|].
    destruct (entries c0 !! Z.to_nat _) as [e|] eqn:Hi; [|done].
    destruct (write_back c0 e) as [[[rc|] e1] sto1] eqn:Hwb; [done|].
    destruct (storage_fetch sto1 pos (data e1) CACHE_BLKSZ)
      as [[r buf] sto2] eqn:Hfetch.
    case_decide; [done|]. case_decide as Hr; [done|].
    subst r. injection Hget as <- <-.
    destruct (miss_coherent c0 _ e e1 sto1 buf sto2 pos tp
                (u32 (timer c0 + 1)) (cache_evict_entry (entries c0))
                Hcoh0 Hal Hrange Hhit Hi Hwb Hfetch) as [Hc' Hh'].
    split; [done|]. intros bn d Hd. by apply Hh', H0.
Qed.

Lemma release_clean_view (c : cache S) p :
  coherent disk_block c ->
  coherent disk_block (cache_release_block c p 0) /\
  forall bn, view disk_block (cache_release_block c p 0) bn = view disk_block c bn.
Proof.
  intros Hcoh. destruct (release_clean_same c p) as [Hs Hc].
  pose proof (same_contents_coherent _ _ Hs Hc Hcoh) as Hcoh'.
  split; [done|]. intros bn. apply holds_view; [done|].
  by apply (same_contents_holds c), view_holds.
Qed.

End CacheView.

(** ** FCNTL_SETEND with a size out of range *)

Section KtfsSetend.
Import Cache Ktfs.
Context {S : Type} `{Storage S}.
Variable disk_block : S -> Z -> list Z.
Hypothesis laws : storage_laws disk_block.
Variable tp : Z.

Lemma cache_get_block_code (c : cache S) pos code p c' :
  cache_get_block tp c pos = GetRet code (Some p) c' -> code = 0.
Proof.
  unfold cache_get_block. case_decide; [done|].
  destruct (find_hit _ _) as [[i e]|].
  - destruct (in_use e && _); [done|]. by intros [= <- _ _].
  - case_decide; [done|]. destruct (entries _ !! _) as [e|]; [|done].
    destruct (write_back _ e) as [[[rc|] e1] sto1]; [done|].
    destruct (storage_fetch _ _ _ _) as [[r buf] sto2].
    repeat case_decide; try done. by intros [= <- _ _].
Qed.

Lemma get_block_Ok_inv pos (c : cache S) p c' :
  get_block tp pos c = Ok p c' ->
  cache_get_block tp c pos = GetRet 0 (Some p) c'.
Proof.
  unfold get_block. destruct (cache_get_block tp c pos) as [code pptr c1|] eqn:Hg;
    [|done].
  case_decide; [done|]. destruct pptr as [q|]; [|done].
  intros [= <- <-]. by rewrite (cache_get_block_code _ _ _ _ _ Hg).
Qed.

(** Fetching a block, looking at it and releasing it clean. *)
Lemma read_block_view {A} pos (f : list Z -> A) (c : cache S) a c' :
  coherent disk_block c -> 0 <= pos / CACHE_BLKSZ < 2 ^ 32 ->
  bind (get_block tp pos)
    (fun p => bind (load p) (fun b => bind (release_block p 0)
       (fun _ => ret (f b)))) c = Ok a c' ->
  coherent disk_block c' /\
  forall bn, view disk_block c' bn = view disk_block c bn.
Proof.
  intros Hcoh Hrange. unfold bind.
  destruct (get_block tp pos c) as [p c1| | |] eqn:Hg; try done.
  apply get_block_Ok_inv in Hg.
  destruct (cache_get_block_view disk_block laws tp c pos p c1 Hcoh Hrange Hg)
    as [Hcoh1 Hv1].
  unfold load. destruct (block_at c1 p); [|done].
  unfold release_block, ret. intros [= _ <-].
  destruct (release_clean_view disk_block c1 p Hcoh1) as [Hcoh2 Hv2].
  split; [done|]. intros bn. by rewrite Hv2.
Qed.

Lemma ktfs_read_super_view (c : cache S) sb c' :
  coherent disk_block c -> ktfs_read_super tp c = Ok sb c' ->
  coherent disk_block c' /\
  forall bn, view disk_block c' bn = view disk_block c bn.
Proof.
  intros Hcoh Hr. apply (read_block_view 0 decode_super c sb c'); done.
Qed.

Lemma ktfs_inode_grab_view inum sb (c : cache S) ino c' :
  coherent disk_block c ->
  0 <= inode_block_pos sb inum / CACHE_BLKSZ < 2 ^ 32 ->
  ktfs_inode_grab tp inum sb c = Ok ino c' ->
  coherent disk_block c' /\
  forall bn, view disk_block c' bn = view disk_block c bn.
Proof.
  intros Hcoh Hrange Hr.
  by apply (read_block_view (inode_block_pos sb inum)
              (fun b => decode_inode b (u64 (inum * KTFS_INOSZ) mod KTFS_BLKSZ))
              c ino c').
Qed.

(** C10: FCNTL_SETEND with a size below the file's current size or above
    KTFS_MAX_FILE_SIZE returns -EINVAL; the handle (position and size) is
    unchanged, and every block of the file system (inode table, bitmaps
    and all others) reads as before the call; so only sizes from the
    current size to KTFS_MAX_FILE_SIZE can succeed. *)
Theorem ktfs_setend_out_of_range kuio (c c1 c2 : cache S) sb ino :
  coherent disk_block c ->
  ktfs_read_super tp c = Ok sb c1 ->
  ktfs_inode_grab tp (inode_number kuio) sb c1 = Ok ino c2 ->
  0 <= inode_block_pos sb (inode_number kuio) / CACHE_BLKSZ < 2 ^ 32 ->
  (forall newend,
     newend < size ino \/ KTFS_MAX_FILE_SIZE < newend ->
     ktfs_cntl tp kuio FCNTL_SETEND (Some newend) c = Ok (- EINVAL, kuio, None) c2) /\
  coherent disk_block c2 /\
  (forall bn, view disk_block c2 bn = view disk_block c bn) /\
  (forall newend kuio' out c',
     ktfs_cntl tp kuio FCNTL_SETEND (Some newend) c = Ok (0, kuio', out) c' ->
     size ino <= newend <= KTFS_MAX_FILE_SIZE).
Proof.
  intros Hcoh Hsb Hino Hrange.
  assert (Hrej : forall newend,
            newend < size ino \/ KTFS_MAX_FILE_SIZE < newend ->
            ktfs_cntl tp kuio FCNTL_SETEND (Some newend) c
              = Ok (- EINVAL, kuio, None) c2).
  { intros newend Hout. unfold ktfs_cntl.
    rewrite decide_False by done. rewrite decide_True by done.
    unfold bind, attempt. rewrite Hsb, Hino. unfold setend_body.
    case_decide; [done|]. by rewrite decide_True by lia. }
  split; [done|].
  destruct (ktfs_read_super_view c sb c1 Hcoh Hsb) as [Hcoh1 Hv1].
  destruct (ktfs_inode_grab_view _ sb c1 ino c2 Hcoh1 Hrange Hino) as [Hcoh2 Hv2].
  split; [done|]. split; [intros bn; by rewrite Hv2|].
  intros newend kuio' out c' Hok.
  destruct (decide (newend < size ino \/ KTFS_MAX_FILE_SIZE < newend)) as [Hout|Hin];
    [|lia].
  rewrite (Hrej newend Hout) in Hok. discriminate Hok.
Qed.

End KtfsSetend.

Section SetendOnImage.
Import Cache Ktfs Image.

(** The example device keeps the laws of a block store. *)
Lemma disk_laws : storage_laws Disk.block.
Proof.
  split.
  - intros s pos buf buf' s' _. simpl. unfold Disk.fetch.
    case_decide; [intros Hc; by inversion Hc|].
    case_decide; [intros Hc; by inversion Hc|].
    intros Hc. inversion Hc; subst. done.
  - intros s pos buf s' _. simpl. unfold Disk.store.
    case_decide; [intros Hc; by inversion Hc|].
    case_decide as Hr; [intros Hc; by inversion Hc|].
    intros Hc. inversion Hc; subst. clear Hc.
    unfold Disk.capacity in Hr. unfold Disk.block. simpl.
    change CACHE_BLKSZ with 512 in *.
    assert (0 <= pos / 512 < Z.of_nat (length (Disk.contents s))) as Hbn.
    { split; [apply Z.div_pos; lia|apply Z.div_lt_upper_bound; lia]. }
    split.
    + rewrite decide_False by lia.
      rewrite list_lookup_insert_eq by lia. done.
    + intros bn Hne. case_decide; [done|].
      rewrite list_lookup_insert_ne by lia. done.
Qed.

(** A cache just created holds no block, so it agrees with any device. *)
Lemma create_cache_coherent {S} (disk_block : S -> Z -> list Z) disk bufs :
  coherent disk_block (create_cache disk bufs).
Proof.
  assert (forall i e, entries (create_cache disk bufs) !! i = Some e ->
                      valid e = false) as Hinv.
  { intros i e Hi. apply list_elem_of_lookup_2, list_elem_of_In in Hi.
    simpl in Hi. apply in_map_iff in Hi as (b & <- & _). done. }
  split; [|split].
  - intros i e Hi Hv. rewrite (Hinv i e Hi) in Hv. discriminate Hv.
  - intros i j e e' Hi _ Hv. rewrite (Hinv i e Hi) in Hv. discriminate Hv.
  - intros i e Hi Hv. rewrite (Hinv i e Hi) in Hv. discriminate Hv.
Qed.

Lemma ktfs_setend_out_of_range_witness :
  ktfs_cntl 1 hello FCNTL_SETEND (Some 100) mounted
    = Ok (- EINVAL, hello, None)
         (final (ktfs_inode_grab 1 1 image_super
                   (final (ktfs_read_super 1 mounted)))) /\
  forall bn,
    view Disk.block (final (ktfs_inode_grab 1 1 image_super
                              (final (ktfs_read_super 1 mounted)))) bn
      = view Disk.block mounted bn.
Proof.
  destruct (ktfs_setend_out_of_range Disk.block disk_laws 1 hello mounted
              (final (ktfs_read_super 1 mounted))
              (final (ktfs_inode_grab 1 1 image_super
                        (final (ktfs_read_super 1 mounted))))
              image_super hello_inode) as (Hrej & _ & Hview & _).
  - apply create_cache_coherent.
  - vm_compute. reflexivity.
  - vm_compute. reflexivity.
  - vm_compute. split; [intros Hc; discriminate Hc|reflexivity].
  - split; [|exact Hview]. apply Hrej. left. vm_compute. reflexivity.
Defined.

(** Growing the file is accepted: the inode on the device gets the new size. *)
Example setend_grows :
  value (ktfs_cntl 1 hello FCNTL_SETEND (Some 1025) mounted)
    = Some (0, Uio 1025 0 0 1, None).
Proof. vm_compute. reflexivity. Qed.

End SetendOnImage.

(** ** sys/cache.c : reading and writing blocks through the cache *)

Section CacheIO.
Import Cache.
Context {S : Type} `{Storage S}.
Variable disk_block : S -> Z -> list Z.
Hypothesis laws : storage_laws disk_block.

Lemma cache_wf_ptrs (c c' : cache S) :
  data_ptr <$> entries c' = data_ptr <$> entries c -> cache_wf c -> cache_wf c'.
Proof.
  intros Hp (Hlen & Hnd & Hnz). split; [|split].
  - rewrite <- (length_fmap data_ptr), Hp, length_fmap. done.
  - by rewrite Hp.
  - apply (Forall_fmap data_ptr (fun p => p ≠ 0)). rewrite Hp.
    by apply (Forall_fmap data_ptr (fun p => p ≠ 0)).
Qed.

Lemma block_at_entry (c : cache S) i e :
  cache_wf c -> entries c !! i = Some e ->
  block_at c (data_ptr e) = Some (data e).
Proof.
  intros (_ & Hnd & _) Hi. unfold block_at.
  rewrite (list_find_by_ptr (fun x => data_ptr x = data_ptr e) _ i e); done.
Qed.

Lemma store_at_entry (c : cache S) i e buf :
  cache_wf c -> entries c !! i = Some e ->
  store_at c (data_ptr e) buf =
    Cache (stor c) (<[i := set_data buf e]> (entries c)) (timer c) (last_used c).
Proof.
  intros (_ & Hnd & _) Hi. unfold store_at.
  rewrite (list_find_by_ptr (fun x => data_ptr x = data_ptr e) _ i e); done.
Qed.

Lemma release_entry (c : cache S) i e d :
  cache_wf c -> entries c !! i = Some e -> valid e = true ->
  cache_release_block c (data_ptr e) d =
    Cache (stor c)
      (<[i := unpin (if decide (d ≠ 0) then set_dirty true e else e)]> (entries c))
      (timer c) (last_used c).
Proof.
  intros (_ & Hnd & Hnz) Hi Hv. unfold cache_release_block.
  rewrite Forall_lookup in Hnz. rewrite decide_False by (by apply (Hnz i)).
  rewrite (list_find_by_ptr (fun x => valid x = true /\ data_ptr x = data_ptr e)
             _ i e); [done..|]. by intros x [_ ?].
Qed.

(** Replacing an entry by one for the same block that is marked dirty. *)
Lemma update_dirty_coherent (c : cache S) i e e' :
  coherent disk_block c -> entries c !! i = Some e ->
  block_n e' = block_n e -> valid e' = valid e -> dirty e' = true ->
  coherent disk_block
    (Cache (stor c) (<[i := e']> (entries c)) (timer c) (last_used c)).
Proof.
  intros (Hclean & Hnodup & Hrange) Hi Hbn Hv Hd.
  assert (Hlook : forall k x, <[i := e']> (entries c) !! k = Some x ->
            (k = i /\ x = e') \/ (k ≠ i /\ entries c !! k = Some x)).
  { intros k x. rewrite list_lookup_insert_Some.
    intros [(-> & <- & _)|[Hne Hk]]; [by left | right; by split]. }
  split; [|split]; simpl.
  - intros k x Hk Hvx Hdx. destruct (Hlook k x Hk) as [[-> ->]|[Hne Hk0]].
    + congruence.
    + by apply (Hclean k).
  - intros k1 k2 x1 x2 Hk1 Hk2 Hv1 Hv2 Hb.
    destruct (Hlook k1 x1 Hk1) as [[-> ->]|[Hne1 Hk10]],
             (Hlook k2 x2 Hk2) as [[-> ->]|[Hne2 Hk20]].
    + done.
    + apply (Hnodup i k2 e x2); congruence.
    + apply (Hnodup k1 i x1 e); congruence.
    + by apply (Hnodup k1 k2 x1 x2).
  - intros k x Hk Hvx. destruct (Hlook k x Hk) as [[-> ->]|[Hne Hk0]].
    + rewrite Hbn. apply (Hrange i e); congruence.
    + by apply (Hrange k).
Qed.

Lemma update_dirty_view (c : cache S) i e e' :
  coherent disk_block c -> entries c !! i = Some e ->
  block_n e' = block_n e -> valid e' = valid e -> dirty e' = true ->
  valid e = true ->
  let c' := Cache (stor c) (<[i := e']> (entries c)) (timer c) (last_used c) in
  view disk_block c' (block_n e) = data e' /\
  forall bn, bn ≠ block_n e -> view disk_block c' bn = view disk_block c bn.
Proof.
  intros Hcoh Hi Hbn Hv Hd Hve c'.
  pose proof (update_dirty_coherent c i e e' Hcoh Hi Hbn Hv Hd) as Hcoh'.
  fold c' in Hcoh'. pose proof (lookup_lt_Some _ _ _ Hi) as Hlt.
  destruct Hcoh as (_ & Hnodup & _). split.
  - apply holds_view; [done|]. left. exists i, e'. simpl.
    rewrite list_lookup_insert_eq by done. repeat split; congruence.
  - intros bn Hne. apply holds_view; [done|].
    destruct (view_holds disk_block c bn) as [(j & ej & Hj & Hvj & Hbj & Hd')|[Hnone Hd']].
    + left. exists j, ej. simpl.
      rewrite list_lookup_insert_ne by (intros ->; congruence). done.
    + right. split; [|done]. intros k x. simpl.
      rewrite list_lookup_insert_Some.
      intros [(-> & <- & _)|[Hnek Hk]] [Hb Hvx]; [congruence|].
      by apply (Hnone k x Hk).
Qed.

(** What a successful [cache_get_block] gives: the pinned entry holds the
    bytes the cache showed for the block. *)
Lemma get_block_entry tp (c : cache S) pos p c1 :
  cache_wf c -> coherent disk_block c ->
  0 <= pos / CACHE_BLKSZ < 2 ^ 32 ->
  cache_get_block tp c pos = GetRet 0 (Some p) c1 ->
  cache_wf c1 /\ coherent disk_block c1 /\
  (forall bn, view disk_block c1 bn = view disk_block c bn) /\
  exists i e1,
    entries c1 !! i = Some e1 /\ data_ptr e1 = p /\
    block_n e1 = pos / CACHE_BLKSZ /\ valid e1 = true /\
    data e1 = view disk_block c (pos / CACHE_BLKSZ) /\
    in_use e1 = true /\ owner_tid e1 = tp /\ last_used c1 = Z.of_nat i.
Proof.
  intros Hwf Hcoh Hrange Hget.
  destruct (cache_get_block_view disk_block laws tp c pos p c1 Hcoh Hrange Hget)
    as [Hcoh1 Hview].
  apply cache_get_block_success in Hget
    as (Hal & Hptrs & i & e1 & Hi & Hlast & Hp & Hbn & Hv & Hu & Ho & _).
  rewrite (u32_small _ Hrange) in Hbn.
  split; [by apply (cache_wf_ptrs c)|]. split; [done|]. split; [done|].
  exists i, e1. repeat split; try done.
  rewrite <- Hview. symmetry. apply holds_view; [done|].
  left. by exists i, e1.
Qed.

Lemma get_block_bytes tp (c : cache S) pos p c1 :
  cache_wf c -> coherent disk_block c ->
  0 <= pos / CACHE_BLKSZ < 2 ^ 32 ->
  cache_get_block tp c pos = GetRet 0 (Some p) c1 ->
  block_at c1 p = Some (view disk_block c (pos / CACHE_BLKSZ)).
Proof.
  intros Hwf Hcoh Hrange Hget.
  destruct (get_block_entry tp c pos p c1 Hwf Hcoh Hrange Hget)
    as (Hwf1 & Hcoh1 & Hview & i & e1 & Hi & Hp & _ & _ & Hdata & _).
  rewrite <- Hp, <- Hdata. by apply (block_at_entry c1 i).
Qed.

(** A block that is in the cache and not pinned by another thread is
    handed out without waiting. *)
Lemma get_block_cached tp (c : cache S) pos i e :
  coherent disk_block c ->
  pos mod CACHE_BLKSZ = 0 -> 0 <= pos / CACHE_BLKSZ < 2 ^ 32 ->
  entries c !! i = Some e -> valid e = true ->
  block_n e = pos / CACHE_BLKSZ ->
  in_use e = false \/ owner_tid e = tp ->
  exists c1, cache_get_block tp c pos = GetRet 0 (Some (data_ptr e)) c1.
Proof.
  intros Hcoh Hal Hrange Hi Hv Hbn Hfree.
  destruct (unpin_last_same tp c) as [Hs0 [Hfwd Hback]].
  pose proof (same_contents_coherent disk_block c _ Hs0 (conj Hfwd Hback) Hcoh)
    as (_ & Hnodup0 & _).
  unfold cache_get_block. rewrite decide_False by (intros Hne; by apply Hne).
  rewrite (u32_small _ Hrange).
  destruct (Hfwd i e Hi) as (e0 & Hi0 & Hbn0 & Hv0 & _).
  assert (data_ptr e0 = data_ptr e /\
          (in_use e0 = false \/ owner_tid e0 = tp)) as [Hp0 Hfree0].
  { revert Hi0. unfold unpin_last. case_decide; [|intros; split; congruence].
    destruct (entries c !! Z.to_nat (last_used c)) as [el|] eqn:Hl;
      [|intros; split; congruence].
    case_decide; [|intros; split; congruence]. simpl.
    rewrite list_lookup_insert_Some.
    intros [(Heq & <- & _)|[_ Hk]]; [|split; congruence].
    assert (el = e) as -> by congruence. split; [done|by left]. }
  destruct (find_hit _ _) as [[j ej]|] eqn:Hhit.
  - apply list_find_Some in Hhit as (Hj & [Hbj Hvj] & _).
    assert (j = i) as -> by (apply (Hnodup0 j i ej e0); congruence).
    assert (ej = e0) as -> by congruence.
    assert (in_use e0 && negb (bool_decide (owner_tid e0 = tp)) = false) as ->.
    { destruct Hfree0 as [->| ->]; [done|].
      rewrite bool_decide_true by done. by rewrite andb_false_r. }
    rewrite Hp0. by eexists.
  - exfalso. apply (find_hit_None_inv _ _ _ _ Hhit Hi0). split; congruence.
Qed.

(** Writing through the pointer of a valid entry and releasing it dirty. *)
Lemma write_release_entry (c : cache S) i e buf :
  cache_wf c -> coherent disk_block c ->
  entries c !! i = Some e -> valid e = true ->
  let c' := cache_release_block (store_at c (data_ptr e) buf) (data_ptr e) 1 in
  cache_wf c' /\ coherent disk_block c' /\
  view disk_block c' (block_n e) = buf /\
  (forall bn, bn ≠ block_n e -> view disk_block c' bn = view disk_block c bn) /\
  exists e', entries c' !! i = Some e' /\ valid e' = true /\
    block_n e' = block_n e /\ data_ptr e' = data_ptr e /\ in_use e' = false.
Proof.
  intros Hwf Hcoh Hi Hv c'.
  pose proof (lookup_lt_Some _ _ _ Hi) as Hlt.
  set (c1 := store_at c (data_ptr e) buf).
  assert (c1 = Cache (stor c) (<[i := set_data buf e]> (entries c))
                     (timer c) (last_used c)) as Hc1
    by (by apply store_at_entry).
  assert (data_ptr <$> entries c1 = data_ptr <$> entries c) as Hp1.
  { rewrite Hc1. simpl. by apply (ptrs_insert _ _ e). }
  pose proof (cache_wf_ptrs c c1 Hp1 Hwf) as Hwf1.
  assert (entries c1 !! i = Some (set_data buf e)) as Hi1.
  { rewrite Hc1. simpl. by rewrite list_lookup_insert_eq. }
  assert (c' = Cache (stor c)
                (<[i := unpin (set_dirty true (set_data buf e))]> (entries c))
                (timer c) (last_used c)) as Hc'.
  { unfold c'. fold c1.
    pose proof (release_entry c1 i (set_data buf e) 1 Hwf1 Hi1 Hv) as Hr.
    change (data_ptr (set_data buf e)) with (data_ptr e) in Hr. rewrite Hr.
    rewrite decide_True by done. rewrite Hc1. simpl.
    by rewrite list_insert_insert_eq. }
  rewrite Hc'.
  set (e' := unpin (set_dirty true (set_data buf e))).
  split.
  { apply (cache_wf_ptrs c); [|done]. simpl. by apply (ptrs_insert _ _ e). }
  split; [by apply (update_dirty_coherent c i e e')|].
  destruct (update_dirty_view c i e e' Hcoh Hi eq_refl eq_refl eq_refl Hv)
    as [Hv1 Hv2].
  split; [done|]. split; [done|].
  exists e'. simpl. by rewrite list_lookup_insert_eq.
Qed.

End CacheIO.

(** ** sys/cache.c : what a user of the cache can rely on *)

Section CacheUse.
Import Cache CacheFlush.
Context {S : Type} `{Storage S}.
Variable disk_block : S -> Z -> list Z.
Hypothesis laws : storage_laws disk_block.



(** X3: A block handed to one thread is not handed to another: while thread
    [tp] holds the block, [cache_get_block] of a thread [tq] for the same
    block goes to sleep on the cache's condition, one more waiter being
    counted on the entry, and gets no pointer. *)
Theorem cache_block_held_by_other_thread_waits tp tq (c : cache S) pos p c1 :
  tq ≠ tp ->
  cache_get_block tp c pos = GetRet 0 (Some p) c1 ->
  exists i e1,
    entries c1 !! i = Some e1 /\ data_ptr e1 = p /\
    cache_get_block tq c1 pos =
      GetWait i (Cache (stor c1) (<[i := add_waiter 1 e1]> (entries c1))
                       (timer c1) (last_used c1)).
Proof.
  intros Hne Hget.
  apply cache_get_block_success in Hget
    as (Hal & _ & i & e1 & Hi & Hlast & Hp & Hbn & Hv & Hu & Ho & Hfirst).
  exists i, e1. split; [done|]. split; [done|].
  unfold cache_get_block. rewrite decide_False by (intros Hc; by apply Hc).
  assert (unpin_last tq c1 = c1) as ->.
  { unfold unpin_last. rewrite decide_True by lia.
    rewrite Hlast, Nat2Z.id, Hi. by rewrite decide_False by congruence. }
  assert (find_hit (u32 (pos / CACHE_BLKSZ)) (entries c1) = Some (i, e1)) as ->.
  { apply list_find_Some. split; [done|]. split; [done|].
    intros j y Hj Hlt. by apply (Hfirst j y). }
  rewrite Hu, Ho. by rewrite bool_decide_false by congruence.
Qed.

(** *** Flushing *)

Lemma write_back_entry (c : cache S) e e1 sto1 :
  write_back c e = (None, e1, sto1) ->
  block_n e1 = block_n e /\ valid e1 = valid e /\ data e1 = data e /\
  data_ptr e1 = data_ptr e /\
  (valid e1 = true -> dirty e1 = false) /\
  (valid e && dirty e = false -> e1 = e /\ sto1 = stor c).
Proof.
  unfold write_back. destruct (valid e) eqn:Hv, (dirty e) eqn:Hd; simpl;
    try (intros [= <- <-]; by rewrite ?Hv, ?Hd).
  destruct (storage_store _ _ _ _) as [r sto].
  case_decide; [done|]. case_decide; [done|].
  intros [= <- <-]. simpl. by rewrite Hv.
Qed.

(** One round of the loop of [cache_flush]. *)
Lemma flush_entry_spec (c c' : cache S) i :
  coherent disk_block c -> flush_entry c i = (None, c') ->
  coherent disk_block c' /\
  (forall bn d, holds disk_block c bn d -> holds disk_block c' bn d) /\
  data_ptr <$> entries c' = data_ptr <$> entries c /\
  (forall j e', entries c' !! j = Some e' -> valid e' = true ->
     (j = i \/ exists e, entries c !! j = Some e /\ valid e = true /\
                         dirty e = false) ->
     dirty e' = false).
Proof.
  intros Hcoh. unfold flush_entry.
  destruct (entries c !! i) as [e|] eqn:Hi.
  2:{ intros [= <-]. split; [done|]. split; [done|]. split; [done|].
      intros j e' Hj Hv [->|(e & He & _ & Hd)]; congruence. }
  destruct (write_back c e) as [[[rc|] e1] sto1] eqn:Hwb; [done|].
  intros [= <-].
  destruct (write_back_spec disk_block laws c i e e1 sto1 Hcoh Hi Hwb)
    as (_ & Hw2 & Hw1).
  destruct (write_back_entry c e e1 sto1 Hwb) as (Hbn & Hv & Hdata & Hp & Hcl & _).
  pose proof Hcoh as (Hclean & Hnodup & Hrange).
  pose proof (lookup_lt_Some _ _ _ Hi) as Hlt.
  assert (Hlook : forall k x, <[i := e1]> (entries c) !! k = Some x ->
            (k = i /\ x = e1) \/ (k ≠ i /\ entries c !! k = Some x)).
  { intros k x. rewrite list_lookup_insert_Some.
    intros [(-> & <- & _)|[Hne Hk]]; [by left | right; by split]. }
  split; [split; [|split]|split; [|split]]; simpl.
  - intros k x Hk Hvx Hdx. destruct (Hlook k x Hk) as [[-> ->]|[Hne Hk0]].
    + rewrite Hdata, Hbn. symmetry. apply Hw2. congruence.
    + rewrite Hw1; [by apply (Hclean k)|]. intros Hve Hb. apply Hne.
      by apply (Hnodup k i x e).
  - intros k1 k2 x1 x2 Hk1 Hk2 Hv1 Hv2 Hb.
    destruct (Hlook k1 x1 Hk1) as [[-> ->]|[Hne1 Hk10]],
             (Hlook k2 x2 Hk2) as [[-> ->]|[Hne2 Hk20]].
    + done.
    + apply (Hnodup i k2 e x2); congruence.
    + apply (Hnodup k1 i x1 e); congruence.
    + by apply (Hnodup k1 k2 x1 x2).
  - intros k x Hk Hvx. destruct (Hlook k x Hk) as [[-> ->]|[Hne Hk0]].
    + rewrite Hbn. apply (Hrange i e); congruence.
    + by apply (Hrange k).
  - intros bn d [(j & ej & Hj & Hvj & Hbj & ->)|[Hnone ->]].
    + left. destruct (decide (j = i)) as [->|Hne].
      * assert (ej = e) as -> by congruence. exists i, e1. simpl.
        rewrite list_lookup_insert_eq by done. repeat split; congruence.
      * exists j, ej. simpl. by rewrite list_lookup_insert_ne.
    + right. split.
      * intros k x Hk [Hb Hvx]. simpl in Hk.
        destruct (Hlook k x Hk) as [[-> ->]|[Hne Hk0]].
        -- apply (Hnone i e Hi). split; congruence.
        -- by apply (Hnone k x Hk0).
      * symmetry. apply Hw1. intros Hve Hb. by apply (Hnone i e Hi).
  - by apply (ptrs_insert _ _ e).
  - intros j e' Hj Hve' Hcase. destruct (Hlook j e' Hj) as [[-> ->]|[Hne Hj0]].
    + by apply Hcl.
    + destruct Hcase as [->|(e0 & He0 & _ & Hd0)]; [done|]. congruence.
Qed.

Lemma flush_loop_spec n : forall i (c c' : cache S),
  (forall s pos buf r s',
     storage_store s pos buf CACHE_BLKSZ = (r, s') -> - 2 ^ 31 <= r) ->
  coherent disk_block c -> flush_loop n i c = (0, c') ->
  (forall j e, (j < i)%nat -> entries c !! j = Some e -> valid e = true ->
     dirty e = false) ->
  coherent disk_block c' /\
  (forall bn d, holds disk_block c bn d -> holds disk_block c' bn d) /\
  data_ptr <$> entries c' = data_ptr <$> entries c /\
  (forall j e', (j < i + n)%nat -> entries c' !! j = Some e' ->
     valid e' = true -> dirty e' = false).
Proof.
  induction n as [|n IH]; intros i c c' Hcodes Hcoh Hrun Hdone.
  - injection Hrun as <-. split; [done|]. split; [done|]. split; [done|].
    intros j e' Hlt. apply Hdone. lia.
  - simpl in Hrun. destruct (flush_entry c i) as [[rc|] c1] eqn:Hstep.
    + exfalso. injection Hrun as -> _. revert Hstep. unfold flush_entry.
      destruct (entries c !! i) as [e|]; [|done].
      unfold write_back. destruct (valid e && dirty e); [|done].
      destruct (storage_store _ _ _ _) as [r sto] eqn:Hst.
      apply Hcodes in Hst. case_decide as Hneg.
      * intros [= Hz _]. unfold to_int in Hz.
        rewrite Z.mod_small in Hz by lia. lia.
      * case_decide; [|done]. intros Hc. by inversion Hc.
    + destruct (flush_entry_spec c c1 i Hcoh Hstep) as (Hcoh1 & Hh1 & Hp1 & Hcl1).
      destruct (IH (Datatypes.S i) c1 c' Hcodes Hcoh1 Hrun) as (Hcoh' & Hh' & Hp' & Hcl').
      { intros j e1 Hlt Hj Hv. apply (Hcl1 j e1 Hj Hv).
        destruct (decide (j = i)) as [->|Hne]; [by left|]. right.
        assert (entries c !! j = Some e1) as Hj0.
        { revert Hstep Hj. unfold flush_entry.
          destruct (entries c !! i) as [e|] eqn:Hi; [|by intros [= <-]].
          destruct (write_back c e) as [[[rc|] e2] sto1]; [done|].
          intros [= <-]. simpl. by rewrite list_lookup_insert_ne. }
        exists e1. split; [done|]. split; [done|]. apply (Hdone j); [lia|done..]. }
      split; [done|]. split; [intros bn d Hd; by apply Hh', Hh1|].
      split; [by rewrite Hp'|].
      intros j e' Hlt. apply Hcl'. lia.
Qed.

(** X4: After a [cache_flush] that returned 0 nothing is left to write: no
    valid entry is dirty, every block reads as before, and the device
    itself holds, for every block, the bytes the cache showed. *)
Theorem cache_flush_makes_device_current (c c' : cache S) :
  (forall s pos buf r s',
     storage_store s pos buf CACHE_BLKSZ = (r, s') -> - 2 ^ 31 <= r) ->
  cache_wf c -> coherent disk_block c ->
  cache_flush c = (0, c') ->
  (forall i e, entries c' !! i = Some e -> valid e = true -> dirty e = false) /\
  (forall bn, view disk_block c' bn = view disk_block c bn) /\
  (forall bn, disk_block (stor c') bn = view disk_block c bn) /\
  cache_wf c' /\ coherent disk_block c'.
Proof.
  intros Hcodes Hwf Hcoh Hrun.
  destruct (flush_loop_spec 64 0 c c' Hcodes Hcoh Hrun) as (Hcoh' & Hh & Hp & Hcl).
  { intros j e Hlt. lia. }
  pose proof (cache_wf_ptrs c c' Hp Hwf) as Hwf'.
  assert (Hclean : forall i e, entries c' !! i = Some e -> valid e = true ->
            dirty e = false).
  { intros i e Hi. apply (Hcl i); [|done].
    destruct Hwf' as [Hlen _]. apply lookup_lt_Some in Hi. lia. }
  assert (Hview : forall bn, view disk_block c' bn = view disk_block c bn).
  { intros bn. apply holds_view; [done|]. apply Hh, view_holds. }
  split; [done|]. split; [done|]. split; [|done].
  intros bn. rewrite <- Hview.
  destruct (view_holds disk_block c' bn) as [(i & e & Hi & Hv & Hbn & ->)|[_ ->]];
    [|done].
  destruct Hcoh' as (Hcl' & _). rewrite <- Hbn. symmetry.
  apply (Hcl' i); [done..|]. by apply (Hclean i).
Qed.

End CacheUse.

Section CacheUseExamples.
Import Cache CacheFlush Disk DiskExamples.

Lemma fresh_coherent : coherent Disk.block fresh.
Proof. apply create_cache_coherent. Qed.

Lemma fresh_get_5 :
  cache_get_block 1 fresh (512 * 5) = GetRet 0 (Some 0x10000) after_get.
Proof. vm_compute. reflexivity. Qed.

Lemma block_5_in_range : 0 <= 512 * 5 / CACHE_BLKSZ < 2 ^ 32.
Proof. by vm_compute. Qed.

Lemma disk_store_codes (s : disk) pos buf r s' :
  storage_store s pos buf CACHE_BLKSZ = (r, s') -> - 2 ^ 31 <= r.
Proof.
  simpl. unfold Disk.store. repeat case_decide; intros [= <- _]; by vm_compute.
Qed.

Lemma written_wf_coherent : cache_wf written /\ coherent Disk.block written.
Proof.
  destruct (get_block_entry Disk.block disk_laws 1 fresh (512 * 5) 0x10000
              after_get fresh_wf fresh_coherent block_5_in_range fresh_get_5)
    as (Hwf1 & Hcoh1 & _ & i & e1 & Hi & Hp & _ & Hv & _).
  destruct (write_release_entry Disk.block after_get i e1 (replicate 512 9)
              Hwf1 Hcoh1 Hi Hv) as (Hwf3 & Hcoh3 & _).
  rewrite Hp in Hwf3, Hcoh3. by split.
Qed.



Lemma cache_block_held_by_other_thread_waits_witness :
  exists i e1,
    entries after_get !! i = Some e1 /\ data_ptr e1 = 0x10000 /\
    cache_get_block 2 after_get (512 * 5) =
      GetWait i (Cache (stor after_get) (<[i := add_waiter 1 e1]> (entries after_get))
                       (timer after_get) (last_used after_get)).
Proof.
  apply (cache_block_held_by_other_thread_waits 1 2 fresh (512 * 5) 0x10000 after_get).
  - lia.
  - vm_compute. reflexivity.
Defined.

Lemma cache_flush_makes_device_current_witness :
  (forall bn, Disk.block (stor (snd (cache_flush written))) bn
              = view Disk.block written bn) /\
  view Disk.block written 5 = replicate 512 9 /\
  Disk.block (stor written) 5 = replicate 512 6.
Proof.
  destruct (cache_flush_makes_device_current Disk.block disk_laws written
              (snd (cache_flush written))) as (_ & _ & Hdev & _).
  - exact disk_store_codes.
  - exact (proj1 written_wf_coherent).
  - exact (proj2 written_wf_coherent).
  - vm_compute. reflexivity.
  - split; [exact Hdev|]. split; vm_compute; reflexivity.
Defined.

End CacheUseExamples.

(** ** sys/ktfs.c : inodes in their table block *)

Section KtfsCodec.
Import Cache Ktfs KtfsMore.

Lemma byte_at_app_l a l k :
  0 <= k < Z.of_nat (length a) -> byte_at (a ++ l) k = byte_at a k.
Proof.
  intros Hk. unfold byte_at. by rewrite lookup_app_l by lia.
Qed.

Lemma byte_at_app_r a l k :
  0 <= k -> byte_at (a ++ l) (Z.of_nat (length a) + k) = byte_at l k.
Proof.
  intros Hk. unfold byte_at. rewrite lookup_app_r by lia.
  do 2 f_equal. lia.
Qed.

(** [memcpy(buf + off, bytes, n)] puts [bytes] at [off] ... *)
Lemma byte_at_splice_in b off bytes k :
  0 <= off <= Z.of_nat (length b) -> 0 <= k < Z.of_nat (length bytes) ->
  byte_at (splice b off bytes) (off + k) = byte_at bytes k.
Proof.
  intros Hoff Hk. unfold splice.
  replace (off + k) with (Z.of_nat (length (take (Z.to_nat off) b)) + k)
    by (rewrite length_take; lia).
  rewrite byte_at_app_r by lia. by apply byte_at_app_l.
Qed.

(** ... and leaves the bytes before and after as they were. *)
Lemma byte_at_splice_out b off bytes k :
  0 <= off <= Z.of_nat (length b) ->
  0 <= k -> k < off \/ off + Z.of_nat (length bytes) <= k ->
  byte_at (splice b off bytes) k = byte_at b k.
Proof.
  intros Hoff Hk0 Hk. unfold splice, byte_at.
  destruct (decide (k < off)) as [Hlt|Hge].
  - rewrite lookup_app_l by (rewrite length_take; lia).
    by rewrite lookup_take_lt by lia.
  - rewrite lookup_app_r by (rewrite length_take; lia).
    rewrite lookup_app_r by (rewrite length_take; lia).
    rewrite lookup_drop, length_take. do 2 f_equal. lia.
Qed.

Lemma le32_splice_in b off bytes k :
  0 <= off <= Z.of_nat (length b) -> 0 <= k -> k + 4 <= Z.of_nat (length bytes) ->
  le32 (splice b off bytes) (off + k) = le32 bytes k.
Proof.
  intros Hoff Hk0 Hk. unfold le32.
  rewrite <- !Z.add_assoc.
  rewrite !byte_at_splice_in by lia. done.
Qed.

Lemma le32_splice_out b off bytes k :
  0 <= off <= Z.of_nat (length b) ->
  0 <= k -> k + 4 <= off \/ off + Z.of_nat (length bytes) <= k ->
  le32 (splice b off bytes) k = le32 b k.
Proof.
  intros Hoff Hk0 Hk. unfold le32.
  rewrite !byte_at_splice_out by lia. done.
Qed.

Lemma le32_app_r a l k :
  0 <= k -> le32 (a ++ l) (Z.of_nat (length a) + k) = le32 l k.
Proof.
  intros Hk. unfold le32. rewrite <- !Z.add_assoc.
  by rewrite !byte_at_app_r by lia.
Qed.

Lemma bytes32 v :
  0 <= v < 2 ^ 32 ->
  v mod 2 ^ 8 + 2 ^ 8 * ((v / 2 ^ 8) mod 2 ^ 8)
  + 2 ^ 16 * ((v / 2 ^ 16) mod 2 ^ 8) + 2 ^ 24 * ((v / 2 ^ 24) mod 2 ^ 8) = v.
Proof.
  intros Hv.
  pose proof (Z.div_mod v (2 ^ 8)). pose proof (Z.div_mod (v / 2 ^ 8) (2 ^ 8)).
  pose proof (Z.div_mod (v / 2 ^ 16) (2 ^ 8)).
  assert (v / 2 ^ 16 = v / 2 ^ 8 / 2 ^ 8) as E1
    by (rewrite Z.div_div by lia; done).
  assert (v / 2 ^ 24 = v / 2 ^ 16 / 2 ^ 8) as E2
    by (rewrite Z.div_div by lia; done).
  assert ((v / 2 ^ 24) mod 2 ^ 8 = v / 2 ^ 24) as E3.
  { apply Z.mod_small. split; [apply Z.div_pos; lia|].
    apply Z.div_lt_upper_bound; lia. }
  lia.
Qed.

Lemma length_encode_inode ino : length (encode_inode ino) = 32%nat.
Proof. done. Qed.

(** Decoding what [encode_inode] wrote. *)
Lemma decode_encode_inode_0 ino :
  inode_wf ino -> decode_inode (encode_inode ino) 0 = ino.
Proof.
  intros (Hs & Hi & Hbl & Hb & Hdl & Hd).
  destruct ino as [s bl ind dl]. simpl in *.
  destruct bl as [|b0 [|b1 [|b2 [|b3 [|]]]]]; try done.
  destruct dl as [|d0 [|d1 [|]]]; try done.
  repeat match goal with
         | H : Forall _ (_ :: _) |- _ => apply Forall_cons in H as [? H]
         end.
  unfold decode_inode, encode_inode, idx32, le32, enc32, byte_at. simpl.
  by rewrite !bytes32.
Qed.

Lemma decode_inode_splice b off ino :
  inode_wf ino -> 0 <= off <= Z.of_nat (length b) ->
  decode_inode (splice b off (encode_inode ino)) off = ino.
Proof.
  intros Hwf Hoff.
  rewrite <- (decode_encode_inode_0 ino Hwf) at 2.
  unfold decode_inode.
  rewrite <- (Z.add_0_r off) at 2.
  rewrite !le32_splice_in by (rewrite ?length_encode_inode; lia).
  done.
Qed.

Lemma decode_inode_splice_other b off off' bytes :
  0 <= off <= Z.of_nat (length b) -> 0 <= off' ->
  off' + 32 <= off \/ off + Z.of_nat (length bytes) <= off' ->
  decode_inode (splice b off bytes) off' = decode_inode b off'.
Proof.
  intros Hoff Hoff' Hdis. unfold decode_inode.
  rewrite !le32_splice_out by lia. done.
Qed.

End KtfsCodec.

(** ** sys/ktfs.c : reading and writing blocks and inodes through the cache *)

Section KtfsBlockIO.
Import Cache Ktfs KtfsMore.
Context {S : Type} `{Storage S}.
Variable disk_block : S -> Z -> list Z.
Hypothesis laws : storage_laws disk_block.
Variable tp : Z.

Lemma release_wf (c : cache S) p d :
  cache_wf c -> cache_wf (cache_release_block c p d).
Proof.
  intros Hwf. apply (cache_wf_ptrs c); [|done]. unfold cache_release_block.
  case_decide; [done|].
  destruct (list_find _ (entries c)) as [[i e]|] eqn:Hf; [|done].
  apply list_find_Some in Hf as (Hi & _). simpl.
  apply (ptrs_insert _ _ e); [done|]. by case_decide.
Qed.

(** Fetch a block, look at it, release it clean. *)
Lemma read_block_spec {A} pos (f : list Z -> A) (c : cache S) a c1 :
  cache_wf c -> coherent disk_block c -> 0 <= pos / CACHE_BLKSZ < 2 ^ 32 ->
  bind (get_block tp pos)
    (fun p => bind (load p) (fun b => bind (release_block p 0)
       (fun _ => ret (f b)))) c = Ok a c1 ->
  a = f (view disk_block c (pos / CACHE_BLKSZ)) /\
  cache_wf c1 /\ coherent disk_block c1 /\
  forall bn, view disk_block c1 bn = view disk_block c bn.
Proof.
  intros Hwf Hcoh Hrange. unfold bind.
  destruct (get_block tp pos c) as [p c0| | |] eqn:Hg; try done.
  apply get_block_Ok_inv in Hg.
  destruct (get_block_entry disk_block laws tp c pos p c0 Hwf Hcoh Hrange Hg)
    as (Hwf0 & Hcoh0 & Hview0 & _).
  unfold load.
  rewrite (get_block_bytes disk_block laws tp c pos p c0 Hwf Hcoh Hrange Hg).
  unfold release_block, ret. intros [= <- <-].
  destruct (release_clean_view disk_block c0 p Hcoh0) as [Hcoh1 Hview1].
  split; [done|]. split; [by apply release_wf|]. split; [done|].
  intros bn. by rewrite Hview1.
Qed.

(** The same with any continuation [k] on the bytes of the block. *)
Lemma read_block_then {A} pos (k : list Z -> M S A) (c : cache S) r c' :
  cache_wf c -> coherent disk_block c -> 0 <= pos / CACHE_BLKSZ < 2 ^ 32 ->
  bind (get_block tp pos)
    (fun p => bind (load p) (fun b => bind (release_block p 0)
       (fun _ => k b))) c = Ok r c' ->
  exists c1,
    k (view disk_block c (pos / CACHE_BLKSZ)) c1 = Ok r c' /\
    cache_wf c1 /\ coherent disk_block c1 /\
    forall bn, view disk_block c1 bn = view disk_block c bn.
Proof.
  intros Hwf Hcoh Hrange. unfold bind.
  destruct (get_block tp pos c) as [p c0| | |] eqn:Hg; try done.
  apply get_block_Ok_inv in Hg.
  destruct (get_block_entry disk_block laws tp c pos p c0 Hwf Hcoh Hrange Hg)
    as (Hwf0 & Hcoh0 & Hview0 & _).
  unfold load.
  rewrite (get_block_bytes disk_block laws tp c pos p c0 Hwf Hcoh Hrange Hg).
  unfold release_block. intros Hk.
  destruct (release_clean_view disk_block c0 p Hcoh0) as [Hcoh1 Hview1].
  exists (cache_release_block c0 p 0).
  split; [done|]. split; [by apply release_wf|]. split; [done|].
  intros bn. by rewrite Hview1.
Qed.

(** The same on a block that is in the cache and free: it cannot fail. *)
Lemma read_block_cached {A} pos (f : list Z -> A) (c : cache S) i e :
  cache_wf c -> coherent disk_block c ->
  pos mod CACHE_BLKSZ = 0 -> 0 <= pos / CACHE_BLKSZ < 2 ^ 32 ->
  entries c !! i = Some e -> valid e = true ->
  block_n e = pos / CACHE_BLKSZ -> in_use e = false \/ owner_tid e = tp ->
  exists c1,
    bind (get_block tp pos)
      (fun p => bind (load p) (fun b => bind (release_block p 0)
         (fun _ => ret (f b)))) c
    = Ok (f (view disk_block c (pos / CACHE_BLKSZ))) c1.
Proof.
  intros Hwf Hcoh Hal Hrange Hi Hv Hbn Hfree.
  destruct (get_block_cached disk_block tp c pos i e Hcoh Hal Hrange Hi Hv Hbn
              Hfree) as [c0 Hg].
  unfold bind, get_block. rewrite Hg. rewrite decide_False by lia.
  unfold load.
  rewrite (get_block_bytes disk_block laws tp c pos _ c0 Hwf Hcoh Hrange Hg).
  unfold release_block, ret. by eexists.
Qed.

(** Fetch a block, overwrite part of it, release it dirty. *)
Lemma update_block_spec pos off bytes (c : cache S) c3 :
  cache_wf c -> coherent disk_block c -> 0 <= pos / CACHE_BLKSZ < 2 ^ 32 ->
  bind (get_block tp pos)
    (fun p => bind (poke p off bytes) (fun _ => release_block p 1)) c
  = Ok tt c3 ->
  cache_wf c3 /\ coherent disk_block c3 /\
  view disk_block c3 (pos / CACHE_BLKSZ)
    = splice (view disk_block c (pos / CACHE_BLKSZ)) off bytes /\
  (forall bn, bn ≠ pos / CACHE_BLKSZ ->
     view disk_block c3 bn = view disk_block c bn) /\
  pos mod CACHE_BLKSZ = 0 /\
  exists i e, entries c3 !! i = Some e /\ valid e = true /\
    block_n e = pos / CACHE_BLKSZ /\ in_use e = false.
Proof.
  intros Hwf Hcoh Hrange. unfold bind.
  destruct (get_block tp pos c) as [p c0| | |] eqn:Hg; try done.
  apply get_block_Ok_inv in Hg.
  pose proof Hg as Hal. apply cache_get_block_success in Hal as [Hal _].
  destruct (get_block_entry disk_block laws tp c pos p c0 Hwf Hcoh Hrange Hg)
    as (Hwf0 & Hcoh0 & Hview0 & i & e0 & Hi & Hp & Hbn & Hv & Hdata & _).
  unfold poke.
  rewrite (get_block_bytes disk_block laws tp c pos p c0 Hwf Hcoh Hrange Hg).
  unfold release_block. intros [= <-]. rewrite <- Hp.
  destruct (write_release_entry disk_block c0 i e0
              (splice (view disk_block c (pos / CACHE_BLKSZ)) off bytes)
              Hwf0 Hcoh0 Hi Hv)
    as (Hwf3 & Hcoh3 & Hnew & Hold & e3 & Hi3 & Hv3 & Hbn3 & _ & Hu3).
  rewrite Hbn in *.
  split; [done|]. split; [done|]. split; [done|].
  split; [intros bn Hne; rewrite Hold by done; apply Hview0|].
  split; [done|]. exists i, e3. done.
Qed.

(** Fetch a block, overwrite part of it with bytes computed from it,
    release it dirty. *)
Lemma modify_block_spec pos off (g : list Z -> list Z) (c : cache S) c3 :
  cache_wf c -> coherent disk_block c -> 0 <= pos / CACHE_BLKSZ < 2 ^ 32 ->
  bind (get_block tp pos)
    (fun p => bind (load p)
       (fun b => bind (poke p off (g b)) (fun _ => release_block p 1))) c
  = Ok tt c3 ->
  cache_wf c3 /\ coherent disk_block c3 /\
  view disk_block c3 (pos / CACHE_BLKSZ)
    = splice (view disk_block c (pos / CACHE_BLKSZ)) off
        (g (view disk_block c (pos / CACHE_BLKSZ))) /\
  (forall bn, bn ≠ pos / CACHE_BLKSZ ->
     view disk_block c3 bn = view disk_block c bn).
Proof.
  intros Hwf Hcoh Hrange Hrun.
  destruct (update_block_spec pos off (g (view disk_block c (pos / CACHE_BLKSZ)))
              c c3 Hwf Hcoh Hrange) as (? & ? & ? & ? & _); [|done].
  revert Hrun. unfold bind.
  destruct (get_block tp pos c) as [p c0| | |] eqn:Hg; try done.
  apply get_block_Ok_inv in Hg. unfold load.
  by rewrite (get_block_bytes disk_block laws tp c pos p c0 Hwf Hcoh Hrange Hg).
Qed.

Lemma inode_block_pos_aligned sb inum :
  inode_block_pos sb inum mod CACHE_BLKSZ = 0.
Proof.
  unfold inode_block_pos, u64, KTFS_BLKSZ, CACHE_BLKSZ.
  rewrite <- Z.mul_add_distr_r.
  rewrite Z.mod_mod_divide by (exists (2 ^ 55); lia).
  apply Z_mod_mult.
Qed.

(** [ktfs_inode_grab] returns the inode as the cache shows its table
    block. *)
Lemma ktfs_inode_grab_spec inum sb (c : cache S) ino c1 :
  cache_wf c -> coherent disk_block c ->
  0 <= inode_block_pos sb inum / CACHE_BLKSZ < 2 ^ 32 ->
  ktfs_inode_grab tp inum sb c = Ok ino c1 ->
  ino = decode_inode
          (view disk_block c (inode_block_pos sb inum / CACHE_BLKSZ))
          (u64 (inum * KTFS_INOSZ) mod KTFS_BLKSZ) /\
  cache_wf c1 /\ coherent disk_block c1 /\
  forall bn, view disk_block c1 bn = view disk_block c bn.
Proof.
  intros Hwf Hcoh Hrange Hr.
  by apply (read_block_spec (inode_block_pos sb inum)
              (fun b => decode_inode b (u64 (inum * KTFS_INOSZ) mod KTFS_BLKSZ))
              c ino c1).
Qed.

(** [ktfs_write_to_ino] replaces the 32 bytes of the inode in its table
    block and leaves that block in the cache, unpinned. *)
Lemma ktfs_write_to_ino_spec inum sb ino (c : cache S) c1 :
  cache_wf c -> coherent disk_block c ->
  0 <= inode_block_pos sb inum / CACHE_BLKSZ < 2 ^ 32 ->
  ktfs_write_to_ino tp inum sb ino c = Ok tt c1 ->
  cache_wf c1 /\ coherent disk_block c1 /\
  view disk_block c1 (inode_block_pos sb inum / CACHE_BLKSZ)
    = splice (view disk_block c (inode_block_pos sb inum / CACHE_BLKSZ))
        (u64 (inum * KTFS_INOSZ) mod KTFS_BLKSZ) (encode_inode ino) /\
  (forall bn, bn ≠ inode_block_pos sb inum / CACHE_BLKSZ ->
     view disk_block c1 bn = view disk_block c bn) /\
  exists i e, entries c1 !! i = Some e /\ valid e = true /\
    block_n e = inode_block_pos sb inum / CACHE_BLKSZ /\ in_use e = false.
Proof.
  intros Hwf Hcoh Hrange Hw.
  destruct (update_block_spec (inode_block_pos sb inum)
              (u64 (inum * KTFS_INOSZ) mod KTFS_BLKSZ) (encode_inode ino)
              c c1 Hwf Hcoh Hrange Hw) as (? & ? & ? & ? & _ & ?).
  done.
Qed.

(** X5: The inode written by [ktfs_write_to_ino] is the inode that
    [ktfs_inode_grab] then returns for the same number, and that call
    cannot fail: the table block is in the cache.  The table block must
    reach up to the inode's offset. *)
Theorem ktfs_write_to_ino_then_grab inum sb ino (c : cache S) c1 :
  cache_wf c -> coherent disk_block c ->
  0 <= inode_block_pos sb inum / CACHE_BLKSZ < 2 ^ 32 ->
  inode_wf ino ->
  u64 (inum * KTFS_INOSZ) mod KTFS_BLKSZ
    <= Z.of_nat (length (view disk_block c (inode_block_pos sb inum / CACHE_BLKSZ))) ->
  ktfs_write_to_ino tp inum sb ino c = Ok tt c1 ->
  exists c2, ktfs_inode_grab tp inum sb c1 = Ok ino c2.
Proof.
  intros Hwf Hcoh Hrange Hino Hlen Hw.
  destruct (ktfs_write_to_ino_spec inum sb ino c c1 Hwf Hcoh Hrange Hw)
    as (Hwf1 & Hcoh1 & Hnew & _ & i & e & Hi & Hv & Hbn & Hu).
  destruct (read_block_cached (inode_block_pos sb inum)
              (fun b => decode_inode b (u64 (inum * KTFS_INOSZ) mod KTFS_BLKSZ))
              c1 i e Hwf1 Hcoh1 (inode_block_pos_aligned sb inum) Hrange Hi Hv
              Hbn (or_introl Hu)) as [c2 Hg].
  exists c2. unfold ktfs_inode_grab. rewrite Hg. f_equal.
  rewrite Hnew. apply decode_inode_splice; [done|].
  split; [|done]. apply Z.mod_pos_bound. done.
Qed.

(** X6: Writing inode [inum] does not change any other inode: what
    [ktfs_inode_grab] returned for a different number [m] before the
    write, it returns after it. *)
Theorem ktfs_write_to_ino_keeps_other_inodes inum m sb ino
    (c c0 c1 c2 : cache S) before after :
  cache_wf c -> coherent disk_block c ->
  0 <= inum < 2 ^ 32 -> 0 <= m < 2 ^ 32 -> m ≠ inum ->
  0 <= inode_block_pos sb inum / CACHE_BLKSZ < 2 ^ 32 ->
  0 <= inode_block_pos sb m / CACHE_BLKSZ < 2 ^ 32 ->
  u64 (inum * KTFS_INOSZ) mod KTFS_BLKSZ
    <= Z.of_nat (length (view disk_block c (inode_block_pos sb inum / CACHE_BLKSZ))) ->
  ktfs_inode_grab tp m sb c = Ok before c0 ->
  ktfs_write_to_ino tp inum sb ino c = Ok tt c1 ->
  ktfs_inode_grab tp m sb c1 = Ok after c2 ->
  after = before.
Proof.
  intros Hwf Hcoh Hinum Hm Hne Hrange Hrangem Hlen Hg0 Hw Hg1.
  destruct (ktfs_inode_grab_spec m sb c before c0 Hwf Hcoh Hrangem Hg0)
    as (-> & _).
  destruct (ktfs_write_to_ino_spec inum sb ino c c1 Hwf Hcoh Hrange Hw)
    as (Hwf1 & Hcoh1 & Hnew & Hold & _).
  destruct (ktfs_inode_grab_spec m sb c1 after c2 Hwf1 Hcoh1 Hrangem Hg1)
    as (-> & _).
  destruct (decide (inode_block_pos sb m / CACHE_BLKSZ
                    = inode_block_pos sb inum / CACHE_BLKSZ)) as [Heq|Hdiff];
    [|by rewrite Hold].
  rewrite Heq, Hnew.
  assert (u64 (inum * KTFS_INOSZ) = inum * 32) as En
    by (unfold u64, KTFS_INOSZ; apply Z.mod_small; lia).
  assert (u64 (m * KTFS_INOSZ) = m * 32) as Em
    by (unfold u64, KTFS_INOSZ; apply Z.mod_small; lia).
  rewrite En, Em in *. unfold KTFS_BLKSZ in *.
  (* the two inodes sit in the same block at different offsets *)
  assert (inum * 32 / 512 = m * 32 / 512) as Hblk.
  { revert Heq. unfold inode_block_pos. rewrite En, Em.
    unfold KTFS_BLKSZ, CACHE_BLKSZ, u64.
    pose proof (Z.div_pos (inum * 32) 512). pose proof (Z.div_pos (m * 32) 512).
    assert (inum * 32 / 512 < 2 ^ 32) by (apply Z.div_lt_upper_bound; lia).
    assert (m * 32 / 512 < 2 ^ 32) by (apply Z.div_lt_upper_bound; lia).
    assert (0 <= inode_table_start sb < 2 ^ 32)
      by (unfold inode_table_start, u32; apply Z.mod_pos_bound; lia).
    rewrite !Z.mod_small by lia.
    rewrite <- !Z.mul_add_distr_r, !Z.div_mul by lia. lia. }
  pose proof (Z.div_mod (inum * 32) 512 ltac:(lia)).
  pose proof (Z.div_mod (m * 32) 512 ltac:(lia)).
  pose proof (Z.mod_pos_bound (inum * 32) 512 ltac:(lia)).
  pose proof (Z.mod_pos_bound (m * 32) 512 ltac:(lia)).
  apply decode_inode_splice_other; [lia|lia|].
  rewrite length_encode_inode. lia.
Qed.

End KtfsBlockIO.

Section KtfsInodeExamples.
Import Cache Ktfs KtfsMore Image.

Lemma mounted_wf : cache_wf mounted.
Proof.
  split; [reflexivity|]. split.
  - apply (bool_decide_unpack _). vm_compute. exact I.
  - apply (bool_decide_unpack _). vm_compute. exact I.
Qed.

Lemma mounted_coherent : coherent Disk.block mounted.
Proof. apply create_cache_coherent. Qed.

Lemma ktfs_write_to_ino_then_grab_witness :
  exists c2,
    ktfs_inode_grab 1 1 image_super
      (final (ktfs_write_to_ino 1 1 image_super (Inode 2000 [1; 2; 0; 0] 0 [0; 0])
                mounted))
    = Ok (Inode 2000 [1; 2; 0; 0] 0 [0; 0]) c2.
Proof.
  apply (ktfs_write_to_ino_then_grab Disk.block disk_laws 1 1 image_super
           (Inode 2000 [1; 2; 0; 0] 0 [0; 0]) mounted).
  - exact mounted_wf.
  - exact mounted_coherent.
  - vm_compute. split; [intros Hc; discriminate Hc|reflexivity].
  - split; [unfold is_u32; simpl; lia|]. split; [unfold is_u32; simpl; lia|].
    split; [done|]. split; [|split; [done|]];
      repeat first [apply List.Forall_nil
                   | apply List.Forall_cons; [unfold is_u32; lia|]].
  - vm_compute. intros Hc. discriminate Hc.
  - vm_compute. reflexivity.
Defined.

Lemma ktfs_write_to_ino_keeps_other_inodes_witness :
  let c1 := final (ktfs_write_to_ino 1 1 image_super
                     (Inode 2000 [1; 2; 0; 0] 0 [0; 0]) mounted) in
  ktfs_inode_grab 1 0 image_super mounted
    = Ok root_inode (final (ktfs_inode_grab 1 0 image_super mounted)) /\
  ktfs_inode_grab 1 0 image_super c1
    = Ok (Inode 16 [0; 0; 0; 0] 0 [0; 0])
         (final (ktfs_inode_grab 1 0 image_super c1)) /\
  Inode 16 [0; 0; 0; 0] 0 [0; 0] = root_inode.
Proof.
  intros c1.
  assert (ktfs_inode_grab 1 0 image_super mounted
          = Ok root_inode (final (ktfs_inode_grab 1 0 image_super mounted))) as Hg0
    by (vm_compute; reflexivity).
  assert (ktfs_inode_grab 1 0 image_super c1
          = Ok (Inode 16 [0; 0; 0; 0] 0 [0; 0])
               (final (ktfs_inode_grab 1 0 image_super c1))) as Hg1
    by (vm_compute; reflexivity).
  split; [exact Hg0|]. split; [exact Hg1|].
  apply (ktfs_write_to_ino_keeps_other_inodes Disk.block disk_laws 1 1 0
           image_super (Inode 2000 [1; 2; 0; 0] 0 [0; 0]) mounted
           (final (ktfs_inode_grab 1 0 image_super mounted)) c1
           (final (ktfs_inode_grab 1 0 image_super c1)) root_inode
           (Inode 16 [0; 0; 0; 0] 0 [0; 0])).
  - exact mounted_wf.
  - exact mounted_coherent.
  - lia.
  - lia.
  - lia.
  - vm_compute. split; [intros Hc; discriminate Hc|reflexivity].
  - vm_compute. split; [intros Hc; discriminate Hc|reflexivity].
  - vm_compute. intros Hc. discriminate Hc.
  - exact Hg0.
  - vm_compute. reflexivity.
  - exact Hg1.
Defined.

End KtfsInodeExamples.

(** ** sys/ktfs.c : how much [ktfs_fetch] and [ktfs_store] transfer *)

Section KtfsCounts.
Import Cache Ktfs KtfsMore.
Context {S : Type} `{Storage S}.
Variable tp : Z.

Lemma bind_Ok_inv {A B} (m : M S A) (k : A -> M S B) c b c' :
  bind m k c = Ok b c' -> exists a c1, m c = Ok a c1 /\ k a c1 = Ok b c'.
Proof. unfold bind. destruct (m c) as [a c1| | |]; try done. by eexists _, _. Qed.

Lemma attempt_Ok_inv {A} (m : M S A) c r c' :
  attempt m c = Ok r c' ->
  match r with inl code => m c = Fail code c' | inr a => m c = Ok a c' end.
Proof. unfold attempt. destruct (m c); try done; by intros [= <- <-]. Qed.

Ltac inv_bind H :=
  cbv beta zeta in H;
  apply bind_Ok_inv in H as (? & ? & ? & H).

Ltac inv_bind_as H H1 :=
  cbv beta zeta in H;
  apply bind_Ok_inv in H as (? & ? & H1 & H).

(** The only error of a block read is the cache's, and it is negative. *)
Lemma get_block_Fail_negative pos (c : cache S) code c' :
  get_block tp pos c = Fail code c' -> code < 0.
Proof.
  unfold get_block. destruct (cache_get_block tp c pos) as [rc pptr c1|]; [|done].
  case_decide; [by intros [= <- _]|]. by destruct pptr.
Qed.

Lemma read_block_Fail_negative {A} pos (f : list Z -> A) (c : cache S) code c' :
  bind (get_block tp pos)
    (fun p => bind (load p) (fun b => bind (release_block p 0)
       (fun _ => ret (f b)))) c = Fail code c' ->
  code < 0.
Proof.
  unfold bind. destruct (get_block tp pos c) as [p c0|rc c0| |] eqn:Hg; try done.
  - unfold load. by destruct (block_at c0 p).
  - intros [= <- _]. by eapply get_block_Fail_negative.
Qed.

Lemma length_slice_le b off len :
  0 <= len -> Z.of_nat (length (slice b off len)) <= len.
Proof. intros. unfold slice. rewrite length_take. lia. Qed.

(** The copy loop of [ktfs_fetch] never copies more than [read_size]. *)
Lemma fetch_loop_length fuel : forall sb ino pos read_size acc (c : cache S) r c',
  Z.of_nat (length acc) <= read_size ->
  fetch_loop tp fuel sb ino pos read_size acc c = Ok r c' ->
  Z.of_nat (length (snd r)) <= read_size.
Proof.
  induction fuel as [|fuel IH]; intros sb ino pos rs acc c r c' Hacc; simpl;
    case_decide as Hdone; try (by intros [= <- _]).
  intros Hrun. inv_bind Hrun.
  set (copied := Z.of_nat (length acc)) in *.
  set (width := Z.min (rs - copied)
                  (KTFS_BLKSZ - (copied + pos) mod KTFS_BLKSZ)) in *.
  assert (0 <= width <= rs - copied) as Hw.
  { pose proof (Z.mod_pos_bound (copied + pos) KTFS_BLKSZ eq_refl).
    unfold width. lia. }
  destruct x as [code|absblk].
  - case_decide.
    + apply IH in Hrun; [done|]. rewrite length_app, length_replicate.
      fold copied. lia.
    + by injection Hrun as <- _.
  - inv_bind Hrun. destruct x as [code|blk]; [by injection Hrun as <- _|].
    inv_bind Hrun. inv_bind Hrun.
    apply IH in Hrun; [done|]. rewrite length_app.
    pose proof (length_slice_le x ((copied + pos) mod KTFS_BLKSZ) width
                  (proj1 Hw)).
    fold copied. lia.
Qed.

Ltac fetch_done :=
  simpl in *; repeat split; intros; try done; try lia;
  try (by left); try (right; lia).

(** X7: [ktfs_fetch] never gives more than was asked for and never reads
    past the end of the file: the bytes put into the buffer are at most
    [len]; a count [n >= 0] returned is the number of those bytes, the
    position has moved on by [n], and it has not passed the size of the
    file (as the inode has it, which the handle now caches).  After an
    error the position is where it was. *)
Theorem ktfs_fetch_bounds kuio buf_null len (c : cache S) n kuio' out c' :
  0 <= len -> 0 <= file_position kuio < 2 ^ 64 ->
  ktfs_fetch tp kuio buf_null len c = Ok (n, kuio', out) c' ->
  Z.of_nat (length out) <= len /\
  inode_number kuio' = inode_number kuio /\
  (n < 0 -> file_position kuio' = file_position kuio) /\
  (0 <= n ->
     n = Z.of_nat (length out) /\
     file_position kuio' = u64 (file_position kuio + n) /\
     (n = 0 \/ file_position kuio + n <= file_size kuio')).
Proof.
  intros Hlen Hpos. unfold ktfs_fetch.
  assert (u64 (file_position kuio + 0) = file_position kuio) as Hsame.
  { rewrite Z.add_0_r. unfold u64. by apply Z.mod_small. }
  assert (- EINVAL < 0) as Hinval by done.
  case_decide; [intros [= <- <- <- _]; fetch_done|].
  destruct buf_null; [intros [= <- <- <- _]; fetch_done|].
  intros Hrun. inv_bind_as Hrun Hsuper. apply attempt_Ok_inv in Hsuper.
  destruct x as [code|superb].
  { injection Hrun as <- <- <- _.
    apply (read_block_Fail_negative 0 decode_super) in Hsuper. fetch_done. }
  inv_bind_as Hrun Hgrab. apply attempt_Ok_inv in Hgrab.
  destruct x as [code|ino].
  { injection Hrun as <- <- <- _.
    apply (read_block_Fail_negative (inode_block_pos superb (inode_number kuio))
             (fun b => decode_inode b
                         (u64 (inode_number kuio * KTFS_INOSZ) mod KTFS_BLKSZ)))
      in Hgrab.
    fetch_done. }
  case_decide as Heof; [injection Hrun as <- <- <- _; fetch_done|].
  inv_bind_as Hrun Hloop.
  apply fetch_loop_length in Hloop; [|simpl; lia].
  match goal with Hl : Z.of_nat (length (snd ?r)) <= _ |- _ =>
    destruct r as [code acc] end.
  simpl in Hloop, Hrun.
  case_decide as Hcode; injection Hrun as <- <- <- _; fetch_done.
Qed.

(** *** Writing *)






End KtfsCounts.

Section KtfsCountsOnImage.
Import Cache Ktfs KtfsMore Image.

Lemma ktfs_fetch_bounds_witness :
  let r := ktfs_fetch 1 (at_position 1000 hello) false 100 mounted in
  Z.of_nat (length (fetched r)) <= 100 /\
  (0 <= 24 ->
     24 = Z.of_nat (length (fetched r)) /\
     file_position (Uio 1024 1024 0 1) = u64 (file_position (at_position 1000 hello) + 24) /\
     (24 = 0 \/ file_position (at_position 1000 hello) + 24
                 <= file_size (Uio 1024 1024 0 1))).
Proof.
  intros r.
  destruct (ktfs_fetch_bounds 1 (at_position 1000 hello) false 100 mounted
              24 (Uio 1024 1024 0 1) (fetched r) (final r)) as (Hlen & _ & _ & Hn).
  - lia.
  - simpl. lia.
  - vm_compute. reflexivity.
  - split; [exact Hlen | exact Hn].
Defined.


End KtfsCountsOnImage.

(** ** sys/ktfs.c : the allocation bitmaps *)

Section KtfsBitmap.
Import Cache Ktfs KtfsMore.
Context {S : Type} `{Storage S}.
Variable disk_block : S -> Z -> list Z.
Hypothesis laws : storage_laws disk_block.
Variable tp : Z.

(** A bit the scan of a byte reports is one of the bits it was given,
    clear in the byte, and in the range asked for. *)
Lemma scan_bits_found bits wm cur bbb fa tb i :
  scan_bits bits wm cur bbb fa tb = Found i ->
  exists bitp, bitp ∈ bits /\ i = u32 (bbb + bitp) /\
    Z.land cur (u8 (Z.shiftl 1 bitp)) = 0 /\ fa <= i < tb.
Proof.
  induction bits as [|bitp bits IH]; simpl; [done|].
  assert (scan_bits bits wm cur bbb fa tb = Found i ->
          exists bitp0, bitp0 ∈ bitp :: bits /\ i = u32 (bbb + bitp0) /\
            Z.land cur (u8 (Z.shiftl 1 bitp0)) = 0 /\ fa <= i < tb) as Hrest.
  { intros Hr. destruct (IH Hr) as (b0 & Hin & Hrest). exists b0.
    split; [by apply elem_of_cons; right|done]. }
  case_decide; [done|]. case_decide as Hset; [done|].
  case_decide; [done|]. case_decide; [done|].
  intros [= <-]. exists bitp. split; [by apply elem_of_cons; left|].
  split; [done|]. split; [|lia].
  destruct (decide (Z.land cur (u8 (Z.shiftl 1 bitp)) = 0)); [done|].
  by destruct Hset.
Qed.

Lemma scan_bytes_found n : forall by_ first bytes base_bit bib0 fa tb i,
  scan_bytes n by_ first bytes base_bit bib0 fa tb = Found i ->
  exists by' bitp,
    by_ <= by' < by_ + Z.of_nat n /\ 0 <= bitp < 8 /\
    i = u32 (u32 (base_bit + by' * 8) + bitp) /\
    Z.land (byte_at bytes by') (u8 (Z.shiftl 1 bitp)) = 0 /\ fa <= i < tb.
Proof.
  induction n as [|n IH]; intros by_ first bytes base_bit bib0 fa tb i;
    cbn [scan_bytes]; [done|].
  assert (scan_bytes n (by_ + 1) false bytes base_bit bib0 fa tb = Found i ->
          exists by' bitp,
            by_ <= by' < by_ + Z.of_nat (Datatypes.S n) /\ 0 <= bitp < 8 /\
            i = u32 (u32 (base_bit + by' * 8) + bitp) /\
            Z.land (byte_at bytes by') (u8 (Z.shiftl 1 bitp)) = 0 /\
            fa <= i < tb) as Hrest.
  { intros Hr. destruct (IH _ _ _ _ _ _ _ _ Hr) as (by' & bitp & Hby & Hrest).
    exists by', bitp. split; [lia|done]. }
  case_decide; [done|]. cbv zeta. case_decide; [done|].
  match goal with |- context [scan_bits ?a ?b ?c ?d ?e ?f] =>
    destruct (scan_bits a b c d e f) as [j| |] eqn:Hbits end; [|done|done].
  intros [= <-]. apply scan_bits_found in Hbits as (bitp & Hin & -> & Hclear & Hr).
  exists by_, bitp. split; [lia|]. split; [|done].
  repeat (apply elem_of_cons in Hin as [->|Hin]; [lia|]).
  by apply elem_of_nil in Hin.
Qed.

Lemma bitmap_block_range x :
  0 <= u64 (u32 x * KTFS_BLKSZ) / CACHE_BLKSZ < 2 ^ 32 /\
  u64 (u32 x * KTFS_BLKSZ) / CACHE_BLKSZ = u32 x.
Proof.
  pose proof (Z.mod_pos_bound x (2 ^ 32) eq_refl) as Hx. fold (u32 x) in Hx.
  unfold u64, KTFS_BLKSZ, CACHE_BLKSZ.
  rewrite Z.mod_small by lia. rewrite Z.div_mul by done. lia.
Qed.

Lemma scan_blocks_found n : forall b blk0 byte0 bib0 start fa tb (c : cache S) i c',
  cache_wf c -> coherent disk_block c -> 0 <= byte0 ->
  scan_blocks tp n b blk0 byte0 bib0 start fa tb c = Ok i c' ->
  (exists b' by' bitp,
     b <= b' < b + Z.of_nat n /\ 0 <= by' < KTFS_BLKSZ /\ 0 <= bitp < 8 /\
     i = u32 (u32 (u32 (b' * (KTFS_BLKSZ * 8)) + by' * 8) + bitp) /\
     Z.land (byte_at (view disk_block c (u32 (start + b'))) by')
            (u8 (Z.shiftl 1 bitp)) = 0 /\
     fa <= i < tb) /\
  cache_wf c' /\ coherent disk_block c' /\
  forall bn, view disk_block c' bn = view disk_block c bn.
Proof.
  induction n as [|n IH]; intros b blk0 byte0 bib0 start fa tb c i c' Hwf Hcoh
    Hb0; cbn [scan_blocks]; [done|].
  intros Hrun. cbv zeta in Hrun.
  destruct (bitmap_block_range (start + b)) as [Hrange Hbn].
  apply (read_block_then disk_block laws tp) in Hrun
    as (c1 & Hk & Hwf1 & Hcoh1 & Hview1); [|done..].
  rewrite Hbn in Hk.
  match type of Hk with context [scan_bytes ?a ?b ?c ?d ?e ?f ?g ?h] =>
    destruct (scan_bytes a b c d e f g h) as [j| |] eqn:Hscan end; [| done |].
  - injection Hk as <- <-.
    apply scan_bytes_found in Hscan as (by' & bitp & Hby & Hbit & -> & Hclear & Hr).
    split; [|done]. exists b, by', bitp. split; [lia|].
    split; [|done]. unfold KTFS_BLKSZ in *. case_decide; lia.
  - apply IH in Hk as ((b' & by' & bitp & Hb' & Hrest) & Hwf' & Hcoh' & Hview');
      [|done..].
    split.
    + exists b', by', bitp. split; [lia|]. by rewrite <- Hview1.
    + split; [done|]. split; [done|]. intros bn. by rewrite Hview'.
Qed.

Lemma detect_free_spec sb kind (c : cache S) i c' :
  cache_wf c -> coherent disk_block c ->
  snd (fst (ktfs_bitmap_indices_fetch sb kind)) * (KTFS_BLKSZ * 8) <= 2 ^ 32 ->
  ktfs_bitmap_free_bit_detect tp sb kind c = Ok i c' ->
  0 <= i < snd (ktfs_bitmap_indices_fetch sb kind) /\
  (kind ≠ 0 -> data_start sb <= i) /\
  i / (KTFS_BLKSZ * 8) < snd (fst (ktfs_bitmap_indices_fetch sb kind)) /\
  bit_clear (view disk_block c (bit_block sb kind i)) i /\
  (forall bn, view disk_block c' bn = view disk_block c bn) /\
  cache_wf c' /\ coherent disk_block c'.
Proof.
  intros Hwf Hcoh Hblocks. unfold ktfs_bitmap_free_bit_detect, bit_block.
  destruct (ktfs_bitmap_indices_fetch sb kind) as [[start blocks] total].
  simpl in Hblocks. simpl fst. simpl snd.
  assert (0 <= data_start sb) as Hds
    by (unfold data_start, u32; apply Z.mod_pos_bound; lia).
  set (fa := if decide (kind ≠ 0) then data_start sb else 0).
  assert (0 <= fa) as Hfa by (unfold fa; case_decide; lia).
  case_decide; [done|]. cbv zeta. case_decide as Hblk0; [done|].
  intros Hrun.
  assert (KTFS_BLKSZ * 8 = 4096) as E by reflexivity. rewrite E in *.
  pose proof (Z.div_pos fa 4096 Hfa eq_refl) as Hq.
  apply (scan_blocks_found _ _ _ _ _ _ _ _ c i c' Hwf Hcoh) in Hrun
    as ((b' & by' & bitp & Hb' & Hby & Hbit & Hi & Hclear & Hr) & Hwf' & Hcoh' & Hview).
  2:{ apply Z.div_pos; [|done]. apply Z.mod_pos_bound. done. }
  unfold KTFS_BLKSZ in Hby.
  assert (i = b' * 4096 + by' * 8 + bitp) as Hival.
  { rewrite Hi, E. unfold u32.
    rewrite (Z.mod_small (b' * 4096)) by lia.
    rewrite (Z.mod_small (b' * 4096 + by' * 8)) by lia.
    apply Z.mod_small. lia. }
  assert (i / 4096 = b') as Hdiv.
  { rewrite Hival. symmetry. apply (Z.div_unique _ _ _ (by' * 8 + bitp)); lia. }
  assert (i mod 4096 = by' * 8 + bitp) as Hmod.
  { rewrite Hival. symmetry. apply (Z.mod_unique _ _ b'); lia. }
  split; [lia|]. split; [intros Hk; unfold fa in Hr; rewrite decide_True in Hr by done; lia|].
  split; [lia|]. split; [|done].
  unfold bit_clear, bit_byte, bit_mask. rewrite E, Hdiv, Hmod.
  replace ((by' * 8 + bitp) / 8) with by'
    by (apply (Z.div_unique _ _ _ bitp); lia).
  replace ((by' * 8 + bitp) mod 8) with bitp
    by (apply (Z.mod_unique _ _ by'); lia).
  done.
Qed.

(** X10: [ktfs_bitmap_free_bit_detect] hands out only bits that are free: the
    index it returns is below the number of bits of the bitmap, for the
    data bitmap not below the first data block, and the bit that
    [ktfs_bitmap_mark] would set for it is clear in the bitmap block the
    cache shows.  The scan reads only: no block changes. *)
Theorem ktfs_bitmap_free_bit_detect_free sb kind (c : cache S) i c' :
  cache_wf c -> coherent disk_block c ->
  snd (fst (ktfs_bitmap_indices_fetch sb kind)) * (KTFS_BLKSZ * 8) <= 2 ^ 32 ->
  ktfs_bitmap_free_bit_detect tp sb kind c = Ok i c' ->
  0 <= i < snd (ktfs_bitmap_indices_fetch sb kind) /\
  (kind ≠ 0 -> data_start sb <= i) /\
  i / (KTFS_BLKSZ * 8) < snd (fst (ktfs_bitmap_indices_fetch sb kind)) /\
  bit_clear (view disk_block c (bit_block sb kind i)) i /\
  (forall bn, view disk_block c' bn = view disk_block c bn) /\
  cache_wf c' /\ coherent disk_block c'.
Proof. intros Hwf Hcoh Hblocks Hrun. by apply detect_free_spec. Qed.

(** *** Marking *)

Lemma small_bit x : 0 <= x < 8 ->
  x = 0 \/ x = 1 \/ x = 2 \/ x = 3 \/ x = 4 \/ x = 5 \/ x = 6 \/ x = 7.
Proof. lia. Qed.

Lemma mask_nonzero a : 0 <= a < 8 -> u8 (Z.shiftl 1 a) ≠ 0.
Proof.
  intros Ha. destruct (small_bit a Ha) as [->|[->|[->|[->|[->|[->|[->| ->]]]]]]];
    by vm_compute.
Qed.

Lemma masks_disjoint a b : 0 <= a < 8 -> 0 <= b < 8 -> a ≠ b ->
  Z.land (u8 (Z.shiftl 1 a)) (u8 (Z.shiftl 1 b)) = 0.
Proof.
  intros Ha Hb Hne.
  destruct (small_bit a Ha) as [->|[->|[->|[->|[->|[->|[->| ->]]]]]]];
  destruct (small_bit b Hb) as [->|[->|[->|[->|[->|[->|[->| ->]]]]]]];
    try done.
Qed.

Lemma bit_parts i :
  0 <= bit_byte i < KTFS_BLKSZ /\ 0 <= (i mod (KTFS_BLKSZ * 8)) mod 8 < 8 /\
  i = i / (KTFS_BLKSZ * 8) * (KTFS_BLKSZ * 8) + bit_byte i * 8
      + (i mod (KTFS_BLKSZ * 8)) mod 8.
Proof.
  unfold bit_byte. assert (KTFS_BLKSZ * 8 = 4096) as -> by reflexivity.
  unfold KTFS_BLKSZ.
  pose proof (Z.mod_pos_bound i 4096 eq_refl).
  pose proof (Z.mod_pos_bound (i mod 4096) 8 eq_refl).
  pose proof (Z.div_mod i 4096 ltac:(lia)).
  pose proof (Z.div_mod (i mod 4096) 8 ltac:(lia)).
  assert (0 <= i mod 4096 / 8 < 512).
  { split; [apply Z.div_pos; lia|apply Z.div_lt_upper_bound; lia]. }
  lia.
Qed.

(** [ktfs_bitmap_mark] sets the bit it is asked to set and no other: the
    bit of [i] is set afterwards, every other bit of the bitmap is as it
    was, and so is every block outside the bitmap.  The bitmap block
    must reach up to the byte of the bit. *)
Lemma mark_spec sb kind i (c : cache S) c' :
  cache_wf c -> coherent disk_block c -> 0 <= i < 2 ^ 32 ->
  bit_byte i
    <= Z.of_nat (length (view disk_block c (bit_block sb kind i))) ->
  ktfs_bitmap_mark tp sb kind i c = Ok tt c' ->
  ~ bit_clear (view disk_block c' (bit_block sb kind i)) i /\
  (forall j, 0 <= j < 2 ^ 32 -> j ≠ i ->
     bit_clear (view disk_block c' (bit_block sb kind j)) j <->
     bit_clear (view disk_block c (bit_block sb kind j)) j) /\
  (forall bn, bn ≠ bit_block sb kind i ->
     view disk_block c' bn = view disk_block c bn) /\
  cache_wf c' /\ coherent disk_block c'.
Proof.
  intros Hwf Hcoh Hi Hlen. unfold ktfs_bitmap_mark, bit_block in *.
  destruct (ktfs_bitmap_indices_fetch sb kind) as [[start blocks] total].
  simpl fst in *. case_decide; [done|]. cbv zeta. case_decide; [done|].
  intros Hrun.
  destruct (bitmap_block_range (start + i / (KTFS_BLKSZ * 8))) as [Hrange Hbn].
  apply (modify_block_spec disk_block laws tp _ _
           (fun b => [Z.lor (byte_at b (i mod (KTFS_BLKSZ * 8) / 8))
                        (u8 (Z.shiftl 1 (i mod (KTFS_BLKSZ * 8) mod 8)))]))
    in Hrun as (Hwf' & Hcoh' & Hnew & Hold); [|done..].
  rewrite Hbn in Hnew, Hold.
  set (blk := view disk_block c (u32 (start + i / (KTFS_BLKSZ * 8)))) in *.
  fold (bit_byte i) in Hnew. fold (bit_mask i) in Hnew.
  destruct (bit_parts i) as (Hby & Hbit & Hsplit).
  assert (Hbyte : byte_at (view disk_block c' (u32 (start + i / (KTFS_BLKSZ * 8))))
                    (bit_byte i)
                  = Z.lor (byte_at blk (bit_byte i)) (bit_mask i)).
  { rewrite Hnew.
    pose proof (byte_at_splice_in blk (bit_byte i)
                  [Z.lor (byte_at blk (bit_byte i)) (bit_mask i)] 0) as Hin.
    rewrite Z.add_0_r in Hin. rewrite Hin; [done|lia|simpl; lia]. }
  split; [|split; [|done]].
  - unfold bit_clear. rewrite Hbyte, Z.land_lor_distr_l, Z.land_diag.
    intros Hz. apply Z.lor_eq_0_iff in Hz as [_ Hz].
    by apply (mask_nonzero _ Hbit).
  - intros j Hj Hne.
    destruct (decide (u32 (start + j / (KTFS_BLKSZ * 8))
                      = u32 (start + i / (KTFS_BLKSZ * 8)))) as [Hsame|Hdiff];
      [|by rewrite Hold].
    rewrite Hsame. fold blk. unfold bit_clear.
    destruct (bit_parts j) as (Hbyj & Hbitj & Hsplitj).
    destruct (decide (bit_byte j = bit_byte i)) as [Heq|Hneq].
    + rewrite Heq, Hbyte, Z.land_lor_distr_l.
      assert (Z.land (bit_mask i) (bit_mask j) = 0) as ->; [|by rewrite Z.lor_0_r].
      apply masks_disjoint; [done..|]. intros Hb.
      (* same block, byte and bit: the same index *)
      assert (j / (KTFS_BLKSZ * 8) = i / (KTFS_BLKSZ * 8)) as Hq; [|lia].
      revert Hsame. unfold u32.
      assert (KTFS_BLKSZ * 8 = 4096) as -> by reflexivity.
      pose proof (Z.div_pos i 4096). pose proof (Z.div_pos j 4096).
      assert (i / 4096 < 2 ^ 20) by (apply Z.div_lt_upper_bound; lia).
      assert (j / 4096 < 2 ^ 20) by (apply Z.div_lt_upper_bound; lia).
      intros Hsame.
      assert ((start + j / 4096 - (start + i / 4096)) mod 2 ^ 32 = 0) as Hd.
      { rewrite Zminus_mod, Hsame, Z.sub_diag. done. }
      replace (start + j / 4096 - (start + i / 4096))
        with (j / 4096 - i / 4096) in Hd by lia.
      apply Z.mod_divide in Hd; [|lia]. destruct Hd as [k Hk]. lia.
    + rewrite Hnew. rewrite byte_at_splice_out; [done|lia|lia|simpl; lia].
Qed.

(** X11: [ktfs_bitmap_mark] sets the bit it is asked to set and no other: the
    bit of [i] is set afterwards, every other bit of the bitmap is as it
    was, and so is every block outside the bitmap.  A marked bit is not
    handed out again: [ktfs_bitmap_free_bit_detect], called next, does
    not return [i].  The bitmap block must reach up to the byte of the
    bit. *)
Theorem ktfs_bitmap_mark_sets_bit sb kind i (c : cache S) c' :
  cache_wf c -> coherent disk_block c -> 0 <= i < 2 ^ 32 ->
  snd (fst (ktfs_bitmap_indices_fetch sb kind)) * (KTFS_BLKSZ * 8) <= 2 ^ 32 ->
  bit_byte i
    <= Z.of_nat (length (view disk_block c (bit_block sb kind i))) ->
  ktfs_bitmap_mark tp sb kind i c = Ok tt c' ->
  ~ bit_clear (view disk_block c' (bit_block sb kind i)) i /\
  (forall j, 0 <= j < 2 ^ 32 -> j ≠ i ->
     bit_clear (view disk_block c' (bit_block sb kind j)) j <->
     bit_clear (view disk_block c (bit_block sb kind j)) j) /\
  (forall bn, bn ≠ bit_block sb kind i ->
     view disk_block c' bn = view disk_block c bn) /\
  (forall i' c'', ktfs_bitmap_free_bit_detect tp sb kind c' = Ok i' c'' ->
     i' ≠ i).
Proof.
  intros Hwf Hcoh Hi Hblocks Hlen Hmark.
  destruct (mark_spec sb kind i c c' Hwf Hcoh Hi Hlen Hmark)
    as (Hset & Hothers & Hblocks' & Hwf' & Hcoh').
  split; [done|]. split; [done|]. split; [done|].
  intros i' c'' Hdet ->.
  destruct (detect_free_spec sb kind c' i c'' Hwf' Hcoh' Hblocks Hdet)
    as (_ & _ & _ & Hclear & _).
  by apply Hset.
Qed.

(** *** Unmarking *)

Lemma mask_cleared a : 0 <= a < 8 ->
  Z.land (u8 (Z.lnot (u8 (Z.shiftl 1 a)))) (u8 (Z.shiftl 1 a)) = 0.
Proof.
  intros Ha. destruct (small_bit a Ha) as [->|[->|[->|[->|[->|[->|[->| ->]]]]]]];
    by vm_compute.
Qed.

Lemma mask_kept a b : 0 <= a < 8 -> 0 <= b < 8 -> a ≠ b ->
  Z.land (u8 (Z.lnot (u8 (Z.shiftl 1 a)))) (u8 (Z.shiftl 1 b))
  = u8 (Z.shiftl 1 b).
Proof.
  intros Ha Hb Hne.
  destruct (small_bit a Ha) as [->|[->|[->|[->|[->|[->|[->| ->]]]]]]];
  destruct (small_bit b Hb) as [->|[->|[->|[->|[->|[->|[->| ->]]]]]]];
    try done.
Qed.

(** Two indices with the same block, byte and bit are the same. *)
Lemma same_bit_same_index start i j :
  0 <= i < 2 ^ 32 -> 0 <= j < 2 ^ 32 ->
  u32 (start + j / (KTFS_BLKSZ * 8)) = u32 (start + i / (KTFS_BLKSZ * 8)) ->
  bit_byte j = bit_byte i ->
  (j mod (KTFS_BLKSZ * 8)) mod 8 = (i mod (KTFS_BLKSZ * 8)) mod 8 ->
  j = i.
Proof.
  intros Hi Hj Hsame Hby Hb.
  destruct (bit_parts i) as (_ & _ & Hsplit).
  destruct (bit_parts j) as (_ & _ & Hsplitj).
  assert (j / (KTFS_BLKSZ * 8) = i / (KTFS_BLKSZ * 8)) as Hq; [|lia].
  revert Hsame. unfold u32.
  assert (KTFS_BLKSZ * 8 = 4096) as -> by reflexivity.
  pose proof (Z.div_pos i 4096). pose proof (Z.div_pos j 4096).
  assert (i / 4096 < 2 ^ 20) by (apply Z.div_lt_upper_bound; lia).
  assert (j / 4096 < 2 ^ 20) by (apply Z.div_lt_upper_bound; lia).
  intros Hsame.
  assert ((start + j / 4096 - (start + i / 4096)) mod 2 ^ 32 = 0) as Hd.
  { rewrite Zminus_mod, Hsame, Z.sub_diag. done. }
  replace (start + j / 4096 - (start + i / 4096))
    with (j / 4096 - i / 4096) in Hd by lia.
  apply Z.mod_divide in Hd; [|lia]. destruct Hd as [k Hk]. lia.
Qed.

Lemma unmark_spec sb kind i (c : cache S) c' :
  cache_wf c -> coherent disk_block c -> 0 <= i < 2 ^ 32 ->
  bit_byte i
    <= Z.of_nat (length (view disk_block c (bit_block sb kind i))) ->
  ktfs_bitmap_unmark tp sb kind i c = Ok tt c' ->
  bit_clear (view disk_block c' (bit_block sb kind i)) i /\
  (forall j, 0 <= j < 2 ^ 32 -> j ≠ i ->
     bit_clear (view disk_block c' (bit_block sb kind j)) j <->
     bit_clear (view disk_block c (bit_block sb kind j)) j) /\
  (forall bn, bn ≠ bit_block sb kind i ->
     view disk_block c' bn = view disk_block c bn) /\
  cache_wf c' /\ coherent disk_block c'.
Proof.
  intros Hwf Hcoh Hi Hlen. unfold ktfs_bitmap_unmark, bit_block in *.
  destruct (ktfs_bitmap_indices_fetch sb kind) as [[start blocks] total].
  simpl fst in *. cbv zeta. case_decide; [done|].
  intros Hrun.
  destruct (bitmap_block_range (start + i / (KTFS_BLKSZ * 8))) as [Hrange Hbn].
  apply (modify_block_spec disk_block laws tp _ _
           (fun b => [Z.land (byte_at b (i mod (KTFS_BLKSZ * 8) / 8))
                        (u8 (Z.lnot (u8 (Z.shiftl 1 (i mod (KTFS_BLKSZ * 8) mod 8)))))]))
    in Hrun as (Hwf' & Hcoh' & Hnew & Hold); [|done..].
  rewrite Hbn in Hnew, Hold.
  set (blk := view disk_block c (u32 (start + i / (KTFS_BLKSZ * 8)))) in *.
  fold (bit_byte i) in Hnew. fold (bit_mask i) in Hnew.
  destruct (bit_parts i) as (Hby & Hbit & Hsplit).
  assert (Hbyte : byte_at (view disk_block c' (u32 (start + i / (KTFS_BLKSZ * 8))))
                    (bit_byte i)
                  = Z.land (byte_at blk (bit_byte i)) (u8 (Z.lnot (bit_mask i)))).
  { rewrite Hnew.
    pose proof (byte_at_splice_in blk (bit_byte i)
                  [Z.land (byte_at blk (bit_byte i)) (u8 (Z.lnot (bit_mask i)))] 0)
      as Hin.
    rewrite Z.add_0_r in Hin. rewrite Hin; [done|lia|simpl; lia]. }
  split; [|split; [|done]].
  - unfold bit_clear. rewrite Hbyte, <- Z.land_assoc.
    unfold bit_mask. rewrite (mask_cleared _ Hbit). apply Z.land_0_r.
  - intros j Hj Hne.
    destruct (decide (u32 (start + j / (KTFS_BLKSZ * 8))
                      = u32 (start + i / (KTFS_BLKSZ * 8)))) as [Hsame|Hdiff];
      [|by rewrite Hold].
    rewrite Hsame. fold blk. unfold bit_clear.
    destruct (bit_parts j) as (Hbyj & Hbitj & Hsplitj).
    destruct (decide (bit_byte j = bit_byte i)) as [Heq|Hneq].
    + rewrite Heq, Hbyte, <- Z.land_assoc.
      unfold bit_mask. rewrite mask_kept; [done|done..|].
      intros Hb. apply Hne.
      by apply (same_bit_same_index start i j).
    + rewrite Hnew. rewrite byte_at_splice_out; [done|lia|lia|simpl; lia].
Qed.

(** After a mark the bitmap block still reaches the byte of the bit. *)
Lemma mark_keeps_length sb kind i (c : cache S) c' :
  cache_wf c -> coherent disk_block c -> 0 <= i < 2 ^ 32 ->
  bit_byte i
    <= Z.of_nat (length (view disk_block c (bit_block sb kind i))) ->
  ktfs_bitmap_mark tp sb kind i c = Ok tt c' ->
  bit_byte i
    <= Z.of_nat (length (view disk_block c' (bit_block sb kind i))).
Proof.
  intros Hwf Hcoh Hi Hlen. unfold ktfs_bitmap_mark, bit_block in *.
  destruct (ktfs_bitmap_indices_fetch sb kind) as [[start blocks] total].
  simpl fst in *. case_decide; [done|]. cbv zeta. case_decide; [done|].
  intros Hrun.
  destruct (bitmap_block_range (start + i / (KTFS_BLKSZ * 8))) as [Hrange Hbn].
  apply (modify_block_spec disk_block laws tp _ _
           (fun b => [Z.lor (byte_at b (i mod (KTFS_BLKSZ * 8) / 8))
                        (u8 (Z.shiftl 1 (i mod (KTFS_BLKSZ * 8) mod 8)))]))
    in Hrun as (_ & _ & Hnew & _); [|done..].
  rewrite Hbn in Hnew. rewrite Hnew. unfold splice.
  destruct (bit_parts i) as (Hby & _).
  rewrite length_app, length_take. fold (bit_byte i). lia.
Qed.

(** X12: [ktfs_bitmap_unmark] undoes [ktfs_bitmap_mark]: after marking bit
    [i] and unmarking it again the bit is clear, whatever it was before,
    and every other bit of the bitmap and every block outside the bitmap
    is as it was before the mark.  The bit can be handed out again:
    nothing but its being clear is asked of the index that
    [ktfs_bitmap_free_bit_detect] returns. *)
Theorem ktfs_bitmap_unmark_undoes_mark sb kind i (c : cache S) c1 c2 :
  cache_wf c -> coherent disk_block c -> 0 <= i < 2 ^ 32 ->
  bit_byte i
    <= Z.of_nat (length (view disk_block c (bit_block sb kind i))) ->
  ktfs_bitmap_mark tp sb kind i c = Ok tt c1 ->
  ktfs_bitmap_unmark tp sb kind i c1 = Ok tt c2 ->
  bit_clear (view disk_block c2 (bit_block sb kind i)) i /\
  (forall j, 0 <= j < 2 ^ 32 -> j ≠ i ->
     bit_clear (view disk_block c2 (bit_block sb kind j)) j <->
     bit_clear (view disk_block c (bit_block sb kind j)) j) /\
  (forall bn, bn ≠ bit_block sb kind i ->
     view disk_block c2 bn = view disk_block c bn).
Proof.
  intros Hwf Hcoh Hi Hlen Hmark Hunmark.
  pose proof (mark_keeps_length sb kind i c c1 Hwf Hcoh Hi Hlen Hmark) as Hlen1.
  destruct (mark_spec sb kind i c c1 Hwf Hcoh Hi Hlen Hmark)
    as (_ & Hothers & Hblocks & Hwf1 & Hcoh1).
  destruct (unmark_spec sb kind i c1 c2 Hwf1 Hcoh1 Hi Hlen1 Hunmark)
    as (Hclear & Hothers2 & Hblocks2 & _).
  split; [done|]. split.
  - intros j Hj Hne. rewrite Hothers2 by done. by apply Hothers.
  - intros bn Hbn. rewrite Hblocks2 by done. by apply Hblocks.
Qed.

End KtfsBitmap.

Section KtfsBitmapOnImage.
Import Cache Ktfs KtfsMore Image.

Lemma ktfs_bitmap_free_bit_detect_free_witness :
  ktfs_bitmap_free_bit_detect 1 image_super 1 mounted
    = Ok 6 (final (ktfs_bitmap_free_bit_detect 1 image_super 1 mounted)) /\
  data_start image_super <= 6 /\
  bit_clear (view Disk.block mounted (bit_block image_super 1 6)) 6.
Proof.
  assert (ktfs_bitmap_free_bit_detect 1 image_super 1 mounted
          = Ok 6 (final (ktfs_bitmap_free_bit_detect 1 image_super 1 mounted)))
    as Hdet by (vm_compute; reflexivity).
  split; [exact Hdet|].
  destruct (ktfs_bitmap_free_bit_detect_free Disk.block disk_laws 1 image_super 1
              mounted 6
              (final (ktfs_bitmap_free_bit_detect 1 image_super 1 mounted)))
    as (_ & Hlow & _ & Hclear & _).
  - exact mounted_wf.
  - exact mounted_coherent.
  - by vm_compute.
  - exact Hdet.
  - split; [apply Hlow; lia | exact Hclear].
Defined.

Lemma ktfs_bitmap_mark_sets_bit_witness :
  let c' := final (ktfs_bitmap_mark 1 image_super 1 6 mounted) in
  ~ bit_clear (view Disk.block c' (bit_block image_super 1 6)) 6 /\
  (forall i' c'', ktfs_bitmap_free_bit_detect 1 image_super 1 c' = Ok i' c'' ->
     i' ≠ 6).
Proof.
  intros c'.
  destruct (ktfs_bitmap_mark_sets_bit Disk.block disk_laws 1 image_super 1 6
              mounted c') as (Hset & _ & _ & Hnot).
  - exact mounted_wf.
  - exact mounted_coherent.
  - lia.
  - by vm_compute.
  - vm_compute. intros Hc. discriminate Hc.
  - vm_compute. reflexivity.
  - split; [exact Hset | exact Hnot].
Defined.

Lemma ktfs_bitmap_unmark_undoes_mark_witness :
  let c1 := final (ktfs_bitmap_mark 1 image_super 1 6 mounted) in
  let c2 := final (ktfs_bitmap_unmark 1 image_super 1 6 c1) in
  bit_clear (view Disk.block c2 (bit_block image_super 1 6)) 6 /\
  (bit_clear (view Disk.block c2 (bit_block image_super 1 5)) 5 <->
   bit_clear (view Disk.block mounted (bit_block image_super 1 5)) 5).
Proof.
  intros c1 c2.
  destruct (ktfs_bitmap_unmark_undoes_mark Disk.block disk_laws 1 image_super 1 6
              mounted c1 c2) as (Hclear & Hothers & _).
  - exact mounted_wf.
  - exact mounted_coherent.
  - lia.
  - by vm_compute.
  - vm_compute. reflexivity.
  - vm_compute. reflexivity.
  - split; [exact Hclear | apply Hothers; lia].
Defined.

End KtfsBitmapOnImage.

(** ** sys/thread.c : recursive locks are balanced *)

Section LockBalance.
Import Thread ThreadMore.

Lemma run_app ops1 ops2 s :
  run (ops1 ++ ops2) s =
  match run ops1 s with Done s' => run ops2 s' | r => r end.
Proof.
  revert s. induction ops1 as [|o ops1 IH]; intros s; simpl; [done|].
  destruct (step o s); auto.
Qed.

Lemma acquire_again tp l s n : forall k,
  run (replicate n (Acquire tp l)) (held tp l s k)
  = Done (held tp l s (k + Z.of_nat n)).
Proof.
  induction n as [|n IH]; intros k; simpl.
  - by rewrite Z.add_0_r.
  - unfold lock_acquire. simpl. rewrite lookup_insert_eq. simpl.
    rewrite decide_False by (intros Hne; by apply Hne).
    rewrite insert_insert_eq. fold (held tp l s (k + 1)).
    rewrite IH. do 2 f_equal. lia.
Qed.

Lemma release_once tp l s n : forall k,
  1 <= k ->
  run (replicate n (Release tp l)) (held tp l s (k + Z.of_nat n))
  = Done (held tp l s k).
Proof.
  induction n as [|n IH]; intros k Hk; simpl.
  - by rewrite Z.add_0_r.
  - unfold lock_release. simpl. rewrite lookup_insert_eq. simpl.
    rewrite decide_False by (intros Hne; by apply Hne).
    rewrite decide_False by lia. rewrite decide_False by lia.
    rewrite insert_insert_eq.
    replace (k + Z.of_nat (Datatypes.S n) - 1) with (k + Z.of_nat n) by lia.
    fold (held tp l s (k + Z.of_nat n)). by apply IH.
Qed.

Lemma release_last tp l s :
  locks s !! l = Some (Lock None 0 None) ->
  lock_release tp l (held tp l s 1) = Done s.
Proof.
  intros Hl. unfold lock_release. simpl. rewrite lookup_insert_eq. simpl.
  rewrite decide_False by (intros Hne; by apply Hne).
  rewrite insert_insert_eq.
  unfold lock_release_completely, walk_fuel. simpl.
  rewrite lookup_insert_eq. rewrite decide_True by done.
  simpl. rewrite lookup_insert_eq.
  destruct s as [lks ll]. simpl in *.
  change (1 - 1) with 0.
  destruct (ll !! tp) as [q|] eqn:Hq; simpl;
    rewrite insert_insert_eq, (insert_id lks l) by done; do 2 f_equal.
  - by rewrite insert_insert_eq, insert_id.
  - by rewrite delete_insert_eq, delete_id.
Qed.

(** X13: A thread that takes a free lock [n] times and releases it [n] times
    leaves the kernel's locks exactly as they were: the lock is free
    again and the list of locks the thread holds is what it was.  None of
    the calls blocks or trips an assertion. *)
Theorem lock_acquire_release_balanced tp l s n :
  locks s !! l = Some (Lock None 0 None) ->
  run (replicate n (Acquire tp l) ++ replicate n (Release tp l)) s = Done s.
Proof.
  intros Hl. destruct n as [|n]; [done|].
  rewrite run_app.
  assert (run (replicate (Datatypes.S n) (Acquire tp l)) s
          = Done (held tp l s (1 + Z.of_nat n))) as ->.
  { simpl. unfold lock_acquire. rewrite Hl. simpl.
    fold (held tp l s 1). apply acquire_again. }
  replace (Datatypes.S n) with (n + 1)%nat by lia.
  rewrite replicate_add, run_app, release_once by lia.
  simpl. by rewrite release_last.
Qed.

Lemma lock_acquire_release_balanced_witness :
  let s := State {[ 64 := Lock None 0 None; 72 := Lock (Some 1) 2 None ]}
                 {[ 1 := 72 ]} in
  run (replicate 3 (Acquire 1 64) ++ replicate 3 (Release 1 64)) s = Done s.
Proof.
  intros s. apply (lock_acquire_release_balanced 1 64 s 3). reflexivity.
Defined.

End LockBalance.

(** ** sys/thread.c : thread lists are first-in first-out *)

Section SchedFacts.
Import Sched.

Lemma chain_ext ts ts' q :
  (forall t, t ∈ q -> list_next <$> ts' !! t = list_next <$> ts !! t) ->
  chain ts q -> chain ts' q.
Proof.
  induction q as [|t q IH]; simpl; [done|]. intros Hsame [Ht Hq]. split.
  - rewrite Hsame; [done|]. by apply elem_of_cons; left.
  - apply IH; [|done]. intros u Hu. apply Hsame. by apply elem_of_cons; right.
Qed.

Lemma chain_lookup ts q t : chain ts q -> t ∈ q -> is_Some (ts !! t).
Proof.
  induction q as [|a q IH]; simpl; [by intros _ ?%elem_of_nil|].
  intros [Ha Hq] [->|Hin]%elem_of_cons; [|by apply IH].
  destruct (ts !! a); [by eexists|done].
Qed.

Lemma last_elem_of (q : list tid) t : last q = Some t -> t ∈ q.
Proof.
  intros Hl. apply last_Some in Hl as [q' ->]. apply elem_of_app. right.
  by apply list_elem_of_singleton.
Qed.

(** Linking [t] behind the last thread of a chain. *)
Lemma chain_snoc ts q tl_ tlh t th :
  chain ts q -> NoDup q -> last q = Some tl_ -> t ∉ q ->
  ts !! tl_ = Some tlh ->
  chain (<[tl_ := set_next (Some t) tlh]> (<[t := set_next None th]> ts))
        (q ++ [t]).
Proof.
  intros Hq Hnd Hlast Ht Htl. revert Hq Hnd Hlast Ht.
  induction q as [|a q IH]; [done|].
  intros [Ha Hq] Hnd Hlast Ht.
  apply NoDup_cons in Hnd as [Haq Hnd].
  apply not_elem_of_cons in Ht as [Hta Htq].
  destruct q as [|b q].
  - injection Hlast as <-. simpl. rewrite lookup_insert_eq. split; [done|].
    rewrite lookup_insert_ne by done. rewrite lookup_insert_eq. done.
  - assert (a ≠ tl_) as Hne.
    { intros ->. apply Haq. by apply last_elem_of. }
    simpl. split.
    + rewrite !lookup_insert_ne by done. done.
    + by apply IH.
Qed.

Lemma tlinsert_spec ts l q t :
  holds_queue ts l q -> t ∉ q -> is_Some (ts !! t) ->
  exists l' ts',
    tlinsert l (Some t) ts = Done (l', ts') /\
    holds_queue ts' l' (q ++ [t]) /\ same_but_links (q ++ [t]) ts ts'.
Proof.
  intros (Hhead & Htail & Hchain & Hnd) Ht [th Hth].
  unfold tlinsert. rewrite Hth. cbv zeta.
  destruct (last q) as [tl_|] eqn:Hlast.
  - rewrite Htail.
    assert (exists a, List.head q = Some a) as [a Ha]
      by (destruct q; [done|by eexists]).
    rewrite Hhead, Ha.
    assert (tl_ ∈ q) as Hin by (by apply last_elem_of).
    assert (tl_ ≠ t) as Hne by (intros ->; done).
    destruct (chain_lookup ts _ tl_ Hchain Hin) as [tlh Htlh].
    rewrite lookup_insert_ne by done. rewrite Htlh.
    eexists _, _. split; [done|]. split; [|].
    + split; [simpl; destruct q; [done|by simpl in *]|].
      split; [by rewrite last_snoc|].
      split; [by apply chain_snoc|].
      apply NoDup_app. split; [done|]. split; [|apply NoDup_singleton].
      intros x Hx ->%list_elem_of_singleton. done.
    + intros u. destruct (decide (u = tl_)) as [->|Hu1].
      { rewrite Htlh, lookup_insert_eq. simpl. split; [done|]. split; [done|].
        intros Hnot. exfalso. apply Hnot. apply elem_of_app. by left. }
      rewrite lookup_insert_ne by done.
      destruct (decide (u = t)) as [->|Hu2].
      { rewrite Hth, lookup_insert_eq. simpl. split; [done|]. split; [done|].
        intros Hnot. exfalso. apply Hnot. apply elem_of_app. right.
        by apply list_elem_of_singleton. }
      rewrite lookup_insert_ne by done. by destruct (ts !! u).
  - rewrite Htail. apply last_None in Hlast. subst q. rewrite Hhead. simpl.
    eexists _, _. split; [done|]. split.
    + split; [done|]. split; [done|]. split; [|apply NoDup_singleton].
      simpl. by rewrite lookup_insert_eq.
    + intros u. destruct (decide (u = t)) as [->|Hu].
      { rewrite Hth, lookup_insert_eq. simpl. split; [done|]. split; [done|].
        intros Hnot. exfalso. apply Hnot. by apply list_elem_of_singleton. }
      rewrite lookup_insert_ne by done. by destruct (ts !! u).
Qed.

Lemma tlremove_spec ts l t q :
  holds_queue ts l (t :: q) ->
  exists l' ts',
    tlremove l ts = Done (Some t, l', ts') /\
    holds_queue ts' l' q /\ same_but_links [t] ts ts' /\
    list_next <$> ts' !! t = Some None /\
    (q = [] -> l' = TL None None).
Proof.
  intros (Hhead & Htail & Hchain & Hnd).
  unfold tlremove; rewrite Hhead; simpl.
  destruct Hchain as [Ht Hq'].
  destruct (ts !! t) as [th|] eqn:Hth; [|done]. simpl in Ht.
  injection Ht as Ht. apply NoDup_cons in Hnd as [Htq Hnd].
  eexists _, _. split; [done|]. split; [|split; [|split]].
  - split; [done|]. split.
    + simpl. rewrite Ht. destruct q as [|b q'']; [done|]. simpl.
      rewrite Htail. done.
    + split; [|done]. apply (chain_ext ts); [|done].
      intros u Hu. rewrite lookup_insert_ne; [done|]. intros ->. done.
  - intros u. destruct (decide (u = t)) as [->|Hu].
    { rewrite Hth, lookup_insert_eq. simpl. split; [done|]. split; [done|].
      intros Hnot. exfalso. apply Hnot. by apply list_elem_of_singleton. }
    rewrite lookup_insert_ne by done. by destruct (ts !! u).
  - by rewrite lookup_insert_eq.
  - intros ->. by rewrite Ht.
Qed.

(** X15: A thread list is a queue.  [tlinsert] puts a thread that is not in
    the list behind the last one, and [tlremove] takes the first one
    out, leaving its link NULL; on the empty list [tlremove] returns
    NULL.  Neither trips an assertion, and neither changes the state or
    the wait condition of any thread. *)
Theorem thread_list_is_fifo ts l q :
  holds_queue ts l q ->
  (forall t, t ∉ q -> is_Some (ts !! t) ->
     exists l' ts',
       tlinsert l (Some t) ts = Done (l', ts') /\
       holds_queue ts' l' (q ++ [t]) /\ same_but_links (q ++ [t]) ts ts') /\
  match q with
  | [] => tlremove l ts = Done (None, l, ts)
  | t :: q' =>
      exists l' ts',
        tlremove l ts = Done (Some t, l', ts') /\
        holds_queue ts' l' q' /\ same_but_links [t] ts ts' /\
        list_next <$> ts' !! t = Some None
  end.
Proof.
  intros Hq. split.
  - intros t Ht Hin. by apply tlinsert_spec.
  - destruct q as [|t q'].
    + destruct Hq as (Hhead & _). unfold tlremove. by rewrite Hhead.
    + destruct (tlremove_spec ts l t q' Hq) as (l' & ts' & ? & ? & ? & ? & _).
      by exists l', ts'.
Qed.

(** Changes to the links of threads outside a queue keep the queue. *)
Lemma holds_queue_frame ts ts' l q q0 :
  same_but_links q0 ts ts' -> (forall t, t ∈ q -> t ∉ q0) ->
  holds_queue ts l q -> holds_queue ts' l q.
Proof.
  intros Hsame Hdis (Hhead & Htail & Hchain & Hnd).
  split; [done|]. split; [done|]. split; [|done].
  apply (chain_ext ts); [|done]. intros t Ht.
  specialize (Hsame t). specialize (Hdis t Ht).
  destruct (ts !! t) as [th|], (ts' !! t) as [th'|]; try done.
  destruct Hsame as (_ & _ & Hn). simpl. by rewrite Hn.
Qed.

Lemma same_but_links_status q ts ts' u th :
  same_but_links q ts ts' -> ts !! u = Some th ->
  exists th', ts' !! u = Some th' /\ t_state th' = t_state th /\
    wait_cond th' = wait_cond th.
Proof.
  intros Hsame Hu. specialize (Hsame u). rewrite Hu in Hsame.
  destruct (ts' !! u) as [th'|]; [|done]. exists th'. by destruct Hsame as (? & ? & _).
Qed.

(** The loop of [condition_broadcast] with enough rounds left. *)
Lemma broadcast_loop_spec qw : forall fuel ts wait ready qr,
  (length qw <= fuel)%nat ->
  holds_queue ts wait qw -> holds_queue ts ready qr ->
  (forall t, t ∈ qw -> t ∉ qr) ->
  exists ready' ts',
    broadcast_loop fuel wait ready ts = Done (TL None None, ready', ts') /\
    holds_queue ts' ready' (qr ++ qw) /\
    (forall t, t ∈ qw ->
       exists th, ts' !! t = Some th /\ t_state th = THREAD_READY /\
                  wait_cond th = None) /\
    (forall t th, t ∉ qw -> ts !! t = Some th ->
       exists th', ts' !! t = Some th' /\ t_state th' = t_state th /\
                   wait_cond th' = wait_cond th).
Proof.
  induction qw as [|t qw IH]; intros fuel ts wait ready qr Hfuel Hw Hr Hdis.
  - destruct Hw as (Hhead & Htail & _). destruct wait as [h tl_]. simpl in *.
    subst h tl_. exists ready, ts.
    split; [by destruct fuel|]. rewrite app_nil_r. split; [done|].
    split; [by intros t ?%elem_of_nil|]. intros t th _ Ht. by exists th.
  - destruct fuel as [|fuel]; [simpl in Hfuel; lia|].
    pose proof Hw as (_ & _ & _ & Hnd). apply NoDup_cons in Hnd as [Htqw Hndw].
    destruct (tlremove_spec ts wait t qw Hw)
      as (wait1 & ts1 & Hrem & Hw1 & Hsame1 & Hnext1 & _).
    cbn [broadcast_loop]. rewrite Hrem.
    destruct (ts1 !! t) as [th1|] eqn:Hth1; [|done]. cbv zeta.
    set (ts2 := <[t := Thread THREAD_READY (list_next th1) None]> ts1).
    assert (Hchg : forall u, u ≠ t -> ts2 !! u = ts1 !! u)
      by (intros u Hu; unfold ts2; by rewrite lookup_insert_ne).
    assert (Hw2 : holds_queue ts2 wait1 qw).
    { destruct Hw1 as (? & ? & Hc & ?). split; [done|]. split; [done|].
      split; [|done]. apply (chain_ext ts1); [|done].
      intros u Hu. rewrite Hchg; [done|]. by intros ->. }
    assert (Hr2 : holds_queue ts2 ready qr).
    { assert (t ∉ qr) as Htqr by (apply Hdis; by apply elem_of_cons; left).
      apply (holds_queue_frame ts ts1 _ _ [t] Hsame1) in Hr.
      2:{ intros u Hu ->%list_elem_of_singleton. done. }
      destruct Hr as (? & ? & Hc & ?). split; [done|]. split; [done|].
      split; [|done]. apply (chain_ext ts1); [|done].
      intros u Hu. rewrite Hchg; [done|]. by intros ->. }
    destruct (tlinsert_spec ts2 ready qr t Hr2) as (ready3 & ts3 & Hins & Hr3 & Hsame3).
    { apply Hdis. by apply elem_of_cons; left. }
    { unfold ts2. rewrite lookup_insert_eq. by eexists. }
    rewrite Hins.
    assert (Hw3 : holds_queue ts3 wait1 qw).
    { apply (holds_queue_frame ts2 ts3 _ _ (qr ++ [t]) Hsame3); [|done].
      intros u Hu [Hin|Hin%list_elem_of_singleton]%elem_of_app.
      - apply (Hdis u); [by apply elem_of_cons; right|done].
      - by subst u. }
    destruct (IH fuel ts3 wait1 ready3 (qr ++ [t]))
      as (ready' & ts' & Hrun & Hr' & Hwoken & Hframe); [simpl in Hfuel; lia|done..| |].
    { intros u Hu [Hin|Hin%list_elem_of_singleton]%elem_of_app.
      - apply (Hdis u); [by apply elem_of_cons; right|done].
      - by subst u. }
    exists ready', ts'. split; [done|].
    split; [by rewrite <- app_assoc in Hr'|]. split.
    + intros u [->|Hu]%elem_of_cons; [|by apply Hwoken].
      destruct (same_but_links_status _ ts2 ts3 t
                  (Thread THREAD_READY (list_next th1) None) Hsame3)
        as (th3 & Hth3 & Hs3 & Hc3); [unfold ts2; by rewrite lookup_insert_eq|].
      destruct (Hframe t th3 Htqw Hth3) as (th' & Hth' & Hs' & Hc').
      exists th'. split; [done|]. simpl in *. split; congruence.
    + intros u th Hu Hth. apply not_elem_of_cons in Hu as [Hut Huq].
      destruct (same_but_links_status _ ts ts1 u th Hsame1 Hth)
        as (tha & Htha & Hsa & Hca).
      rewrite <- (Hchg u Hut) in Htha.
      destruct (same_but_links_status _ ts2 ts3 u tha Hsame3 Htha)
        as (thb & Hthb & Hsb & Hcb).
      destruct (Hframe u thb Huq Hthb) as (th' & Hth' & Hs' & Hc').
      exists th'. split; [done|]. split; congruence.
Qed.

(** The waiters are threads of the table, each one once. *)
Lemma queue_length ts l q : holds_queue ts l q -> (length q <= size ts)%nat.
Proof.
  intros (_ & _ & Hchain & Hnd).
  assert (list_to_set q ⊆ dom ts) as Hsub.
  { intros t Ht. apply elem_of_list_to_set in Ht. apply elem_of_dom.
    by apply (chain_lookup ts q). }
  apply subseteq_size in Hsub.
  rewrite size_list_to_set in Hsub by done. by rewrite size_dom in Hsub.
Qed.

(** X16: [condition_broadcast] wakes every waiter, in the order in which they
    went to sleep: the wait list of the condition ends up empty, the
    waiters are appended to the ready list first to last, each of them
    READY and waiting on nothing; the threads that were not waiting keep
    their state.  No assertion fails. *)
Theorem condition_broadcast_wakes_all ts wait ready qw qr :
  holds_queue ts wait qw -> holds_queue ts ready qr ->
  (forall t, t ∈ qw -> t ∉ qr) ->
  exists ready' ts',
    condition_broadcast wait ready ts = Done (tlclear, ready', ts') /\
    holds_queue ts' ready' (qr ++ qw) /\
    (forall t, t ∈ qw ->
       exists th, ts' !! t = Some th /\ t_state th = THREAD_READY /\
                  wait_cond th = None) /\
    (forall t th, t ∉ qw -> ts !! t = Some th ->
       exists th', ts' !! t = Some th' /\ t_state th' = t_state th /\
                   wait_cond th' = wait_cond th).
Proof.
  intros Hw Hr Hdis. unfold condition_broadcast, tlclear.
  apply broadcast_loop_spec; [|done..].
  pose proof (queue_length ts wait qw Hw). lia.
Qed.

Lemma thread_list_is_fifo_witness :
  let ts : gmap tid thread :=
    {[ 100 := Thread THREAD_READY (Some 200) None;
       200 := Thread THREAD_READY None None;
       300 := Thread THREAD_SELF (Some 100) None ]} in
  (exists l' ts',
     tlinsert (TL (Some 100) (Some 200)) (Some 300) ts = Done (l', ts') /\
     holds_queue ts' l' [100; 200; 300]) /\
  (exists l' ts',
     tlremove (TL (Some 100) (Some 200)) ts = Done (Some 100, l', ts') /\
     holds_queue ts' l' [200]).
Proof.
  intros ts.
  destruct (thread_list_is_fifo ts (TL (Some 100) (Some 200)) [100; 200])
    as [Hins Hrem].
  - split; [done|]. split; [done|]. split; [by vm_compute|].
    apply (bool_decide_unpack _). by vm_compute.
  - split.
    + destruct (Hins 300) as (l' & ts' & H1 & H2 & _).
      * apply (bool_decide_unpack _). by vm_compute.
      * by eexists.
      * by exists l', ts'.
    + destruct Hrem as (l' & ts' & H1 & H2 & _). by exists l', ts'.
Defined.

Lemma condition_broadcast_wakes_all_witness :
  let ts : gmap tid thread :=
    {[ 100 := Thread THREAD_WAITING (Some 200) (Some 7);
       200 := Thread THREAD_WAITING None (Some 7);
       300 := Thread THREAD_READY None None ]} in
  exists ready' ts',
    condition_broadcast (TL (Some 100) (Some 200)) (TL (Some 300) (Some 300)) ts
      = Done (tlclear, ready', ts') /\
    holds_queue ts' ready' [300; 100; 200].
Proof.
  intros ts.
  destruct (condition_broadcast_wakes_all ts (TL (Some 100) (Some 200))
              (TL (Some 300) (Some 300)) [100; 200] [300])
    as (ready' & ts' & Hrun & Hq & _).
  - split; [done|]. split; [done|]. split; [by vm_compute|].
    apply (bool_decide_unpack _). by vm_compute.
  - split; [done|]. split; [done|]. split; [by vm_compute|].
    apply (bool_decide_unpack _). by vm_compute.
  - intros t Ht Hr. apply list_elem_of_singleton in Hr as ->.
    revert Ht. apply (bool_decide_unpack _). by vm_compute.
  - by exists ready', ts'.
Defined.

End SchedFacts.

(** ** sys/memory.c : the free chunk list under free and alloc *)

Section FreeListFacts.
Import Memory MemoryMore.

Variables (base hi : Z).

Lemma page_size_val : PAGE_SIZE = 4096.
Proof. reflexivity. Qed.

Lemma free_list_from_mono lo lo' fl :
  lo' <= lo -> free_list_from hi lo fl -> free_list_from hi lo' fl.
Proof. destruct fl as [|c l]; [done|]. simpl. intros ? (? & ?). split; [lia|done]. Qed.

Lemma free_list_from_lower lo fl c :
  free_list_from hi lo fl -> c ∈ fl -> lo <= chunk_addr c /\ chunk_end c <= hi.
Proof.
  revert lo. induction fl as [|d l IH]; intros lo Hwf Hc; [by apply elem_of_nil in Hc|].
  destruct Hwf as (H1 & H2 & H3 & H4 & H5).
  apply elem_of_cons in Hc as [->|Hc]; [done|].
  destruct (IH _ H5 Hc). unfold chunk_end in *. rewrite page_size_val in *. lia.
Qed.

Lemma free_list_chunk_wf lo fl :
  0 < lo -> hi < 2 ^ 64 -> free_list_from hi lo fl -> Forall chunk_wf fl.
Proof.
  revert lo. induction fl as [|d l IH]; intros lo Hlo Hhi Hwf; [constructor|].
  destruct Hwf as (H1 & H2 & H3 & H4 & H5). constructor.
  - unfold chunk_wf, chunk_end in *. lia.
  - apply (IH (chunk_end d)); [|done..].
    unfold chunk_end. rewrite page_size_val. lia.
Qed.

Lemma free_list_pages lo fl :
  free_list_from hi lo fl ->
  0 <= pages fl /\ pages fl * PAGE_SIZE <= Z.max 0 (hi - lo).
Proof.
  revert lo. induction fl as [|d l IH]; intros lo Hwf; simpl; [lia|].
  destruct Hwf as (H1 & H2 & H3 & H4 & H5). destruct (IH _ H5) as [Ha Hb].
  unfold chunk_end in *. rewrite page_size_val in *. lia.
Qed.

Lemma count_from l : forall a,
  fold_left (fun total chunk => u64 (total + pagecnt chunk)) l (u64 a)
  = u64 (a + pages l).
Proof.
  induction l as [|c l IH]; intros a; simpl; [by rewrite Z.add_0_r|].
  replace (u64 (u64 a + pagecnt c)) with (u64 (a + pagecnt c))
    by (unfold u64; by rewrite Zplus_mod_idemp_l).
  rewrite IH. f_equal. lia.
Qed.

Lemma count_pages fl : free_phys_page_count fl = u64 (pages fl).
Proof. unfold free_phys_page_count. apply (count_from fl 0). Qed.

Lemma pages_app l1 l2 : pages (l1 ++ l2) = pages l1 + pages l2.
Proof. induction l1 as [|c l IH]; simpl; [done|]. rewrite IH. lia. Qed.

Lemma pages_insert_at k fl c :
  pages (take k fl ++ c :: drop k fl) = pages fl + pagecnt c.
Proof.
  rewrite pages_app. simpl. rewrite <- (take_drop k fl) at 3.
  rewrite pages_app. lia.
Qed.

Lemma pages_delete fl : forall i b,
  fl !! i = Some b -> pages (delete i fl) = pages fl - pagecnt b.
Proof.
  induction fl as [|c l IH]; intros [|i] b Hb; simpl in *; try done.
  - injection Hb as ->. lia.
  - rewrite (IH i b Hb). lia.
Qed.

Lemma pages_update fl : forall i b x,
  fl !! i = Some b -> pages (<[i := x]> fl) = pages fl - pagecnt b + pagecnt x.
Proof.
  induction fl as [|c l IH]; intros [|i] b x Hb; simpl in *; try done.
  - injection Hb as ->. lia.
  - rewrite (IH i b x Hb). lia.
Qed.

(** The walk stops at the place that keeps the list in address order. *)
Lemma find_slot_apart pp cnt : forall fl lo i,
  hi < 2 ^ 64 -> 0 <= lo -> lo <= pp -> 1 <= cnt ->
  Z.land pp (PAGE_SIZE - 1) = 0 -> pp + cnt * PAGE_SIZE <= hi ->
  free_list_from hi lo fl -> Forall (apart pp cnt) fl ->
  exists k, find_slot pp (pp + cnt * PAGE_SIZE) fl i = Some (i + k)%nat /\
    free_list_from hi lo (take k fl ++ Chunk pp cnt :: drop k fl).
Proof.
  induction fl as [|c l IH]; intros lo i Hhi Hlo Hpp Hcnt Hal Hend Hwf Hap.
  - exists 0%nat. simpl. split; [f_equal; lia|]. unfold chunk_end. simpl. done.
  - destruct Hwf as (H1 & H2 & H3 & H4 & H5).
    apply Forall_cons in Hap as [Hc Hap].
    assert (u64 (chunk_addr c + u64 (pagecnt c * 2 ^ PAGE_ORDER)) = chunk_end c) as Hce.
    { unfold chunk_end, u64 in *. rewrite page_size_val in *.
      change (2 ^ PAGE_ORDER) with 4096.
      rewrite (Z.mod_small (pagecnt c * 4096)) by lia. apply Z.mod_small. lia. }
    cbn [find_slot]. cbv zeta. rewrite Hce.
    destruct (decide (pp + cnt * PAGE_SIZE <= chunk_addr c)) as [Hbefore|Hnot].
    + exists 0%nat. split; [f_equal; lia|]. simpl. unfold chunk_end at 1 2. simpl.
      repeat split; try done.
    + destruct Hc as [Hc|Hc]; [|lia]. rewrite decide_True by done.
      destruct (IH (chunk_end c) (S i)) as (k & Hk & Hwf'); try done.
      { unfold chunk_end. rewrite page_size_val. lia. }
      exists (S k). split; [rewrite Hk; f_equal; lia|]. simpl. done.
Qed.

(** A chunk that shares a byte with the pages stops the walk. *)
Lemma find_slot_overlap pp cnt : forall fl lo i,
  hi < 2 ^ 64 -> 0 <= lo -> lo <= pp -> 1 <= cnt ->
  pp + cnt * PAGE_SIZE <= hi ->
  free_list_from hi lo fl -> Exists (fun c => ~ apart pp cnt c) fl ->
  find_slot pp (pp + cnt * PAGE_SIZE) fl i = None.
Proof.
  induction fl as [|c l IH]; intros lo i Hhi Hlo Hpp Hcnt Hend Hwf Hex.
  - by apply Exists_nil in Hex.
  - pose proof Hwf as (H1 & H2 & H3 & H4 & H5).
    assert (u64 (chunk_addr c + u64 (pagecnt c * 2 ^ PAGE_ORDER)) = chunk_end c) as Hce.
    { unfold chunk_end, u64 in *. rewrite page_size_val in *.
      change (2 ^ PAGE_ORDER) with 4096.
      rewrite (Z.mod_small (pagecnt c * 4096)) by lia. apply Z.mod_small. lia. }
    cbn [find_slot]. cbv zeta. rewrite Hce.
    destruct (decide (pp + cnt * PAGE_SIZE <= chunk_addr c)) as [Hbefore|Hnot].
    + exfalso. apply Exists_exists in Hex as (d & Hd & Hov). apply Hov. right.
      destruct (free_list_from_lower lo (c :: l) d Hwf Hd) as [_ _].
      apply elem_of_cons in Hd as [->|Hd]; [done|].
      destruct (free_list_from_lower _ l d H5 Hd) as [Hlow _].
      unfold chunk_end in Hlow. rewrite page_size_val in *. lia.
    + destruct (decide (chunk_end c <= pp)) as [Hafter|Hin]; [|done].
      apply Exists_cons in Hex as [Hov|Hex]; [exfalso; apply Hov; by left|].
      apply (IH (chunk_end c)); try done.
      unfold chunk_end. rewrite page_size_val. lia.
Qed.

Lemma free_end_no_wrap pp cnt :
  hi < 2 ^ 64 -> 0 < pp -> 1 <= cnt < 2 ^ 32 -> pp + cnt * PAGE_SIZE <= hi ->
  u64 (pp + u64 (cnt * 2 ^ PAGE_ORDER)) = pp + cnt * PAGE_SIZE.
Proof.
  intros. unfold u64. rewrite page_size_val in *. change (2 ^ PAGE_ORDER) with 4096.
  rewrite (Z.mod_small (cnt * 4096)) by lia. apply Z.mod_small. lia.
Qed.

Lemma perm_insert_at {A} (k : nat) (l : list A) x :
  take k l ++ x :: drop k l ≡ₚ x :: l.
Proof.
  rewrite <- (take_drop k l) at 3. symmetry. apply Permutation_middle.
Qed.

Lemma free_phys_pages_apart pp cnt fl :
  0 < base -> hi < 2 ^ 64 -> free_list_wf base hi fl ->
  1 <= cnt < 2 ^ 32 ->
  Z.land pp (PAGE_SIZE - 1) = 0 -> base <= pp -> pp + cnt * PAGE_SIZE <= hi ->
  Forall (apart pp cnt) fl ->
  exists fl', free_phys_pages base hi pp cnt fl = Freed fl' /\
    free_list_wf base hi fl' /\ fl' ≡ₚ Chunk pp cnt :: fl /\
    pages fl' = pages fl + cnt.
Proof.
  intros Hbase Hhi Hwf Hcnt Hal Hlow Hend Hap. unfold free_phys_pages.
  rewrite decide_False by lia. rewrite decide_True by done.
  rewrite decide_True by done. cbv zeta.
  rewrite free_end_no_wrap by (done || lia). rewrite decide_True by done.
  destruct (find_slot_apart pp cnt fl base 0%nat) as (k & -> & Hwf'); try done; try lia.
  eexists. split; [done|]. split; [done|]. split; [apply perm_insert_at|].
  apply pages_insert_at.
Qed.

(** X17: [free_phys_pages] keeps the free list in shape.  Given pages that are
    page aligned, inside the pool and apart from every free chunk, it
    links them in as one new chunk at the place that keeps the list in
    ascending address order and free of overlap, and the free page count
    grows by [cnt]; chunks are never merged.  Given pages that share a
    byte with a free chunk (a double free), it panics. *)
Theorem free_phys_pages_keeps_list_sorted pp cnt fl :
  0 < base -> hi < 2 ^ 64 -> free_list_wf base hi fl ->
  1 <= cnt < 2 ^ 32 ->
  Z.land pp (PAGE_SIZE - 1) = 0 -> base <= pp -> pp + cnt * PAGE_SIZE <= hi ->
  (Forall (apart pp cnt) fl ->
     exists fl', free_phys_pages base hi pp cnt fl = Freed fl' /\
       free_list_wf base hi fl' /\ fl' ≡ₚ Chunk pp cnt :: fl /\
       free_phys_page_count fl' = free_phys_page_count fl + cnt) /\
  (Exists (fun c => ~ apart pp cnt c) fl ->
     free_phys_pages base hi pp cnt fl = FreePanic Overlapping).
Proof.
  intros Hbase Hhi Hwf Hcnt Hal Hlow Hend. split.
  - intros Hap.
    destruct (free_phys_pages_apart pp cnt fl) as (fl' & Hfree & Hwf' & Hperm & Hpg);
      try done.
    exists fl'. split; [done|]. split; [done|]. split; [done|].
    rewrite !count_pages, Hpg.
    destruct (free_list_pages base fl Hwf) as [Ha Hb].
    destruct (free_list_pages base fl' Hwf') as [Ha' Hb'].
    unfold u64. rewrite page_size_val in *.
    rewrite !Z.mod_small by lia. done.
  - intros Hex. unfold free_phys_pages.
    rewrite decide_False by lia. rewrite decide_True by done.
    rewrite decide_True by done. cbv zeta.
    rewrite free_end_no_wrap by (done || lia). rewrite decide_True by done.
    rewrite (find_slot_overlap pp cnt fl base); try done; lia.
Qed.

(** What a successful [alloc_phys_pages] did. *)
Lemma alloc_phys_pages_cases cnt fl pp fl' :
  0 <= cnt < 2 ^ 32 -> Forall chunk_wf fl ->
  alloc_phys_pages cnt fl = Allocated pp fl' ->
  exists i best, fl !! i = Some best /\ 1 <= cnt <= pagecnt best /\
    ((pagecnt best = cnt /\ pp = chunk_addr best /\ fl' = delete i fl) \/
     (cnt < pagecnt best /\
      pp = chunk_addr best + (pagecnt best - cnt) * PAGE_SIZE /\
      fl' = <[i := Chunk (chunk_addr best) (pagecnt best - cnt)]> fl)).
Proof.
  intros Hcnt Hwf. unfold alloc_phys_pages.
  destruct (decide (cnt = 0)) as [|Hnz]; [done|].
  pose proof (find_best_whole cnt fl) as Hscan.
  destruct fl as [|c0 fl0]; [done|].
  destruct (find_best cnt (c0 :: fl0) 0 None) as [[i b]|]; [|done].
  destruct Hscan as (Hi & Hb & _).
  assert (chunk_wf b) as Hbwf.
  { rewrite Forall_forall in Hwf. eapply Hwf, list_elem_of_lookup_2, Hi. }
  cbv zeta. rewrite (chunk_bytes_no_wrap b Hbwf).
  assert (u64 (cnt * 2 ^ PAGE_ORDER) = cnt * PAGE_SIZE) as ->.
  { unfold u64, PAGE_SIZE, PAGE_ORDER. apply Z.mod_small. lia. }
  destruct Hbwf as (Hb1 & Hb2 & Hb3). rewrite page_size_val in *.
  rewrite decide_False by lia.
  destruct (decide (pagecnt b = cnt)) as [Heq|Hne]; intros Hres;
    injection Hres as <- <-; exists i, b; (split; [done|]); (split; [lia|]).
  - by left.
  - right. split; [lia|]. split; [|done]. unfold u64. rewrite Z.mod_small by lia. lia.
Qed.

Lemma free_list_delete fl : forall lo i,
  free_list_from hi lo fl -> free_list_from hi lo (delete i fl).
Proof.
  induction fl as [|c l IH]; intros lo [|i] Hwf; try done.
  - destruct Hwf as (H1 & H2 & H3 & H4 & H5).
    apply (free_list_from_mono (chunk_end c)); [|done].
    unfold chunk_end. rewrite page_size_val. lia.
  - destruct Hwf as (H1 & H2 & H3 & H4 & H5). simpl. repeat split; try done.
    by apply IH.
Qed.

Lemma free_list_shrink fl : forall lo i b n,
  free_list_from hi lo fl -> fl !! i = Some b -> 1 <= n <= pagecnt b ->
  free_list_from hi lo (<[i := Chunk (chunk_addr b) n]> fl).
Proof.
  induction fl as [|c l IH]; intros lo [|i] b n Hwf Hb Hn; try done.
  - injection Hb as ->. destruct Hwf as (H1 & H2 & H3 & H4 & H5).
    simpl. unfold chunk_end in *. simpl. rewrite page_size_val in *.
    repeat split; try done; try lia.
    apply (free_list_from_mono (chunk_addr b + pagecnt b * 4096)); [lia|done].
  - destruct Hwf as (H1 & H2 & H3 & H4 & H5). simpl. repeat split; try done.
    by apply (IH _ i b n).
Qed.

(** Two chunks of the list never share a byte. *)
Lemma free_list_apart fl : forall lo i j b c,
  free_list_from hi lo fl -> fl !! i = Some b -> fl !! j = Some c -> i ≠ j ->
  chunk_end c <= chunk_addr b \/ chunk_end b <= chunk_addr c.
Proof.
  induction fl as [|d l IH]; intros lo [|i] [|j] b c Hwf Hb Hc Hij; try done;
    destruct Hwf as (H1 & H2 & H3 & H4 & H5); simpl in *.
  - injection Hb as ->. right.
    by destruct (free_list_from_lower _ l c H5 (list_elem_of_lookup_2 _ _ _ Hc)).
  - injection Hc as ->. left.
    by destruct (free_list_from_lower _ l b H5 (list_elem_of_lookup_2 _ _ _ Hb)).
  - apply (IH _ i j b c H5 Hb Hc). congruence.
Qed.

Lemma aligned_offset a k :
  Z.land a (PAGE_SIZE - 1) = 0 -> Z.land (a + k * PAGE_SIZE) (PAGE_SIZE - 1) = 0.
Proof.
  change (PAGE_SIZE - 1) with (Z.ones 12). rewrite !Z.land_ones by lia.
  rewrite page_size_val. change (2 ^ 12) with 4096. intros Ha.
  rewrite Z.add_mod, Ha, Z.mod_mul by lia. done.
Qed.

(** X18: [alloc_phys_pages] followed by [free_phys_pages] of the same pages.
    The allocation leaves the free list in shape with [cnt] pages fewer;
    giving the pages back succeeds (it trips no assertion and finds no
    overlap) and restores the free page count.  The pages come back as
    a chunk of their own: the list is not the one before the
    allocation when the chunk was split. *)
Theorem alloc_phys_pages_then_free cnt fl pp fl' :
  0 < base -> hi < 2 ^ 64 -> free_list_wf base hi fl ->
  1 <= cnt < 2 ^ 32 ->
  alloc_phys_pages cnt fl = Allocated pp fl' ->
  free_list_wf base hi fl' /\
  free_phys_page_count fl' = free_phys_page_count fl - cnt /\
  exists fl'',
    free_phys_pages base hi pp cnt fl' = Freed fl'' /\
    free_list_wf base hi fl'' /\
    fl'' ≡ₚ Chunk pp cnt :: fl' /\
    free_phys_page_count fl'' = free_phys_page_count fl.
Proof.
  intros Hbase Hhi Hwf Hcnt Halloc.
  pose proof (free_list_chunk_wf base fl Hbase Hhi Hwf) as Hcwf.
  destruct (alloc_phys_pages_cases cnt fl pp fl' ltac:(lia) Hcwf Halloc)
    as (i & b & Hb & Hfit & Hcase).
  pose proof (list_elem_of_lookup_2 _ _ _ Hb) as Hbin.
  destruct (free_list_from_lower base fl b Hwf Hbin) as [Hblo Hbhi].
  assert (Z.land (chunk_addr b) (PAGE_SIZE - 1) = 0) as Hbal.
  { clear -Hwf Hbin. revert Hwf. generalize base. induction fl as [|d l IH];
      intros lo Hwf; [by apply elem_of_nil in Hbin|].
    destruct Hwf as (H1 & H2 & H3 & H4 & H5).
    apply elem_of_cons in Hbin as [->|Hin]; [done|]. by apply (IH Hin (chunk_end d)). }
  assert (free_list_wf base hi fl' /\ pages fl' = pages fl - cnt /\
          Z.land pp (PAGE_SIZE - 1) = 0 /\ base <= pp /\
          pp + cnt * PAGE_SIZE <= hi /\ Forall (apart pp cnt) fl')
    as (Hwf' & Hpg' & Hal & Hlow & Hend & Hap).
  { unfold chunk_end in *. rewrite page_size_val in *.
    destruct Hcase as [(Heq & -> & ->)|(Hlt & -> & ->)].
    - split; [by apply free_list_delete|].
      split; [rewrite (pages_delete fl i b Hb); lia|].
      split; [done|]. split; [done|]. split; [lia|].
      apply Forall_forall. intros c Hc.
      apply list_elem_of_lookup_1 in Hc as [j Hj].
      assert (exists j', fl !! j' = Some c /\ i ≠ j') as (j' & Hj' & Hne).
      { destruct (decide (j < i)%nat).
        - exists j. rewrite list_lookup_delete_lt in Hj by done. split; [done|lia].
        - exists (S j). rewrite list_lookup_delete_ge in Hj by lia. split; [done|lia]. }
      destruct (free_list_apart fl base i j' b c Hwf Hb Hj' Hne) as [H|H];
        unfold apart, chunk_end in *; rewrite page_size_val in *; [left|right]; lia.
    - split; [apply free_list_shrink; [done|done|lia]|].
      split; [rewrite (pages_update fl i b _ Hb); simpl; lia|].
      pose proof (aligned_offset (chunk_addr b) (pagecnt b - cnt) Hbal) as Hal.
      rewrite page_size_val in Hal.
      split; [done|]. split; [lia|]. split; [lia|].
      apply Forall_forall. intros c Hc.
      apply list_elem_of_lookup_1 in Hc as [j Hj].
      destruct (decide (i = j)) as [<-|Hne].
      + rewrite list_lookup_insert_eq in Hj by (by eapply lookup_lt_Some).
        injection Hj as <-. left. unfold chunk_end. simpl. rewrite page_size_val. lia.
      + rewrite list_lookup_insert_ne in Hj by done.
        destruct (free_list_apart fl base i j b c Hwf Hb Hj Hne) as [H|H];
          unfold apart, chunk_end in *; rewrite page_size_val in *; [left|right]; lia. }
  destruct (free_phys_pages_apart pp cnt fl') as (fl'' & Hfree & Hwf'' & Hperm & Hpg'');
    try done.
  destruct (free_list_pages base fl Hwf) as [Ha Hb0].
  destruct (free_list_pages base fl' Hwf') as [Ha' Hb'].
  destruct (free_list_pages base fl'' Hwf'') as [Ha'' Hb''].
  rewrite page_size_val in *.
  split; [done|].
  split; [rewrite !count_pages, Hpg'; unfold u64; rewrite !Z.mod_small by lia; lia|].
  exists fl''. split; [done|]. split; [done|]. split; [done|].
  rewrite !count_pages. f_equal. lia.
Qed.

End FreeListFacts.

Section FreeListExamples.
Import Memory MemoryMore.

Lemma free_phys_pages_keeps_list_sorted_witness :
  let fl := [Chunk 0x80200000 8; Chunk 0x80300000 3] in
  free_phys_pages 0x80100000 0x88000000 0x80208000 4 fl
    = Freed [Chunk 0x80200000 8; Chunk 0x80208000 4; Chunk 0x80300000 3] /\
  free_phys_pages 0x80100000 0x88000000 0x80207000 4 fl = FreePanic Overlapping.
Proof.
  intros fl.
  assert (free_list_wf 0x80100000 0x88000000 fl) as Hwf
    by (vm_compute; repeat split; (done || discriminate)).
  split.
  - destruct (free_phys_pages_keeps_list_sorted 0x80100000 0x88000000 0x80208000 4 fl) as [_ _];
      [lia|lia|exact Hwf|lia|reflexivity|lia|vm_compute; discriminate|].
    reflexivity.
  - apply (free_phys_pages_keeps_list_sorted 0x80100000 0x88000000 0x80207000 4 fl);
      [lia|lia|exact Hwf|lia|reflexivity|lia|vm_compute; discriminate|].
    apply Exists_cons. left. unfold apart, chunk_end. vm_compute.
    intros [H|H]; by apply H.
Defined.

Lemma alloc_phys_pages_then_free_witness :
  let fl := [Chunk 0x80200000 8; Chunk 0x80300000 3] in
  alloc_phys_pages 2 fl = Allocated 0x80301000 [Chunk 0x80200000 8; Chunk 0x80300000 1] /\
  exists fl'',
    free_phys_pages 0x80100000 0x88000000 0x80301000 2
      [Chunk 0x80200000 8; Chunk 0x80300000 1] = Freed fl'' /\
    free_phys_page_count fl'' = free_phys_page_count fl.
Proof.
  intros fl. split; [reflexivity|].
  destruct (alloc_phys_pages_then_free 0x80100000 0x88000000 2 fl 0x80301000
              [Chunk 0x80200000 8; Chunk 0x80300000 1])
    as (_ & _ & fl'' & Hfree & _ & _ & Hcount).
  - lia.
  - lia.
  - vm_compute; repeat split; (done || discriminate).
  - lia.
  - reflexivity.
  - by exists fl''.
Defined.

End FreeListExamples.

(** ** sys/memory.c : validate_vptr *)

Section ValidateFacts.
Import Memory MemoryMore.

Lemma check_pages_spec m root f n : forall vpn,
  (check_pages n m root vpn f = 0 <->
     forall k, 0 <= k < Z.of_nat n -> page_checked m root (vpn + k) f = true) /\
  (check_pages n m root vpn f = 0 \/ check_pages n m root vpn f = - EACCESS).
Proof.
  induction n as [|n IH]; intros vpn.
  - simpl. split; [|by left]. split; [intros _ k Hk; lia|done].
  - cbn [check_pages]. destruct (page_checked m root vpn f) eqn:Hp.
    + destruct (IH (vpn + 1)) as [Hiff Hor]. split; [|done]. rewrite Hiff. split.
      * intros H k Hk. destruct (decide (k = 0)) as [->|Hnz]; [by rewrite Z.add_0_r|].
        replace (vpn + k) with (vpn + 1 + (k - 1)) by lia. apply H. lia.
      * intros H k Hk. replace (vpn + 1 + k) with (vpn + (k + 1)) by lia.
        apply H. lia.
    + split; [|by right]. split; [done|]. intros H.
      specialize (H 0 ltac:(lia)). rewrite Z.add_0_r in H. congruence.
Qed.

(** X19: [validate_vptr] answers 0 exactly for the ranges a user may touch.
    For a range of at least one byte: a range that runs up to or past the
    end of the 64-bit address space, or whose first or last byte has an
    address that is not well formed, gives -EINVAL; otherwise the answer
    is 0 when every byte of the range lies on a page whose walk ends at a
    valid leaf entry carrying all the flags asked for, and -EACCESS when
    one byte does not. *)
Theorem validate_vptr_checks_every_page satp m vp len f :
  0 <= vp < 2 ^ 64 -> 0 < len < 2 ^ 64 ->
  let range_ok :=
    vp + len < 2 ^ 64 /\ wellformed vp = true /\
    wellformed (vp + len - 1) = true in
  (~ range_ok -> validate_vptr satp m vp len f = - EINVAL) /\
  (range_ok ->
     (forall a, vp <= a < vp + len ->
        page_checked m (mtag_to_ptab satp) (a / PAGE_SIZE) f = true) ->
     validate_vptr satp m vp len f = 0) /\
  (range_ok ->
     (exists a, vp <= a < vp + len /\
        page_checked m (mtag_to_ptab satp) (a / PAGE_SIZE) f = false) ->
     validate_vptr satp m vp len f = - EACCESS).
Proof.
  intros Hvp Hlen range_ok. unfold validate_vptr.
  rewrite decide_False by lia. cbv zeta.
  destruct (decide (vp + len < 2 ^ 64)) as [Hfit|Hwrap].
  2:{ split; [|split]; [|intros (H & _); lia..]. intros _.
      assert (u64 (vp + len) = vp + len - 2 ^ 64) as ->.
      { unfold u64. symmetry. apply (Z.mod_unique_pos _ _ 1); lia. }
      rewrite decide_True by lia. done. }
  assert (u64 (vp + len) = vp + len) as -> by (unfold u64; apply Z.mod_small; lia).
  assert (u64 (vp + len - 1) = vp + len - 1) as -> by (unfold u64; apply Z.mod_small; lia).
  rewrite decide_False by lia.
  destruct (wellformed vp) eqn:Hw1; cbn [negb orb].
  2:{ split; [done|]. split; intros (_ & H & _); done. }
  destruct (wellformed (vp + len - 1)) eqn:Hw2; cbn [negb orb].
  2:{ split; [done|]. split; intros (_ & _ & H); done. }
  set (n := Z.to_nat ((vp + len - 1) / PAGE_SIZE - vp / PAGE_SIZE + 1)).
  destruct (check_pages_spec m (mtag_to_ptab satp) f n (vp / PAGE_SIZE)) as [Hiff Hor].
  assert (Hn : Z.of_nat n = (vp + len - 1) / PAGE_SIZE - vp / PAGE_SIZE + 1).
  { unfold n. rewrite Z2Nat.id; [done|]. rewrite page_size_val.
    Z.div_mod_to_equations. lia. }
  split; [intros H; exfalso; by apply H|]. split.
  - intros _ Hall. apply Hiff. intros k Hk.
    set (a := Z.max vp ((vp / PAGE_SIZE + k) * PAGE_SIZE)).
    replace (vp / PAGE_SIZE + k) with (a / PAGE_SIZE).
    + apply Hall. unfold a. rewrite Hn in Hk. rewrite page_size_val in *.
      Z.div_mod_to_equations. lia.
    + unfold a. rewrite Hn in Hk. rewrite page_size_val in *.
      Z.div_mod_to_equations. lia.
  - intros _ (a & Ha & Hbad). destruct Hor as [Hz|He]; [|done].
    exfalso. rewrite Hiff in Hz.
    specialize (Hz (a / PAGE_SIZE - vp / PAGE_SIZE)).
    replace (vp / PAGE_SIZE + (a / PAGE_SIZE - vp / PAGE_SIZE)) with (a / PAGE_SIZE)
      in Hz by lia.
    rewrite Hz in Hbad; [done|]. rewrite Hn, page_size_val.
    Z.div_mod_to_equations. lia.
Qed.

Lemma validate_vptr_checks_every_page_witness :
  validate_vptr ex_satp ex_ptes 0xC0000010 4000 (Z.lor PTE_R PTE_U) = 0 /\
  validate_vptr ex_satp ex_ptes 0xC0000010 5000 (Z.lor PTE_R PTE_U) = - EACCESS /\
  validate_vptr ex_satp ex_ptes (2 ^ 64 - 4096) 4096 (Z.lor PTE_R PTE_U) = - EINVAL.
Proof.
  split; [|split].
  - apply (validate_vptr_checks_every_page ex_satp ex_ptes 0xC0000010 4000
             (Z.lor PTE_R PTE_U)); [lia|lia| |].
    + split; [lia|]. split; vm_compute; reflexivity.
    + intros a Ha. replace (a / PAGE_SIZE) with 0xC0000.
      * vm_compute. reflexivity.
      * rewrite page_size_val. Z.div_mod_to_equations. lia.
  - apply (validate_vptr_checks_every_page ex_satp ex_ptes 0xC0000010 5000
             (Z.lor PTE_R PTE_U)); [lia|lia| |].
    + split; [lia|]. split; vm_compute; reflexivity.
    + exists 0xC0001000. split; [lia|]. vm_compute. reflexivity.
  - apply (validate_vptr_checks_every_page ex_satp ex_ptes (2 ^ 64 - 4096) 4096
             (Z.lor PTE_R PTE_U)); [lia|lia|].
    intros (H & _). lia.
Defined.

End ValidateFacts.

(** ** sys/filesys.c : the mount table and paths *)

Section FilesysFacts.
Import Filesys.

Lemma getfs_None mpname l :
  getfs mpname l = None <-> mpname ∉ mp_name <$> l.
Proof.
  induction l as [|mp l IH]; simpl.
  - split; [intros _; apply not_elem_of_nil|done].
  - case_decide as Hn.
    + split; [done|]. intros Hnot. exfalso. apply Hnot. rewrite Hn. apply elem_of_cons. by left.
    + rewrite IH. split.
      * intros Hnot [->|Hin]%elem_of_cons; [done|by apply Hnot].
      * intros Hnot Hin. apply Hnot. apply elem_of_cons. by right.
Qed.

(** X20: The mount table is a map from names to filesystems in which a name,
    once attached, stays bound to its filesystem.  Attaching a name that
    is not mounted returns 0, after which [getfs] finds the filesystem
    under that name and finds what it found before under every other
    name; no name is ever listed twice.  Attaching a name that is mounted
    returns -EEXIST and changes nothing. *)
Theorem attach_filesystem_then_getfs mpname fs mplist :
  match getfs mpname mplist with
  | None =>
      exists mplist',
        attach_filesystem mpname fs mplist = (0, mplist') /\
        getfs mpname mplist' = Some fs /\
        (forall other, other ≠ mpname ->
           getfs other mplist' = getfs other mplist) /\
        (NoDup (mp_name <$> mplist) -> NoDup (mp_name <$> mplist'))
  | Some _ => attach_filesystem mpname fs mplist = (- EEXIST, mplist)
  end.
Proof.
  induction mplist as [|mp l IH]; simpl.
  - eexists. split; [done|]. simpl. rewrite decide_True by done.
    split; [done|]. split.
    + intros other Hne. simpl. by rewrite decide_False.
    + intros _. apply NoDup_singleton.
  - case_decide as Hn; [done|].
    destruct (getfs mpname l) eqn:Hg.
    + by rewrite IH.
    + destruct IH as (l' & -> & Hget & Hother & Hnd).
      eexists. split; [done|]. simpl. rewrite decide_False by done.
      split; [done|]. split.
      * intros other Hne. case_decide; [done|]. by apply Hother.
      * rewrite !NoDup_cons. intros [Hnot Hl]. split; [|by apply Hnd].
        intros Hin. apply Hnot.
        apply list_elem_of_fmap in Hin as (mp' & Heq & Hin').
        destruct (getfs (mp_name mp) l) eqn:Hmp.
        -- assert (getfs (mp_name mp) l ≠ None) as Hsome by congruence.
           rewrite getfs_None in Hsome.
           destruct (decide (mp_name mp ∈ mp_name <$> l)); [done|by exfalso].
        -- exfalso. rewrite <- Hother in Hmp by done.
           apply getfs_None in Hmp. apply Hmp.
           apply list_elem_of_fmap. by exists mp'.
Qed.

Lemma skip_slashes_spec p :
  exists k, p = replicate k SLASH ++ skip_slashes p /\
    (forall rest, skip_slashes p ≠ SLASH :: rest).
Proof.
  induction p as [|ch p IH]; simpl.
  - by exists 0%nat.
  - case_decide as Hc.
    + destruct IH as (k & Hk & Hns). exists (S k). simpl. split; [|done].
      by rewrite Hc, <- Hk.
    + exists 0%nat. split; [done|]. intros rest [= ? _]. done.
Qed.

Lemma skip_slashes_replicate k p :
  (forall rest, p ≠ SLASH :: rest) ->
  skip_slashes (replicate k SLASH ++ p) = p.
Proof.
  intros Hp. induction k as [|k IH]; simpl.
  - destruct p as [|ch p]; [done|]. simpl. case_decide as Hc; [|done].
    subst ch. by destruct (Hp p).
  - done.
Qed.

Lemma split_slash_spec p mp fl :
  split_slash p = Some (mp, fl) <-> p = mp ++ SLASH :: fl /\ SLASH ∉ mp.
Proof.
  revert mp. induction p as [|ch p IH]; intros mp; simpl.
  - split; [done|]. intros [Heq _]. by destruct mp.
  - case_decide as Hc.
    + subst ch. split.
      * intros [= <- <-]. split; [done|apply not_elem_of_nil].
      * intros [Heq Hno]. destruct mp as [|c mp]; simpl in Heq.
        -- by injection Heq as ->.
        -- injection Heq as <- _. exfalso. apply Hno. apply elem_of_cons. by left.
    + split.
      * destruct (split_slash p) as [[a b]|]; [|done].
        intros [= <- <-]. destruct (proj1 (IH a) eq_refl) as [-> Hno]. split; [done|].
        intros [?|?]%elem_of_cons; [congruence|done].
      * intros [Heq Hno]. destruct mp as [|c mp]; simpl in Heq.
        -- injection Heq as -> _. done.
        -- injection Heq as <- Heq.
           assert (split_slash p = Some (mp, fl)) as ->; [|done].
           apply IH. split; [done|]. intros Hin. apply Hno. apply elem_of_cons. by right.
Qed.

(** X21: [parse_path] accepts exactly the paths made of any number of
    slashes, a mount point name without a slash, one slash, and a file
    name, both names non-empty; it splits them at that slash (the file
    name keeps any further slashes).  Every other path, and NULL, gives
    -EINVAL. *)
Theorem parse_path_splits_at_first_slash p mp fl :
  (parse_path (Some p) = PathOk mp fl <->
     (exists k, p = replicate k SLASH ++ mp ++ SLASH :: fl /\
        mp ≠ [] /\ (SLASH ∉ mp) /\ fl ≠ [])) /\
  (parse_path (Some p) = PathErr (- EINVAL) \/
   exists mp' fl', parse_path (Some p) = PathOk mp' fl') /\
  parse_path None = PathErr (- EINVAL).
Proof.
  unfold parse_path. destruct (skip_slashes_spec p) as (k & Hk & Hns).
  split.
  - split.
    + case_decide as He; [done|].
      destruct (split_slash (skip_slashes p)) as [[a b]|] eqn:Hs; [|done].
      case_decide as Hab; [done|]. intros [= <- <-].
      apply split_slash_spec in Hs as [Hs Hno].
      exists k. rewrite Hk at 1. rewrite Hs. split; [done|].
      split; [|split; [done|]]; intros ->; apply Hab; auto.
    + intros (k' & -> & Hmp & Hno & Hfl).
      rewrite skip_slashes_replicate.
      2:{ intros rest Heq. destruct mp as [|c mp]; [done|]. simpl in Heq.
          injection Heq as -> _. apply Hno. apply elem_of_cons. by left. }
      rewrite decide_False by (by destruct mp).
      assert (split_slash (mp ++ SLASH :: fl) = Some (mp, fl)) as ->
        by (by apply split_slash_spec).
      rewrite decide_False; [done|]. by intros [?|?].
  - split; [|done]. case_decide; [by left|].
    destruct (split_slash (skip_slashes p)) as [[a b]|]; [|by left].
    case_decide; [by left|]. right. by eexists _, _.
Qed.

End FilesysFacts.

(** ** sys/thread.c : the lock list of a thread *)

Section LockLists.
Import Thread ThreadMore.

Lemma lock_chain_ext m m' q :
  (forall l, l ∈ q -> next <$> m' !! l = next <$> m !! l) ->
  lock_chain m q -> lock_chain m' q.
Proof.
  induction q as [|a q IH]; [done|]. intros Hsame [Ha Hq]. split.
  - rewrite Hsame; [done|]. apply elem_of_cons. by left.
  - apply IH; [|done]. intros l Hl. apply Hsame. apply elem_of_cons. by right.
Qed.

Lemma lock_chain_app_r m q1 q2 : lock_chain m (q1 ++ q2) -> lock_chain m q2.
Proof. induction q1 as [|a q1 IH]; [done|]. intros [_ H]. by apply IH. Qed.

Lemma lists_ok_equiv s s' :
  lock_list s' = lock_list s ->
  (forall l, owner <$> locks s' !! l = owner <$> locks s !! l) ->
  (forall l, next <$> locks s' !! l = next <$> locks s !! l) ->
  lists_ok s -> lists_ok s'.
Proof.
  intros Hll Hown Hnext Hok tp. destruct (Hok tp) as (q & Hhead & Hchain & Hnd & Hiff).
  exists q. rewrite Hll. split; [done|]. split.
  - apply (lock_chain_ext (locks s)); [|done]. intros l _. apply Hnext.
  - split; [done|]. intros l. rewrite Hown. apply Hiff.
Qed.

(** Changing the count of a lock does not touch the lists. *)
Lemma lists_ok_count s l lk k :
  locks s !! l = Some lk ->
  lists_ok s ->
  lists_ok (State (<[l := Lock (owner lk) k (next lk)]> (locks s)) (lock_list s)).
Proof.
  intros Hl. apply lists_ok_equiv; [done|..]; intros l'; simpl;
    (destruct (decide (l' = l)) as [->|Hne];
      [rewrite lookup_insert_eq, Hl; done | by rewrite lookup_insert_ne]).
Qed.

(** The walk of [lock_release_completely] finds a lock of the list. *)
Lemma find_link_spec tp l s q : forall h fuel,
  deref tp s h = Some (List.head q) -> lock_chain (locks s) q ->
  l ∈ q -> (length q <= S fuel)%nat ->
  exists q1 q2,
    q = q1 ++ l :: q2 /\ (l ∉ q1) /\
    find_link fuel tp l s h
    = Found (match last q1 with None => h | Some p => NextOf p end).
Proof.
  induction q as [|a q IH]; intros h fuel Hh Hchain Hin Hlen;
    [by apply elem_of_nil in Hin|].
  destruct Hchain as [Ha Hq]. simpl in Hh.
  destruct (decide (a = l)) as [->|Hne].
  - exists [], q. split; [done|]. split; [apply not_elem_of_nil|].
    destruct fuel; cbn [find_link]; rewrite Hh; by rewrite decide_True.
  - apply elem_of_cons in Hin as [->|Hin]; [done|].
    destruct fuel as [|fuel].
    { simpl in Hlen. destruct q; [by apply elem_of_nil in Hin|simpl in Hlen; lia]. }
    destruct (IH (NextOf a) fuel) as (q1 & q2 & -> & Hnot & Hfind); try done.
    { simpl in Hlen. lia. }
    exists (a :: q1), q2. split; [done|]. split.
    { intros [?|?]%elem_of_cons; [congruence|done]. }
    cbn [find_link]. rewrite Hh. rewrite decide_False by done. rewrite Hfind.
    f_equal. destruct q1 as [|b q1]; [done|]. simpl.
    destruct (last (b :: q1)) eqn:E; [done|]. by apply last_None in E.
Qed.

(** Unlinking [l]: all links stay but that of the lock before [l], which
    now leads to the lock behind [l]. *)
Lemma lock_chain_unlink m m' l q2 : forall q1,
  lock_chain m (q1 ++ l :: q2) -> NoDup (q1 ++ l :: q2) ->
  (forall x, x ∈ q1 ++ q2 -> last q1 ≠ Some x ->
     next <$> m' !! x = next <$> m !! x) ->
  (forall p, last q1 = Some p -> next <$> m' !! p = Some (List.head q2)) ->
  lock_chain m' (q1 ++ q2).
Proof.
  induction q1 as [|a q1 IH]; intros Hchain Hnd Hsame Hlast.
  - simpl in *. destruct Hchain as [_ Hq2].
    apply (lock_chain_ext m); [|done]. intros x Hx. by apply Hsame.
  - destruct Hchain as [Ha Hq]. apply NoDup_cons in Hnd as [Hanot Hnd].
    destruct q1 as [|b q1].
    + simpl in *. split; [by apply Hlast|].
      destruct Hq as [_ Hq2]. apply (lock_chain_ext m); [|done].
      intros x Hx. apply Hsame; [apply elem_of_cons; by right|].
      intros [= ->]. apply Hanot. apply elem_of_cons. by right.
    + split.
      * rewrite Hsame; [done|apply elem_of_cons; by left|].
        change (last (a :: b :: q1)) with (last (b :: q1)). intros Hl.
        assert (a ∈ (b :: q1) ++ l :: q2) as Hin
          by (apply elem_of_app; left; by apply last_Some_elem_of).
        exact (Hanot Hin).
      * apply IH; [done|done| |].
        -- intros x Hx Hl. apply Hsame; [apply elem_of_cons; by right|done].
        -- intros p Hp. by apply Hlast.
Qed.

Lemma chain_in_locks (m : gmap lockid lock) q l :
  lock_chain m q -> l ∈ q -> is_Some (m !! l).
Proof.
  induction q as [|a q IH]; intros Hc Hin; [by apply elem_of_nil in Hin|].
  destruct Hc as [Ha Hq]. apply elem_of_cons in Hin as [->|Hin]; [|by apply IH].
  destruct (m !! a); [by eexists|done].
Qed.

Lemma chain_length (m : gmap lockid lock) q :
  lock_chain m q -> NoDup q -> (length q <= size m)%nat.
Proof.
  intros Hchain Hnd.
  assert (list_to_set q ⊆ dom m) as Hsub.
  { intros l Hl. apply elem_of_list_to_set in Hl. apply elem_of_dom.
    by apply (chain_in_locks m q). }
  apply subseteq_size in Hsub.
  rewrite size_list_to_set in Hsub by done. by rewrite size_dom in Hsub.
Qed.

Lemma lock_acquire_lists tp l s s' :
  lists_ok s -> lock_acquire tp l s = Done s' -> lists_ok s'.
Proof.
  intros Hok. unfold lock_acquire.
  destruct (locks s !! l) as [lk|] eqn:Hl; [|done].
  case_decide as Hown.
  - destruct (owner lk) as [o|] eqn:Ho; [done|]. intros [= <-].
    intros tp'. destruct (Hok tp') as (q & Hhead & Hchain & Hnd & Hiff).
    assert (l ∉ q) as Hlq.
    { intros Hin. apply Hiff in Hin. rewrite Hl in Hin. simpl in Hin. congruence. }
    destruct (decide (tp' = tp)) as [->|Hne].
    + exists (l :: q). simpl. rewrite !lookup_insert_eq. split; [done|]. split.
      * simpl. split; [by rewrite Hhead|].
        apply (lock_chain_ext (locks s)); [|done].
        intros x Hx. rewrite lookup_insert_ne; [done|]. by intros ->.
      * split; [by apply NoDup_cons|]. intros x.
        destruct (decide (x = l)) as [->|Hx].
        -- rewrite lookup_insert_eq. simpl. split; [done|]. intros _.
           apply elem_of_cons. by left.
        -- rewrite lookup_insert_ne by done. rewrite <- Hiff. split.
           ++ intros [?|?]%elem_of_cons; done.
           ++ intros ?. apply elem_of_cons. by right.
    + exists q. simpl. rewrite lookup_insert_ne by done. split; [done|]. split.
      * apply (lock_chain_ext (locks s)); [|done].
        intros x Hx. rewrite lookup_insert_ne; [done|]. by intros ->.
      * split; [done|]. intros x. destruct (decide (x = l)) as [->|Hx].
        -- rewrite lookup_insert_eq. simpl. split; [done|]. intros [= ?]. done.
        -- rewrite lookup_insert_ne by done. apply Hiff.
  - intros [= <-]. by apply lists_ok_count.
Qed.

Lemma lock_release_completely_lists tp l s lk :
  lists_ok s -> locks s !! l = Some lk -> owner lk = Some tp ->
  exists s', lock_release_completely tp l s = Done s' /\ lists_ok s' /\
    owner <$> locks s' !! l = Some None /\ cnt <$> locks s' !! l = Some (cnt lk).
Proof.
  intros Hok Hl Ho. destruct (Hok tp) as (q & Hhead & Hchain & Hnd & Hiff).
  assert (l ∈ q) as Hin by (apply Hiff; by rewrite Hl; simpl; rewrite Ho).
  destruct (find_link_spec tp l s q Head (walk_fuel s)) as (q1 & q2 & Hq & Hnot & Hfind);
    [by simpl; rewrite Hhead|done|done| |].
  { pose proof (chain_length _ q Hchain Hnd). unfold walk_fuel. lia. }
  unfold lock_release_completely. rewrite Hfind, Hl.
  assert (Hnext : next lk = List.head q2).
  { subst q. apply lock_chain_app_r in Hchain as [Hn _]. rewrite Hl in Hn.
    simpl in Hn. congruence. }
  set (h := match last q1 with None => Head | Some p => NextOf p end).
  (* the lock before [l] is a lock of the thread, other than [l] *)
  assert (Hp : forall p, last q1 = Some p ->
            p ≠ l /\ p ∈ q /\ exists lkp, locks s !! p = Some lkp).
  { intros p Hlast. apply last_Some_elem_of in Hlast.
    assert (p ∈ q) as Hpq by (subst q; apply elem_of_app; by left).
    split; [by intros ->|]. split; [done|].
    destruct (chain_in_locks _ q p Hchain Hpq) as [lkp Hlkp]. by exists lkp. }
  assert (Hl1 : locks (store_link tp h (next lk) s) !! l = Some lk).
  { unfold h. destruct (last q1) as [p|] eqn:Hlast; simpl.
    - destruct (Hp p eq_refl) as (Hpl & _ & lkp & Hlkp). rewrite Hlkp.
      rewrite lookup_insert_ne by done. done.
    - by destruct (next lk). }
  rewrite Hl1. eexists. split; [done|]. split; [|split; simpl; by rewrite lookup_insert_eq].
  (* what the two stores did to the locks *)
  set (s1 := store_link tp h (next lk) s) in *.
  assert (Hown1 : forall x, x ≠ l ->
            owner <$> (<[l := Lock None (cnt lk) None]> (locks s1)) !! x
            = owner <$> locks s !! x).
  { intros x Hx. rewrite lookup_insert_ne by done. unfold s1, h.
    destruct (last q1) as [p|] eqn:Hlast; simpl; [|done].
    destruct (Hp p eq_refl) as (Hpl & _ & lkp & Hlkp). rewrite Hlkp.
    destruct (decide (x = p)) as [->|Hxp];
      [by rewrite lookup_insert_eq, Hlkp | by rewrite lookup_insert_ne]. }
  assert (Hnext1 : forall x, x ≠ l -> last q1 ≠ Some x ->
            next <$> (<[l := Lock None (cnt lk) None]> (locks s1)) !! x
            = next <$> locks s !! x).
  { intros x Hx Hxp. rewrite lookup_insert_ne by done. unfold s1, h.
    destruct (last q1) as [p|] eqn:Hlast; simpl; [|done].
    destruct (Hp p eq_refl) as (Hpl & _ & lkp & Hlkp). rewrite Hlkp.
    rewrite lookup_insert_ne; [done|]. intros ->. done. }
  intros tp'. destruct (decide (tp' = tp)) as [->|Hne].
  - exists (q1 ++ q2). simpl. split; [|split; [|split]].
    + unfold s1, h. destruct (last q1) as [p|] eqn:Hlast; simpl.
      * rewrite Hhead, Hq. destruct q1; [done|]. done.
      * apply last_None in Hlast. subst q1. simpl. rewrite Hnext.
        destruct (List.head q2) as [x|]; simpl;
          [by rewrite lookup_insert_eq | by rewrite lookup_delete_eq].
    + subst q. apply (lock_chain_unlink (locks s) _ l q2 q1); [done|done| |].
      * intros x Hx Hlast. apply Hnext1; [|done]. intros ->.
        apply NoDup_app in Hnd as (_ & Hdis & Hnd2).
        apply NoDup_cons in Hnd2 as [Hl2 _].
        apply elem_of_app in Hx as [Hx|Hx]; [done|done].
      * intros p Hlast. destruct (Hp p Hlast) as (Hpl & _ & lkp & Hlkp).
        rewrite lookup_insert_ne by done. unfold s1, h. rewrite Hlast. simpl.
        rewrite Hlkp, lookup_insert_eq. simpl. by rewrite Hnext.
    + subst q. apply NoDup_app in Hnd as (Hnd1 & Hdis & Hnd2).
      apply NoDup_cons in Hnd2 as [Hl2 Hnd2]. apply NoDup_app.
      split; [done|]. split; [|done]. intros x Hx1 Hx2.
      apply (Hdis x Hx1). apply elem_of_cons. by right.
    + intros x. destruct (decide (x = l)) as [->|Hx].
      * rewrite lookup_insert_eq. simpl. split; [|done]. subst q.
        apply NoDup_app in Hnd as (_ & Hdis & Hnd2).
        apply NoDup_cons in Hnd2 as [Hl2 _].
        intros [?|?]%elem_of_app; done.
      * rewrite Hown1 by done. rewrite <- Hiff, Hq. rewrite !elem_of_app, elem_of_cons.
        split; [intros [?|?]; auto|intros [?|[?|?]]; auto; done].
  - destruct (Hok tp') as (q' & Hhead' & Hchain' & Hnd' & Hiff').
    assert (Hdisj : forall x, x ∈ q' -> x ∉ q).
    { intros x Hx Hxq. apply Hiff' in Hx. apply Hiff in Hxq. congruence. }
    exists q'. simpl. split; [|split; [|split; [done|]]].
    + unfold s1, h. destruct (last q1) as [p|]; simpl; [done|].
      destruct (next lk); simpl;
        [by rewrite lookup_insert_ne | by rewrite lookup_delete_ne].
    + apply (lock_chain_ext (locks s)); [|done]. intros x Hx.
      apply Hnext1.
      * intros ->. by apply (Hdisj l).
      * intros Hlast. destruct (Hp x Hlast) as (_ & Hxq & _). by apply (Hdisj x).
    + intros x. destruct (decide (x = l)) as [->|Hx].
      * rewrite lookup_insert_eq. simpl. split; [|done].
        intros Hxq. by apply (Hdisj l) in Hxq.
      * rewrite Hown1 by done. apply Hiff'.
Qed.

Lemma init_lists_ok : lists_ok init_state.
Proof.
  intros tp. exists []. simpl. split; [done|]. split; [done|].
  split; [apply NoDup_nil_2|]. intros l. rewrite lookup_empty. simpl.
  split; [by intros ?%elem_of_nil|done].
Qed.

(** X14: The lock list of a thread tracks what the thread owns.  If every
    thread's list holds exactly the locks the thread owns, this is still
    so after [lock_acquire] returns, after [lock_init] of a lock that is
    not held, and after [lock_release]; and [lock_release] by the owner
    always completes, in whatever order the locks are released: the walk
    of [lock_release_completely] finds the lock, so its assertion holds.
    The lock is free afterwards exactly when its count was 1. *)
Theorem lock_lists_track_ownership tp l s :
  lists_ok s ->
  (forall s', lock_acquire tp l s = Done s' -> lists_ok s') /\
  (forall lk, locks s !! l = Some lk -> owner lk = Some tp -> cnt lk ≠ 0 ->
     exists s', lock_release tp l s = Done s' /\ lists_ok s' /\
       owner <$> locks s' !! l
       = Some (if decide (cnt lk = 1) then None else Some tp)) /\
  ((forall lk, locks s !! l = Some lk -> owner lk = None) ->
   forall s', lock_init l s = Done s' -> lists_ok s').
Proof.
  intros Hok. split; [|split].
  - intros s'. by apply lock_acquire_lists.
  - intros lk Hl Ho Hc. unfold lock_release. rewrite Hl.
    rewrite decide_False by (intros Hne; by apply Hne).
    rewrite decide_False by done.
    set (s1 := State (<[l := Lock (owner lk) (cnt lk - 1) (next lk)]> (locks s))
                     (lock_list s)).
    assert (lists_ok s1) as Hok1 by (by apply lists_ok_count).
    destruct (decide (cnt lk - 1 = 0)) as [Hz|Hnz].
    + destruct (lock_release_completely_lists tp l s1
                  (Lock (owner lk) (cnt lk - 1) (next lk)))
        as (s' & Hrel & Hok' & Hown & _); [done|by simpl; rewrite lookup_insert_eq|done|].
      exists s'. split; [done|]. split; [done|]. by rewrite decide_True by lia.
    + exists s1. split; [done|]. split; [done|]. simpl.
      rewrite lookup_insert_eq. simpl. rewrite decide_False by lia. by rewrite Ho.
  - intros Hfree s' [= <-]. intros tp'.
    destruct (Hok tp') as (q & Hhead & Hchain & Hnd & Hiff).
    assert (l ∉ q) as Hlq.
    { intros Hin. pose proof (proj1 (Hiff l) Hin) as Hown.
      destruct (locks s !! l) as [lk|] eqn:Hl; [|done].
      simpl in Hown. specialize (Hfree lk eq_refl). congruence. }
    exists q. simpl. split; [done|]. split.
    + apply (lock_chain_ext (locks s)); [|done].
      intros x Hx. rewrite lookup_insert_ne; [done|]. by intros ->.
    + split; [done|]. intros x. destruct (decide (x = l)) as [->|Hx].
      * rewrite lookup_insert_eq. simpl. split; [done|]. intros [= ?].
      * rewrite lookup_insert_ne by done. apply Hiff.
Qed.

Lemma lock_lists_track_ownership_witness :
  let s := State (<[20 := Lock (Some 1) 1 (Some 10)]>
                    (<[10 := Lock (Some 1) 1 None]> ∅))
                 (<[1 := 20]> ∅) in
  exists s', lock_release 1 10 s = Done s' /\ lists_ok s' /\
    owner <$> locks s' !! 10 = Some None /\
    owner <$> locks s' !! 20 = Some (Some 1).
Proof.
  intros s.
  assert (lists_ok s) as Hok.
  { intros tp. destruct (decide (tp = 1)) as [->|Hne].
    - exists [20; 10]. split; [by vm_compute|].
      split; [split; [by vm_compute|split; [by vm_compute|done]]|].
      split; [apply (bool_decide_unpack _); by vm_compute|].
      intros l. simpl. destruct (decide (l = 20)) as [->|H20].
      { rewrite lookup_insert_eq. simpl. split; [done|]. intros _.
        apply elem_of_cons. by left. }
      rewrite lookup_insert_ne by done.
      destruct (decide (l = 10)) as [->|H10].
      { rewrite lookup_insert_eq. simpl. split; [done|]. intros _.
        apply elem_of_cons. right. apply elem_of_cons. by left. }
      rewrite lookup_insert_ne by done. rewrite lookup_empty. simpl.
      split; [|done]. intros [?|[?|?%elem_of_nil]%elem_of_cons]%elem_of_cons; done.
    - exists []. simpl. rewrite lookup_insert_ne by done. rewrite lookup_empty.
      split; [done|]. split; [done|]. split; [apply NoDup_nil_2|].
      intros l. split; [by intros ?%elem_of_nil|].
      destruct (decide (l = 20)) as [->|H20].
      { rewrite lookup_insert_eq. simpl. intros [= ?]. done. }
      rewrite lookup_insert_ne by done.
      destruct (decide (l = 10)) as [->|H10].
      { rewrite lookup_insert_eq. simpl. intros [= ?]. done. }
      rewrite lookup_insert_ne by done. by rewrite lookup_empty. }
  destruct (lock_lists_track_ownership 1 10 s Hok) as (_ & Hrel & _).
  destruct (Hrel (Lock (Some 1) 1 None)) as (s' & H1 & H2 & H3);
    [by vm_compute|done|done|].
  exists s'. split; [done|]. split; [done|]. split; [done|].
  revert H1. vm_compute. intros [= <-]. reflexivity.
Defined.

End LockLists.

(** ** sys/uio.c : a pipe is a queue of bytes *)

Section PipeFacts.
Import Ktfs Pipe.

Lemma clip_min r a b : clip r a b = Z.min (Z.min r a) b.
Proof. unfold clip. repeat case_decide; lia. Qed.

Lemma u64_small x : 0 <= x < 2 ^ 64 -> u64 x = x.
Proof. intros. unfold u64. by apply Z.mod_small. Qed.

Lemma to_long_small x : 0 <= x < 2 ^ 63 -> to_long x = x.
Proof.
  intros. unfold to_long. rewrite Z.mod_small by lia. by rewrite decide_True by lia.
Qed.

Lemma map_ext_seqZ (f g : Z -> Z) m n :
  (forall i, m <= i < m + n -> f i = g i) -> f <$> seqZ m n = g <$> seqZ m n.
Proof. intros Hfg. apply Forall_fmap_ext, Forall_seqZ. done. Qed.

Lemma seqZ_shift m n : seqZ m n = Z.add m <$> seqZ 0 n.
Proof. by rewrite fmap_add_seqZ, Z.add_0_r. Qed.

(** A buffer is the list of its bytes. *)
Lemma slice_as_map b off n :
  0 <= off -> 0 <= n -> off + n <= Z.of_nat (length b) ->
  slice b off n = byte_at b <$> seqZ off n.
Proof.
  intros Hoff Hn Hlen. apply list_eq. intros i. unfold slice.
  rewrite list_lookup_fmap.
  destruct (decide (Z.of_nat i < n)) as [Hi|Hi].
  - rewrite lookup_take_lt by lia. rewrite lookup_drop.
    rewrite lookup_seqZ_lt by done. simpl. unfold byte_at.
    replace (Z.to_nat (off + Z.of_nat i)) with (Z.to_nat off + i)%nat by lia.
    destruct (b !! (Z.to_nat off + i)%nat) eqn:E; [done|].
    apply lookup_ge_None in E. lia.
  - rewrite lookup_take_ge by lia. by rewrite lookup_seqZ_ge by lia.
Qed.

Lemma slice_all b : slice b 0 (Z.of_nat (length b)) = b.
Proof. unfold slice. simpl. rewrite Nat2Z.id. by rewrite take_ge. Qed.

Lemma slice_slice b t a c :
  0 <= t -> 0 <= a -> 0 <= c ->
  slice b t a ++ slice b (t + a) c = slice b t (a + c).
Proof.
  intros. unfold slice.
  replace (Z.to_nat (t + a)) with (Z.to_nat t + Z.to_nat a)%nat by lia.
  rewrite <- drop_drop.
  replace (Z.to_nat (a + c)) with (Z.to_nat a + Z.to_nat c)%nat by lia.
  apply take_take_drop.
Qed.

Lemma length_splice b off bytes :
  0 <= off -> off + Z.of_nat (length bytes) <= Z.of_nat (length b) ->
  length (splice b off bytes) = length b.
Proof.
  intros. unfold splice. rewrite !length_app, length_take, length_drop. lia.
Qed.

Lemma slice_nil b t : slice b t 0 = [].
Proof. done. Qed.

Lemma contents_unfold ch :
  contents ch
  = (fun i => byte_at (storage ch) ((read_pos ch + i) mod capacity ch))
      <$> seqZ 0 (used_bytes ch).
Proof. done. Qed.

(** Copying [bytes] in at [write_pos] puts them behind the bytes of the
    pipe. *)
Lemma contents_write ch bytes :
  pipe_wf ch ->
  let chunk := Z.of_nat (length bytes) in
  chunk <= capacity ch - used_bytes ch ->
  chunk <= capacity ch - write_pos ch ->
  contents (Chan (splice (storage ch) (write_pos ch) bytes) (capacity ch)
              (read_pos ch) ((write_pos ch + chunk) mod capacity ch)
              (used_bytes ch + chunk) (reader_alive ch) (writer_alive ch))
  = contents ch ++ bytes.
Proof.
  intros (Hcap & Hlen & Hrp & Hused & Hwp) chunk Hfree Hend.
  rewrite !contents_unfold. simpl.
  assert (0 <= write_pos ch < capacity ch) as Hwpr
    by (rewrite Hwp; apply Z.mod_pos_bound; lia).
  rewrite seqZ_app by lia. rewrite fmap_app. f_equal.
  - apply map_ext_seqZ. intros i Hi.
    apply byte_at_splice_out; [lia|apply Z.mod_pos_bound; lia|].
    fold chunk.
    (* the byte of [i] is not among those written *)
    destruct (decide (read_pos ch + used_bytes ch < capacity ch)) as [Hnw|Hw].
    + rewrite Z.mod_small in Hwp by lia.
      destruct (decide (read_pos ch + i < capacity ch)).
      * rewrite Z.mod_small by lia. lia.
      * lia.
    + assert (write_pos ch = read_pos ch + used_bytes ch - capacity ch) as Hwp'.
      { rewrite Hwp. symmetry. apply (Z.mod_unique_pos _ _ 1); lia. }
      destruct (decide (read_pos ch + i < capacity ch)).
      * rewrite Z.mod_small by lia. lia.
      * replace ((read_pos ch + i) mod capacity ch)
          with (read_pos ch + i - capacity ch)
          by (apply (Z.mod_unique_pos _ _ 1); lia).
        lia.
  - transitivity (slice bytes 0 (Z.of_nat (length bytes))); [|apply slice_all].
    rewrite slice_as_map by lia.
    fold chunk. rewrite (seqZ_shift (0 + used_bytes ch) chunk).
    rewrite <- list_fmap_compose. apply map_ext_seqZ. intros k Hk. simpl.
    replace ((read_pos ch + (0 + used_bytes ch + k)) mod capacity ch)
      with (write_pos ch + k).
    + apply byte_at_splice_in; lia.
    + replace (read_pos ch + (0 + used_bytes ch + k))
        with (read_pos ch + used_bytes ch + k) by lia.
      rewrite <- (Zplus_mod_idemp_l (read_pos ch + used_bytes ch)), <- Hwp.
      symmetry. apply Z.mod_small. lia.
Qed.

(** Taking [n] bytes out at [read_pos]. *)
Lemma contents_read ch n :
  pipe_wf ch -> 0 <= n <= used_bytes ch -> n <= capacity ch - read_pos ch ->
  slice (storage ch) (read_pos ch) n = take (Z.to_nat n) (contents ch) /\
  contents (Chan (storage ch) (capacity ch) ((read_pos ch + n) mod capacity ch)
              (write_pos ch) (used_bytes ch - n) (reader_alive ch)
              (writer_alive ch))
  = drop (Z.to_nat n) (contents ch).
Proof.
  intros (Hcap & Hlen & Hrp & Hused & Hwp) Hn Hend.
  rewrite !contents_unfold. simpl.
  set (f := fun i => byte_at (storage ch) ((read_pos ch + i) mod capacity ch)).
  assert (Hs : f <$> seqZ 0 (used_bytes ch)
               = (f <$> seqZ 0 n) ++ (f <$> seqZ (0 + n) (used_bytes ch - n))).
  { rewrite <- fmap_app, <- seqZ_app by lia. do 2 f_equal. lia. }
  rewrite Hs.
  assert (Hl : length (f <$> seqZ 0 n) = Z.to_nat n)
    by (by rewrite length_fmap, length_seqZ).
  split.
  - rewrite take_app_length' by done. rewrite slice_as_map by lia.
    rewrite (seqZ_shift (read_pos ch) n), <- list_fmap_compose.
    apply map_ext_seqZ. intros i Hi. unfold f. simpl. by rewrite Z.mod_small by lia.
  - rewrite drop_app_length' by done.
    rewrite (seqZ_shift (0 + n) (used_bytes ch - n)), <- list_fmap_compose.
    apply map_ext_seqZ. intros i Hi. unfold f. simpl. f_equal.
    rewrite Zplus_mod_idemp_l. f_equal. lia.
Qed.

Lemma pipe_read_spec ch bufsz :
  pipe_wf ch -> 0 < bufsz < 2 ^ 63 -> 0 < used_bytes ch ->
  let n := Z.min (Z.min bufsz (used_bytes ch)) (capacity ch - read_pos ch) in
  1 <= n /\
  exists ch',
    pipe_read_endpoint ch bufsz = Ret n (take (Z.to_nat n) (contents ch)) ch' /\
    contents ch' = drop (Z.to_nat n) (contents ch) /\ pipe_wf ch' /\
    reader_alive ch' = reader_alive ch /\ writer_alive ch' = writer_alive ch.
Proof.
  intros Hwf Hsz Hused n. pose proof Hwf as (Hcap & Hlen & Hrp & Hu & Hwp).
  assert (1 <= n) as Hn1 by (unfold n; lia). split; [done|].
  unfold pipe_read_endpoint. rewrite decide_False by lia.
  cbn [read_loop]. rewrite decide_False by lia. cbv zeta.
  rewrite Z.sub_0_r, (u64_small bufsz) by lia.
  rewrite (u64_small (capacity ch - read_pos ch)) by lia.
  rewrite clip_min. fold n.
  rewrite decide_False by lia. rewrite decide_False by lia.
  rewrite (u64_small (0 + n)), (u64_small (read_pos ch + n)),
    (u64_small (used_bytes ch - n)) by lia.
  rewrite decide_True by lia. rewrite to_long_small by lia.
  destruct (contents_read ch n Hwf) as [Hout Hrest]; [lia|lia|].
  eexists. split; [simpl; by rewrite Hout|]. split; [done|].
  split; [|done]. repeat split; simpl; try lia.
  - apply Z.mod_pos_bound. lia.
  - apply Z.mod_pos_bound. lia.
  - rewrite Hwp, Zplus_mod_idemp_l. f_equal. lia.
Qed.

Lemma write_loop_spec buf buflen : forall fuel ch t,
  pipe_wf ch -> reader_alive ch ≠ 0 ->
  Z.of_nat (length buf) = buflen -> buflen < 2 ^ 63 ->
  0 <= t <= buflen -> (Z.to_nat (buflen - t) < fuel)%nat ->
  let free := capacity ch - used_bytes ch in
  let n := Z.min (buflen - t) free in
  exists ch',
    write_loop fuel ch buf buflen t
    = (if decide (buflen - t <= free) then Ret buflen tt ch'
       else Waiting (t + free) tt ch') /\
    contents ch' = contents ch ++ slice buf t n /\ pipe_wf ch' /\
    reader_alive ch' = reader_alive ch /\ writer_alive ch' = writer_alive ch /\
    read_pos ch' = read_pos ch /\ capacity ch' = capacity ch.
Proof.
  induction fuel as [|fuel IH]; intros ch t Hwf Hr Hlen Hbl Ht Hfuel free n; [lia|].
  pose proof Hwf as (Hcap & Hst & Hrp & Hu & Hwp).
  assert (0 <= write_pos ch < capacity ch) as Hwpr
    by (rewrite Hwp; apply Z.mod_pos_bound; lia).
  cbn [write_loop]. destruct (decide (t < buflen)) as [Hlt|Hge].
  - rewrite decide_False by done.
    destruct (decide (used_bytes ch = capacity ch)) as [Hfull|Hroom].
    + exists ch. rewrite decide_False by (unfold free; lia).
      split; [f_equal; unfold free; lia|].
      replace n with 0 by (unfold n, free; lia).
      rewrite slice_nil, app_nil_r. done.
    + cbv zeta. rewrite (u64_small (buflen - t)) by lia.
      rewrite (u64_small (capacity ch - used_bytes ch)) by lia.
      rewrite (u64_small (capacity ch - write_pos ch)) by lia.
      rewrite clip_min.
      set (chunk := Z.min (Z.min (buflen - t) (capacity ch - used_bytes ch))
                      (capacity ch - write_pos ch)).
      assert (1 <= chunk) as Hc1 by (unfold chunk; lia).
      rewrite decide_False by lia. rewrite decide_False by lia.
      rewrite (u64_small (write_pos ch + chunk)),
        (u64_small (used_bytes ch + chunk)), (u64_small (t + chunk))
        by (unfold chunk; lia).
      set (bytes := slice buf t chunk).
      assert (Z.of_nat (length bytes) = chunk) as Hbl'
        by (apply length_slice; unfold chunk; lia).
      pose proof (contents_write ch bytes Hwf) as Hcw. cbv zeta in Hcw.
      rewrite Hbl' in Hcw. specialize (Hcw ltac:(unfold chunk; lia)
                                            ltac:(unfold chunk; lia)).
      match goal with |- context [write_loop fuel ?c buf buflen _] =>
        set (ch1 := c) in * end.
      assert (pipe_wf ch1) as Hwf1.
      { unfold ch1. split; [simpl; lia|].
        split; [simpl; rewrite length_splice; lia|].
        split; [simpl; lia|]. split; [simpl; unfold chunk; lia|].
        simpl. rewrite Hwp, Zplus_mod_idemp_l. f_equal. lia. }
      destruct (IH ch1 (t + chunk) Hwf1)
        as (ch' & Hrun & Hcont & Hwf' & Hr' & Hw' & Hrp' & Hcap');
        [done|done|done|unfold chunk; lia|unfold chunk; lia|].
      exists ch'. split; [|split; [|done]].
      * rewrite Hrun. unfold ch1, free. simpl.
        destruct (decide (buflen - (t + chunk)
                          <= capacity ch - (used_bytes ch + chunk)));
          [rewrite decide_True by lia|rewrite decide_False by lia];
          f_equal; lia.
      * rewrite Hcont, Hcw. rewrite <- app_assoc. f_equal. unfold bytes.
        rewrite slice_slice; [|lia|lia|unfold ch1, chunk; simpl; lia].
        f_equal. unfold n, free, ch1, chunk. simpl. lia.
  - assert (t = buflen) as -> by lia. exists ch.
    rewrite decide_True by (unfold free; lia).
    rewrite to_long_small by lia. split; [done|].
    replace n with 0 by (unfold n, free; lia).
    rewrite slice_nil, app_nil_r. done.
Qed.

Lemma pipe_write_spec ch buf buflen :
  pipe_wf ch -> reader_alive ch ≠ 0 ->
  0 < buflen < 2 ^ 63 -> Z.of_nat (length buf) = buflen ->
  let free := capacity ch - used_bytes ch in
  let n := Z.min buflen free in
  exists ch',
    pipe_write_endpoint ch buf buflen
    = (if decide (buflen <= free) then Ret buflen tt ch'
       else Waiting free tt ch') /\
    contents ch' = contents ch ++ take (Z.to_nat n) buf /\ pipe_wf ch' /\
    reader_alive ch' = reader_alive ch /\ writer_alive ch' = writer_alive ch /\
    read_pos ch' = read_pos ch /\ capacity ch' = capacity ch.
Proof.
  intros Hwf Hr Hbl Hlen free n. unfold pipe_write_endpoint.
  rewrite decide_False by lia.
  destruct (write_loop_spec buf buflen (S (S (Z.to_nat buflen))) ch 0 Hwf Hr Hlen)
    as (ch' & Hrun & Hcont & Hrest); [lia|lia|lia|].
  rewrite Z.sub_0_r in Hrun, Hcont. simpl in Hrun.
  exists ch'. split; [done|]. split; [|done].
  rewrite Hcont. by unfold slice.
Qed.

(** X22: [pipe_read_endpoint] takes the oldest bytes.  On a pipe that holds
    bytes it returns at once with the first [n] of them, where [n] is
    at least one and at most the buffer size, the number of bytes held
    and the distance of the read position from the end of the storage;
    the other bytes stay in the pipe, in order.  On an empty pipe it
    returns 0 when the writer has closed and sleeps otherwise. *)
Theorem pipe_read_takes_oldest_bytes ch bufsz :
  pipe_wf ch -> 0 < bufsz < 2 ^ 63 ->
  (used_bytes ch = 0 ->
     pipe_read_endpoint ch bufsz
     = if decide (writer_alive ch = 0) then Ret 0 [] ch else Waiting 0 [] ch) /\
  (0 < used_bytes ch ->
     let n := Z.min (Z.min bufsz (used_bytes ch)) (capacity ch - read_pos ch) in
     1 <= n /\
     exists ch',
       pipe_read_endpoint ch bufsz
       = Ret n (take (Z.to_nat n) (contents ch)) ch' /\
       contents ch' = drop (Z.to_nat n) (contents ch) /\ pipe_wf ch' /\
       reader_alive ch' = reader_alive ch /\ writer_alive ch' = writer_alive ch).
Proof.
  intros Hwf Hsz. split.
  - intros Hz. unfold pipe_read_endpoint. rewrite decide_False by lia.
    cbn [read_loop]. rewrite decide_True by done. by case_decide.
  - intros Hused. by apply pipe_read_spec.
Qed.

(** X23: [pipe_write_endpoint] puts bytes behind those in the pipe.  With the
    reader open it copies as many bytes of the buffer as there is room
    for: all of them and it returns their number, or as many as fit and
    it sleeps, having transferred that many.  With the reader closed it
    returns -EPIPE and leaves the pipe alone. *)
Theorem pipe_write_appends_bytes ch buf buflen :
  pipe_wf ch -> 0 < buflen < 2 ^ 63 -> Z.of_nat (length buf) = buflen ->
  (reader_alive ch = 0 ->
     pipe_write_endpoint ch buf buflen = Ret (- EPIPE) tt ch) /\
  (reader_alive ch ≠ 0 ->
     let free := capacity ch - used_bytes ch in
     let n := Z.min buflen free in
     exists ch',
       pipe_write_endpoint ch buf buflen
       = (if decide (buflen <= free) then Ret buflen tt ch'
          else Waiting free tt ch') /\
       contents ch' = contents ch ++ take (Z.to_nat n) buf /\ pipe_wf ch' /\
       reader_alive ch' = reader_alive ch /\ writer_alive ch' = writer_alive ch /\
       read_pos ch' = read_pos ch /\ capacity ch' = capacity ch).
Proof.
  intros Hwf Hbl Hlen. split.
  - intros Hz. unfold pipe_write_endpoint. rewrite decide_False by lia.
    cbn [write_loop]. rewrite decide_True by lia. rewrite decide_True by done.
    by rewrite decide_False by lia.
  - intros Hr. by apply pipe_write_spec.
Qed.

Lemma pipe_read_takes_oldest_bytes_witness :
  let ch := Chan [1; 2; 3; 4] 4 3 1 2 1 1 in
  contents ch = [4; 1] /\
  exists ch', pipe_read_endpoint ch 8 = Ret 1 [4] ch' /\ contents ch' = [1].
Proof.
  intros ch. split; [reflexivity|].
  destruct (pipe_read_takes_oldest_bytes ch 8) as [_ Hread].
  - unfold pipe_wf. simpl. repeat split; try lia; reflexivity.
  - lia.
  - destruct Hread as (_ & ch' & Hrun & Hcont & _); [simpl; lia|].
    exists ch'. split; [exact Hrun | exact Hcont].
Defined.

Lemma pipe_write_appends_bytes_witness :
  let ch := Chan [1; 2; 3; 4] 4 3 1 2 1 1 in
  contents ch = [4; 1] /\
  exists ch', pipe_write_endpoint ch [7; 8; 9] 3 = Waiting 2 tt ch' /\
    contents ch' = [4; 1; 7; 8].
Proof.
  intros ch. split; [reflexivity|].
  destruct (pipe_write_appends_bytes ch [7; 8; 9] 3) as [_ Hwrite].
  - unfold pipe_wf. simpl. repeat split; try lia; reflexivity.
  - lia.
  - reflexivity.
  - destruct Hwrite as (ch' & Hrun & Hcont & _); [simpl; lia|].
    exists ch'. split; [exact Hrun | exact Hcont].
Defined.

(** X24: What is written into a new pipe is what is read from it: on the
    pipe that [create_pipe] sets up, whose capacity is HEAP_ALLOC_MAX
    (4032 bytes), a write of up to that many bytes returns their number
    without sleeping, and a read into a buffer that is large enough then
    returns exactly these bytes and leaves the pipe empty. *)
Theorem pipe_write_then_read b ch buf buflen bufsz :
  create_pipe (Some b) true = Some ch ->
  Z.of_nat (length b) = HEAP_ALLOC_MAX ->
  0 < buflen <= HEAP_ALLOC_MAX -> Z.of_nat (length buf) = buflen ->
  buflen <= bufsz < 2 ^ 63 ->
  capacity ch = 4032 /\
  exists ch1 ch2,
    pipe_write_endpoint ch buf buflen = Ret buflen tt ch1 /\
    pipe_read_endpoint ch1 bufsz = Ret buflen buf ch2 /\
    contents ch2 = [].
Proof.
  intros [= <-] Hb Hbl Hlen Hsz.
  change HEAP_ALLOC_MAX with 4032 in *.
  set (ch := Chan b _ 0 0 0 1 1).
  assert (capacity ch = 4032) as Hcap by reflexivity.
  split; [done|].
  assert (pipe_wf ch) as Hwf.
  { unfold pipe_wf. rewrite Hcap. simpl. rewrite Hb. repeat split; lia. }
  destruct (pipe_write_spec ch buf buflen Hwf)
    as (ch1 & Hw & Hc1 & Hwf1 & Hr1 & Hw1 & Hrp1 & Hcap1); [done|lia|done|].
  rewrite Hcap in Hcap1. change (read_pos ch) with 0 in Hrp1.
  rewrite Hcap in Hw, Hc1. simpl in Hw, Hc1.
  rewrite decide_True in Hw by lia.
  rewrite Z.min_l in Hc1 by lia. rewrite <- Hlen, Nat2Z.id, take_ge in Hc1 by lia.
  change (contents ch) with (@nil Z) in Hc1. simpl in Hc1.
  assert (used_bytes ch1 = buflen) as Hu1.
  { pose proof (f_equal length Hc1) as Hl. unfold contents in Hl.
    rewrite length_fmap, length_seqZ in Hl.
    destruct Hwf1 as (_ & _ & _ & Hu & _). lia. }
  destruct (pipe_read_spec ch1 bufsz Hwf1) as (_ & ch2 & Hread & Hc2 & _);
    [lia|lia|].
  rewrite Hu1, Hrp1, Hcap1 in Hread, Hc2.
  replace (Z.min (Z.min bufsz buflen) (4032 - 0)) with buflen in Hread, Hc2 by lia.
  rewrite Hc1 in Hread, Hc2.
  assert (Z.to_nat buflen = length buf) as Hnat by lia.
  rewrite Hnat in Hread, Hc2.
  rewrite take_ge in Hread by lia. rewrite drop_ge in Hc2 by lia.
  by exists ch1, ch2.
Qed.

Lemma pipe_write_then_read_witness :
  exists ch ch1 ch2,
    create_pipe (Some (replicate 4032 0)) true = Some ch /\
    capacity ch = 4032 /\
    pipe_write_endpoint ch [104; 105] 2 = Ret 2 tt ch1 /\
    pipe_read_endpoint ch1 16 = Ret 2 [104; 105] ch2 /\
    contents ch2 = [].
Proof.
  destruct (pipe_write_then_read (replicate 4032 0)
              (Chan (replicate 4032 0) 4032 0 0 0 1 1) [104; 105] 2 16)
    as (Hcap & ch1 & ch2 & Hw & Hr & Hc).
  - reflexivity.
  - rewrite length_replicate. reflexivity.
  - change HEAP_ALLOC_MAX with 4032. lia.
  - reflexivity.
  - lia.
  - exists (Chan (replicate 4032 0) 4032 0 0 0 1 1), ch1, ch2. by repeat split.
Defined.

End PipeFacts.
